(** * apollo.nvim: the chunk index and its vector kernels

    A shallow embedding of [src/C/chunks.c], [src/C/cosine_neon.c],
    [src/C/cosine_simd.c] and [src/simd/cosine_neon.c].

    - C [float] and [double] are IEEE 754 binary32 and binary64 values,
      represented by [spec_float] with the operations of [SpecFloat]
      instantiated at (24, 128) and (53, 1024); rounding is to nearest even.
    - A C array is a list; a pointer into it is the list together with a
      [Z] index.  Loads and stores are bounds checked in the model and an
      access outside the array ends the run with [OutOfBounds].  The one
      access that is followed further is [heap[0]] of [ci_search] on an
      empty heap: see [search_state].
    - [uint32_t] and [uint64_t] counters are [Z] with the wrap-around
      written out; loops carry fuel and end with [OutOfFuel] when the C
      loop would not terminate. *)

From Stdlib Require Import ZArith Lia Bool SpecFloat.
From Stdlib Require Strings.Byte.
From stdpp Require Import base list.

Open Scope Z_scope.

(** ** Outcomes of a run *)

Inductive outcome (A : Type) : Type :=
| Done (a : A)
| OutOfBounds
| OutOfFuel.
Arguments Done {A} a.
Arguments OutOfBounds {A}.
Arguments OutOfFuel {A}.

#[global] Instance outcome_ret : MRet outcome := @Done.

#[global] Instance outcome_bind : MBind outcome := fun A B k m =>
  match m with
  | Done a => k a
  | OutOfBounds => OutOfBounds
  | OutOfFuel => OutOfFuel
  end.

#[global] Instance outcome_fmap : FMap outcome := fun A B f m =>
  match m with
  | Done a => Done (f a)
  | OutOfBounds => OutOfBounds
  | OutOfFuel => OutOfFuel
  end.

(** [for (; cond(i); i = next(i)) s = body(i, s)], returning the counter
    and the state at exit. *)
Fixpoint for_loop {S : Type} (fuel : nat) (cond : Z -> bool) (next : Z -> Z)
    (body : Z -> S -> outcome S) (i : Z) (s : S) : outcome (Z * S) :=
  match fuel with
  | O => OutOfFuel
  | Datatypes.S fuel' =>
      if cond i then
        s' ← body i s;
        for_loop fuel' cond next body (next i) s'
      else Done (i, s)
  end.

Definition wrap32 (z : Z) : Z := z mod 2 ^ 32.
Definition wrap64 (z : Z) : Z := z mod 2 ^ 64.

(** ** Floating point *)

Definition float32 := spec_float.
Definition float64 := spec_float.

Module F32.
Definition prec : Z := 24.
Definition emax : Z := 128.
Definition add : float32 -> float32 -> float32 := SFadd prec emax.
Definition mul : float32 -> float32 -> float32 := SFmul prec emax.
Definition div : float32 -> float32 -> float32 := SFdiv prec emax.
Definition sqrt : float32 -> float32 := SFsqrt prec emax.
Definition zero : float32 := S754_zero false.
Definition one : float32 := S754_finite false 8388608 (-23).
Definition nan : float32 := S754_nan.
End F32.

Module F64.
Definition prec : Z := 53.
Definition emax : Z := 1024.
Definition add : float64 -> float64 -> float64 := SFadd prec emax.
Definition mul : float64 -> float64 -> float64 := SFmul prec emax.
Definition zero : float64 := S754_zero false.
Definition ltb : float64 -> float64 -> bool := SFltb.
Definition leb : float64 -> float64 -> bool := SFleb.
Definition eqb : float64 -> float64 -> bool := SFeqb.
End F64.

(** The C conversion [(double)f]: every binary32 value is a binary64 value,
    so the conversion only renormalises the mantissa. *)
Definition f32_to_f64 (x : float32) : float64 :=
  match x with
  | S754_finite s m e => binary_round F64.prec F64.emax s m e
  | _ => x
  end.

(** Arrays of [float]. *)
Definition load_f32 (a : list float32) (i : Z) : outcome float32 :=
  match a !! Z.to_nat i with
  | Some v => Done v
  | None => OutOfBounds
  end.

Definition store_f32 (a : list float32) (i : Z) (v : float32)
  : outcome (list float32) :=
  if decide (Z.to_nat i < length a)%nat
  then Done (<[Z.to_nat i := v]> a)
  else OutOfBounds.

(** ** The NEON intrinsics used by the kernels ([arm_neon.h], AArch64) *)

Module Neon.
Record float32x4_t := F32x4 { l0 : float32; l1 : float32; l2 : float32; l3 : float32 }.

Definition map2 (f : float32 -> float32 -> float32) (a b : float32x4_t) :=
  F32x4 (f (l0 a) (l0 b)) (f (l1 a) (l1 b)) (f (l2 a) (l2 b)) (f (l3 a) (l3 b)).

Definition vmovq_n_f32 (v : float32) : float32x4_t := F32x4 v v v v.
Definition vdupq_n_f32 (v : float32) : float32x4_t := F32x4 v v v v.
Definition vgetq_lane_f32_0 (a : float32x4_t) : float32 := l0 a.

Definition vld1q_f32 (p : list float32) (i : Z) : outcome float32x4_t :=
  a ← load_f32 p i;
  b ← load_f32 p (i + 1);
  c ← load_f32 p (i + 2);
  d ← load_f32 p (i + 3);
  Done (F32x4 a b c d).

Definition vst1q_f32 (p : list float32) (i : Z) (x : float32x4_t)
  : outcome (list float32) :=
  p ← store_f32 p i (l0 x);
  p ← store_f32 p (i + 1) (l1 x);
  p ← store_f32 p (i + 2) (l2 x);
  store_f32 p (i + 3) (l3 x).

Definition vmulq_f32 : float32x4_t -> float32x4_t -> float32x4_t := map2 F32.mul.

(** [vmlaq_f32 a b c] is [a + b * c] in every lane, the product rounded
    before the addition. *)
Definition vmlaq_f32 (a b c : float32x4_t) : float32x4_t :=
  map2 F32.add a (map2 F32.mul b c).

(** [vaddvq_f32]: two pairwise additions, [(l0 + l1) + (l2 + l3)]. *)
Definition vaddvq_f32 (a : float32x4_t) : float32 :=
  F32.add (F32.add (l0 a) (l1 a)) (F32.add (l2 a) (l3 a)).

(** [vrsqrteq_f32], one lane.  Zero gives an infinity of the same sign, a
    negative operand and NaN give NaN, plus infinity gives zero; on a
    positive finite operand the result is the hardware's table-driven
    estimate, which is left as the parameter [table]. *)
Definition frsqrte (table : float32 -> float32) (x : float32) : float32 :=
  match x with
  | S754_nan => S754_nan
  | S754_zero s => S754_infinity s
  | S754_infinity false => S754_zero false
  | S754_infinity true => S754_nan
  | S754_finite true _ _ => S754_nan
  | S754_finite false _ _ => table x
  end.

Definition vrsqrteq_f32 (table : float32 -> float32) (a : float32x4_t) :=
  F32x4 (frsqrte table (l0 a)) (frsqrte table (l1 a))
        (frsqrte table (l2 a)) (frsqrte table (l3 a)).

(** [vrsqrtsq_f32], one lane: [(3 - a * b) / 2] with a single rounding;
    infinity times zero counts as 2 and gives 1.5. *)
Definition signed_mant (s : bool) (m : positive) : Z := cond_Zopp s (Zpos m).

Definition frsqrts (a b : float32) : float32 :=
  match a, b with
  | S754_nan, _ | _, S754_nan => S754_nan
  | S754_infinity _, S754_zero _ | S754_zero _, S754_infinity _ =>
      S754_finite false 12582912 (-23)
  | S754_infinity sa, S754_infinity sb => S754_infinity (negb (xorb sa sb))
  | S754_infinity sa, S754_finite sb _ _ => S754_infinity (negb (xorb sa sb))
  | S754_finite sa _ _, S754_infinity sb => S754_infinity (negb (xorb sa sb))
  | S754_zero _, _ | _, S754_zero _ => S754_finite false 12582912 (-23)
  | S754_finite sa ma ea, S754_finite sb mb eb =>
      let ep := ea + eb in
      let e := Z.min 0 ep in
      let m := 3 * 2 ^ (0 - e) - signed_mant (xorb sa sb) (ma * mb) * 2 ^ (ep - e) in
      binary_normalize F32.prec F32.emax m (e - 1) false
  end.

Definition vrsqrtsq_f32 : float32x4_t -> float32x4_t -> float32x4_t := map2 frsqrts.
End Neon.

(** ** The AVX intrinsics used by the kernels ([immintrin.h])

    A [__m128] has four lanes; a [__m256] is given by its two 128-bit
    halves and a [__m512] by its two 256-bit halves, the low half first. *)

Module Avx.
Record m128 := M128 { e0 : float32; e1 : float32; e2 : float32; e3 : float32 }.
Definition m256 : Type := m128 * m128.
Definition m512 : Type := m256 * m256.

Definition sub : float32 -> float32 -> float32 := SFsub F32.prec F32.emax.

(** 0.5f and 3.0f *)
Definition half_f : float32 := S754_finite false 8388608 (-24).
Definition three_f : float32 := S754_finite false 12582912 (-22).

(** The fused multiply-add [a * b + c], rounded once.  When [a] or [b] is
    zero, infinite or NaN the product is exact and the result is the sum
    of the product and [c]. *)
Definition fmadd (a b c : float32) : float32 :=
  match a, b, c with
  | S754_finite sa ma ea, S754_finite sb mb eb, S754_finite sc mc ec =>
      let ep := ea + eb in
      let e := Z.min ep ec in
      binary_normalize F32.prec F32.emax
        (cond_Zopp (xorb sa sb) (Zpos (ma * mb)) * 2 ^ (ep - e)
         + cond_Zopp sc (Zpos mc) * 2 ^ (ec - e))
        e false
  | S754_finite _ _ _, S754_finite _ _ _, S754_zero _ => F32.mul a b
  | S754_finite _ _ _, S754_finite _ _ _, S754_infinity _ => c
  | S754_finite _ _ _, S754_finite _ _ _, S754_nan => S754_nan
  | _, _, _ => F32.add (F32.mul a b) c
  end.

(** The reciprocal square root approximations ([rsqrtps], [vrsqrt14ps]),
    one lane: zero gives an infinity of the same sign, NaN and minus
    infinity give NaN, plus infinity gives zero; on a finite non-zero
    operand the result is the processor's approximation, which is left
    as the parameter [table] (the two instructions differ there, also in
    what they do with subnormal operands). *)
Definition rsqrt (table : float32 -> float32) (x : float32) : float32 :=
  match x with
  | S754_nan => S754_nan
  | S754_zero s => S754_infinity s
  | S754_infinity false => S754_zero false
  | S754_infinity true => S754_nan
  | S754_finite _ _ _ => table x
  end.

Definition map1_128 (f : float32 -> float32) (a : m128) : m128 :=
  M128 (f (e0 a)) (f (e1 a)) (f (e2 a)) (f (e3 a)).
Definition map2_128 (f : float32 -> float32 -> float32) (a b : m128) : m128 :=
  M128 (f (e0 a) (e0 b)) (f (e1 a) (e1 b)) (f (e2 a) (e2 b)) (f (e3 a) (e3 b)).
Definition map3_128 (f : float32 -> float32 -> float32 -> float32) (a b c : m128)
  : m128 :=
  M128 (f (e0 a) (e0 b) (e0 c)) (f (e1 a) (e1 b) (e1 c))
       (f (e2 a) (e2 b) (e2 c)) (f (e3 a) (e3 b) (e3 c)).

Definition load4 (p : list float32) (i : Z) : outcome m128 :=
  a ← load_f32 p i;
  b ← load_f32 p (i + 1);
  c ← load_f32 p (i + 2);
  d ← load_f32 p (i + 3);
  Done (M128 a b c d).

Definition store4 (p : list float32) (i : Z) (x : m128) : outcome (list float32) :=
  p ← store_f32 p i (e0 x);
  p ← store_f32 p (i + 1) (e1 x);
  p ← store_f32 p (i + 2) (e2 x);
  store_f32 p (i + 3) (e3 x).

(** 128 bits *)
Definition _mm_add_ps : m128 -> m128 -> m128 := map2_128 F32.add.
Definition _mm_hadd_ps (a b : m128) : m128 :=
  M128 (F32.add (e0 a) (e1 a)) (F32.add (e2 a) (e3 a))
       (F32.add (e0 b) (e1 b)) (F32.add (e2 b) (e3 b)).
Definition _mm_cvtss_f32 (a : m128) : float32 := e0 a.

(** 256 bits *)
Definition _mm256_set1_ps (v : float32) : m256 := (M128 v v v v, M128 v v v v).
Definition _mm256_setzero_ps : m256 := _mm256_set1_ps F32.zero.
Definition _mm256_castps256_ps128 (v : m256) : m128 := v.1.
(** [_mm256_extractf128_ps(v, 1)] *)
Definition _mm256_extractf128_ps_1 (v : m256) : m128 := v.2.
Definition _mm256_add_ps (a b : m256) : m256 :=
  (map2_128 F32.add a.1 b.1, map2_128 F32.add a.2 b.2).
Definition _mm256_mul_ps (a b : m256) : m256 :=
  (map2_128 F32.mul a.1 b.1, map2_128 F32.mul a.2 b.2).
Definition _mm256_sub_ps (a b : m256) : m256 :=
  (map2_128 sub a.1 b.1, map2_128 sub a.2 b.2).
Definition _mm256_fmadd_ps (a b c : m256) : m256 :=
  (map3_128 fmadd a.1 b.1 c.1, map3_128 fmadd a.2 b.2 c.2).
Definition _mm256_rsqrt_ps (table : float32 -> float32) (a : m256) : m256 :=
  (map1_128 (rsqrt table) a.1, map1_128 (rsqrt table) a.2).
Definition _mm256_loadu_ps (p : list float32) (i : Z) : outcome m256 :=
  lo ← load4 p i;
  hi ← load4 p (i + 4);
  Done (lo, hi).
Definition _mm256_storeu_ps (p : list float32) (i : Z) (x : m256)
  : outcome (list float32) :=
  p ← store4 p i x.1;
  store4 p (i + 4) x.2.

(** 512 bits *)
Definition _mm512_set1_ps (v : float32) : m512 := (_mm256_set1_ps v, _mm256_set1_ps v).
Definition _mm512_setzero_ps : m512 := _mm512_set1_ps F32.zero.
Definition _mm512_castps512_ps256 (v : m512) : m256 := v.1.
(** [_mm512_extractf32x8_ps(v, 1)] *)
Definition _mm512_extractf32x8_ps_1 (v : m512) : m256 := v.2.
Definition _mm512_mul_ps (a b : m512) : m512 :=
  (_mm256_mul_ps a.1 b.1, _mm256_mul_ps a.2 b.2).
Definition _mm512_sub_ps (a b : m512) : m512 :=
  (_mm256_sub_ps a.1 b.1, _mm256_sub_ps a.2 b.2).
Definition _mm512_fmadd_ps (a b c : m512) : m512 :=
  (_mm256_fmadd_ps a.1 b.1 c.1, _mm256_fmadd_ps a.2 b.2 c.2).
Definition _mm512_rsqrt14_ps (table : float32 -> float32) (a : m512) : m512 :=
  (_mm256_rsqrt_ps table a.1, _mm256_rsqrt_ps table a.2).
Definition _mm512_loadu_ps (p : list float32) (i : Z) : outcome m512 :=
  lo ← _mm256_loadu_ps p i;
  hi ← _mm256_loadu_ps p (i + 8);
  Done (lo, hi).
Definition _mm512_storeu_ps (p : list float32) (i : Z) (x : m512)
  : outcome (list float32) :=
  p ← _mm256_storeu_ps p i x.1;
  _mm256_storeu_ps p (i + 8) x.2.
End Avx.

(** ** The vector kernels

    The NEON dot product appears three times in the repository; each copy
    is transcribed from its own file. *)

(** [src/C/cosine_neon.c] *)
Module CosineNeon.
Import Neon.

Definition f32_dot_product_neon (x y : list float32) (size : Z) : outcome float64 :=
  let fuel := S (Z.to_nat size) in
  (* vector accumulator *)
  let sum_v := vmovq_n_f32 F32.zero in
  (* main loop: 4 floats per iteration *)
  '(i, sum_v) ← for_loop fuel
      (fun i => wrap64 (i + 4) <=? size) (fun i => wrap64 (i + 4))
      (fun i sum_v =>
         vx ← vld1q_f32 x i;
         vy ← vld1q_f32 y i;
         (* sum_v += vx * vy *)
         Done (vmlaq_f32 sum_v vx vy))
      0 sum_v;
  (* horizontal add *)
  let sum := vaddvq_f32 sum_v in
  (* tail loop *)
  '(_, sum) ← for_loop fuel
      (fun i => i <? size) (fun i => wrap64 (i + 1))
      (fun i sum =>
         xi ← load_f32 x i;
         yi ← load_f32 y i;
         Done (F32.add sum (F32.mul xi yi)))
      i sum;
  Done (f32_to_f64 sum).

(** [norm_neon]: normalise with a vectorised sum of squares and the
    reciprocal square root estimate; returns the array after the
    in-place update. *)
Definition norm_neon (table : float32 -> float32) (v : list float32) (d : Z)
  : outcome (list float32) :=
  let fuel := S (Z.to_nat d) in
  (* vectorised sum of squares *)
  let sum4 := vmovq_n_f32 F32.zero in
  '(i, sum4) ← for_loop fuel
      (fun i => wrap32 (i + 4) <=? d) (fun i => wrap32 (i + 4))
      (fun i sum4 =>
         x ← vld1q_f32 v i;
         Done (vmlaq_f32 sum4 x x))
      0 sum4;
  let sum := vaddvq_f32 sum4 in
  '(_, sum) ← for_loop fuel
      (fun i => i <? d) (fun i => wrap32 (i + 1))
      (fun i sum =>
         vi ← load_f32 v i;
         Done (F32.add sum (F32.mul vi vi)))
      i sum;
  (* reciprocal square root estimate and two refinement steps *)
  let s4 := vdupq_n_f32 sum in
  let y := vrsqrteq_f32 table s4 in
  let y := vmulq_f32 y (vrsqrtsq_f32 (vmulq_f32 s4 (vmulq_f32 y y)) y) in
  let y := vmulq_f32 y (vrsqrtsq_f32 (vmulq_f32 s4 (vmulq_f32 y y)) y) in
  let inv_norm := vgetq_lane_f32_0 y in
  (* vectorised scaling by inv_norm *)
  let scale4 := vdupq_n_f32 inv_norm in
  '(i, v) ← for_loop fuel
      (fun i => wrap32 (i + 4) <=? d) (fun i => wrap32 (i + 4))
      (fun i v =>
         x ← vld1q_f32 v i;
         vst1q_f32 v i (vmulq_f32 x scale4))
      0 v;
  '(_, v) ← for_loop fuel
      (fun i => i <? d) (fun i => wrap32 (i + 1))
      (fun i v =>
         vi ← load_f32 v i;
         store_f32 v i (F32.mul vi inv_norm))
      i v;
  Done v.
End CosineNeon.

(** [src/C/cosine_simd.c], the branch compiled when [__ARM_NEON] is
    defined. *)
Module CosineSimdNeon.
Import Neon.

Definition f32_dot_product_simd (x y : list float32) (size : Z) : outcome float64 :=
  let fuel := S (Z.to_nat size) in
  let sum_v := vmovq_n_f32 F32.zero in
  '(i, sum_v) ← for_loop fuel
      (fun i => wrap64 (i + 4) <=? size) (fun i => wrap64 (i + 4))
      (fun i sum_v =>
         vx ← vld1q_f32 x i;
         vy ← vld1q_f32 y i;
         Done (vmlaq_f32 sum_v vx vy))
      0 sum_v;
  let sum := vaddvq_f32 sum_v in
  '(_, sum) ← for_loop fuel
      (fun i => i <? size) (fun i => wrap64 (i + 1))
      (fun i sum =>
         xi ← load_f32 x i;
         yi ← load_f32 y i;
         Done (F32.add sum (F32.mul xi yi)))
      i sum;
  Done (f32_to_f64 sum).

Definition norm_simd (table : float32 -> float32) (v : list float32) (d : Z)
  : outcome (list float32) :=
  let fuel := S (Z.to_nat d) in
  let sum4 := vmovq_n_f32 F32.zero in
  '(i, sum4) ← for_loop fuel
      (fun i => wrap32 (i + 4) <=? d) (fun i => wrap32 (i + 4))
      (fun i sum4 =>
         x ← vld1q_f32 v i;
         Done (vmlaq_f32 sum4 x x))
      0 sum4;
  let sum := vaddvq_f32 sum4 in
  '(_, sum) ← for_loop fuel
      (fun i => i <? d) (fun i => wrap32 (i + 1))
      (fun i sum =>
         vi ← load_f32 v i;
         Done (F32.add sum (F32.mul vi vi)))
      i sum;
  let s4 := vdupq_n_f32 sum in
  let y := vrsqrteq_f32 table s4 in
  let y := vmulq_f32 y (vrsqrtsq_f32 (vmulq_f32 s4 (vmulq_f32 y y)) y) in
  let y := vmulq_f32 y (vrsqrtsq_f32 (vmulq_f32 s4 (vmulq_f32 y y)) y) in
  let inv_norm := vgetq_lane_f32_0 y in
  let scale4 := vdupq_n_f32 inv_norm in
  '(i, v) ← for_loop fuel
      (fun i => wrap32 (i + 4) <=? d) (fun i => wrap32 (i + 4))
      (fun i v =>
         x ← vld1q_f32 v i;
         vst1q_f32 v i (vmulq_f32 x scale4))
      0 v;
  '(_, v) ← for_loop fuel
      (fun i => i <? d) (fun i => wrap32 (i + 1))
      (fun i v =>
         vi ← load_f32 v i;
         store_f32 v i (F32.mul vi inv_norm))
      i v;
  Done v.
End CosineSimdNeon.

(** [src/C/cosine_simd.c], the branch compiled when [__AVX512F__] is
    defined. *)
Module CosineSimdAvx512.
Import Avx.

Definition hsum512_ps (v : m512) : float32 :=
  let lo := _mm512_castps512_ps256 v in
  let hi := _mm512_extractf32x8_ps_1 v in
  let sum256 := _mm256_add_ps lo hi in
  let lo128 := _mm256_castps256_ps128 sum256 in
  let hi128 := _mm256_extractf128_ps_1 sum256 in
  let sum128 := _mm_add_ps lo128 hi128 in
  let sum128 := _mm_hadd_ps sum128 sum128 in
  let sum128 := _mm_hadd_ps sum128 sum128 in
  _mm_cvtss_f32 sum128.

Definition f32_dot_product_simd (x y : list float32) (size : Z) : outcome float64 :=
  let fuel := S (Z.to_nat size) in
  let acc := _mm512_setzero_ps in
  '(i, acc) ← for_loop fuel
      (fun i => wrap64 (i + 16) <=? size) (fun i => wrap64 (i + 16))
      (fun i acc =>
         vx ← _mm512_loadu_ps x i;
         vy ← _mm512_loadu_ps y i;
         Done (_mm512_fmadd_ps vx vy acc))
      0 acc;
  let sum := hsum512_ps acc in
  '(_, sum) ← for_loop fuel
      (fun i => i <? size) (fun i => wrap64 (i + 1))
      (fun i sum =>
         xi ← load_f32 x i;
         yi ← load_f32 y i;
         Done (F32.add sum (F32.mul xi yi)))
      i sum;
  Done (f32_to_f64 sum).

Definition norm_simd (table : float32 -> float32) (v : list float32) (d : Z)
  : outcome (list float32) :=
  let fuel := S (Z.to_nat d) in
  let acc := _mm512_setzero_ps in
  '(i, acc) ← for_loop fuel
      (fun i => wrap32 (i + 16) <=? d) (fun i => wrap32 (i + 16))
      (fun i acc =>
         x ← _mm512_loadu_ps v i;
         Done (_mm512_fmadd_ps x x acc))
      0 acc;
  let sum := hsum512_ps acc in
  '(_, sum) ← for_loop fuel
      (fun i => i <? d) (fun i => wrap32 (i + 1))
      (fun i sum =>
         vi ← load_f32 v i;
         Done (F32.add sum (F32.mul vi vi)))
      i sum;
  if SFeqb sum F32.zero then Done v else
  let s := _mm512_set1_ps sum in
  let y := _mm512_rsqrt14_ps table s in
  let half := _mm512_set1_ps half_f in
  let three := _mm512_set1_ps three_f in
  let y2 := _mm512_mul_ps y y in
  let y := _mm512_mul_ps y
             (_mm512_mul_ps
                (_mm512_sub_ps three (_mm512_mul_ps s (_mm512_mul_ps y2 half))) half) in
  let y2 := _mm512_mul_ps y y in
  let y := _mm512_mul_ps y
             (_mm512_mul_ps
                (_mm512_sub_ps three (_mm512_mul_ps s (_mm512_mul_ps y2 half))) half) in
  let inv_norm :=
    _mm_cvtss_f32 (_mm256_castps256_ps128 (_mm512_castps512_ps256 y)) in
  let scale := _mm512_set1_ps inv_norm in
  '(i, v) ← for_loop fuel
      (fun i => wrap32 (i + 16) <=? d) (fun i => wrap32 (i + 16))
      (fun i v =>
         x ← _mm512_loadu_ps v i;
         _mm512_storeu_ps v i (_mm512_mul_ps x scale))
      0 v;
  '(_, v) ← for_loop fuel
      (fun i => i <? d) (fun i => wrap32 (i + 1))
      (fun i v =>
         vi ← load_f32 v i;
         store_f32 v i (F32.mul vi inv_norm))
      i v;
  Done v.
End CosineSimdAvx512.

(** [src/C/cosine_simd.c], the branch compiled when [__AVX2__] is
    defined. *)
Module CosineSimdAvx2.
Import Avx.

Definition hsum256_ps (v : m256) : float32 :=
  let lo := _mm256_castps256_ps128 v in
  let hi := _mm256_extractf128_ps_1 v in
  let sum := _mm_add_ps lo hi in
  let sum := _mm_hadd_ps sum sum in
  let sum := _mm_hadd_ps sum sum in
  _mm_cvtss_f32 sum.

Definition f32_dot_product_simd (x y : list float32) (size : Z) : outcome float64 :=
  let fuel := S (Z.to_nat size) in
  let acc := _mm256_setzero_ps in
  '(i, acc) ← for_loop fuel
      (fun i => wrap64 (i + 8) <=? size) (fun i => wrap64 (i + 8))
      (fun i acc =>
         vx ← _mm256_loadu_ps x i;
         vy ← _mm256_loadu_ps y i;
         Done (_mm256_fmadd_ps vx vy acc))
      0 acc;
  let sum := hsum256_ps acc in
  '(_, sum) ← for_loop fuel
      (fun i => i <? size) (fun i => wrap64 (i + 1))
      (fun i sum =>
         xi ← load_f32 x i;
         yi ← load_f32 y i;
         Done (F32.add sum (F32.mul xi yi)))
      i sum;
  Done (f32_to_f64 sum).

Definition norm_simd (table : float32 -> float32) (v : list float32) (d : Z)
  : outcome (list float32) :=
  let fuel := S (Z.to_nat d) in
  let acc := _mm256_setzero_ps in
  '(i, acc) ← for_loop fuel
      (fun i => wrap32 (i + 8) <=? d) (fun i => wrap32 (i + 8))
      (fun i acc =>
         x ← _mm256_loadu_ps v i;
         Done (_mm256_fmadd_ps x x acc))
      0 acc;
  let sum := hsum256_ps acc in
  '(_, sum) ← for_loop fuel
      (fun i => i <? d) (fun i => wrap32 (i + 1))
      (fun i sum =>
         vi ← load_f32 v i;
         Done (F32.add sum (F32.mul vi vi)))
      i sum;
  if SFeqb sum F32.zero then Done v else
  let s := _mm256_set1_ps sum in
  let y := _mm256_rsqrt_ps table s in
  let half := _mm256_set1_ps half_f in
  let three := _mm256_set1_ps three_f in
  let y2 := _mm256_mul_ps y y in
  let t := _mm256_sub_ps three (_mm256_mul_ps s (_mm256_mul_ps y2 half)) in
  let y := _mm256_mul_ps y (_mm256_mul_ps t half) in
  let y2 := _mm256_mul_ps y y in
  let t := _mm256_sub_ps three (_mm256_mul_ps s (_mm256_mul_ps y2 half)) in
  let y := _mm256_mul_ps y (_mm256_mul_ps t half) in
  let inv_norm := _mm_cvtss_f32 (_mm256_castps256_ps128 y) in
  let scale := _mm256_set1_ps inv_norm in
  '(i, v) ← for_loop fuel
      (fun i => wrap32 (i + 8) <=? d) (fun i => wrap32 (i + 8))
      (fun i v =>
         x ← _mm256_loadu_ps v i;
         _mm256_storeu_ps v i (_mm256_mul_ps x scale))
      0 v;
  '(_, v) ← for_loop fuel
      (fun i => i <? d) (fun i => wrap32 (i + 1))
      (fun i v =>
         vi ← load_f32 v i;
         store_f32 v i (F32.mul vi inv_norm))
      i v;
  Done v.
End CosineSimdAvx2.

(** [src/C/cosine_simd.c], the scalar fallback (the [#else] branch, no
    vector extension defined). *)
Module CosineSimdScalar.

Definition f32_dot_product_simd (x y : list float32) (size : Z) : outcome float64 :=
  '(_, sum) ← for_loop (S (Z.to_nat size))
      (fun i => i <? size) (fun i => wrap64 (i + 1))
      (fun i sum =>
         xi ← load_f32 x i;
         yi ← load_f32 y i;
         Done (F64.add sum (F64.mul (f32_to_f64 xi) (f32_to_f64 yi))))
      0 F64.zero;
  Done sum.

Definition norm_simd (v : list float32) (d : Z) : outcome (list float32) :=
  let fuel := S (Z.to_nat d) in
  '(_, sum) ← for_loop fuel
      (fun i => i <? d) (fun i => wrap32 (i + 1))
      (fun i sum =>
         vi ← load_f32 v i;
         Done (F32.add sum (F32.mul vi vi)))
      0 F32.zero;
  if SFeqb sum F32.zero then Done v else
  let inv := F32.div F32.one (F32.sqrt sum) in
  '(_, v) ← for_loop fuel
      (fun i => i <? d) (fun i => wrap32 (i + 1))
      (fun i v =>
         vi ← load_f32 v i;
         store_f32 v i (F32.mul vi inv))
      0 v;
  Done v.
End CosineSimdScalar.

(** [src/simd/cosine_neon.c] *)
Module SimdCosineNeon.
Import Neon.

Definition f32_cosine_distance_neon (x y : list float32) (size : Z) : outcome float64 :=
  (* Vector accumulators *)
  let sum_xy_v := vmovq_n_f32 F32.zero in
  let sum_xx_v := vmovq_n_f32 F32.zero in
  let sum_yy_v := vmovq_n_f32 F32.zero in
  (* Main loop: 4 floats per iteration *)
  '(i, (sum_xy_v, sum_xx_v, sum_yy_v)) ← for_loop (S (Z.to_nat size))
      (fun i => wrap64 (i + 4) <=? size) (fun i => wrap64 (i + 4))
      (fun i '(sum_xy_v, sum_xx_v, sum_yy_v) =>
         vx ← vld1q_f32 x i;
         vy ← vld1q_f32 y i;
         Done (vmlaq_f32 sum_xy_v vx vy,
               vmlaq_f32 sum_xx_v vx vx,
               vmlaq_f32 sum_yy_v vy vy))
      0 (sum_xy_v, sum_xx_v, sum_yy_v);
  (* Horizontal add of vector accumulators *)
  let sum_xy := vaddvq_f32 sum_xy_v in
  let sum_xx := vaddvq_f32 sum_xx_v in
  let sum_yy := vaddvq_f32 sum_yy_v in
  (* Tail loop for remaining elements *)
  '(_, (sum_xy, sum_xx, sum_yy)) ← for_loop (S (Z.to_nat size))
      (fun i => i <? size) (fun i => wrap64 (i + 1))
      (fun i '(sum_xy, sum_xx, sum_yy) =>
         xi ← load_f32 x i;
         yi ← load_f32 y i;
         Done (F32.add sum_xy (F32.mul xi yi),
               F32.add sum_xx (F32.mul xi xi),
               F32.add sum_yy (F32.mul yi yi)))
      i (sum_xy, sum_xx, sum_yy);
  (* Final cosine-distance calculation *)
  let denom := F32.mul (F32.sqrt sum_xx) (F32.sqrt sum_yy) in
  if SFeqb denom F32.zero then Done F64.zero
  else Done (f32_to_f64 (F32.div sum_xy denom)).

Definition f32_dot_product_neon (x y : list float32) (size : Z) : outcome float64 :=
  (* Vector accumulator *)
  let sum_v := vmovq_n_f32 F32.zero in
  (* Main loop: 4 floats per iteration *)
  '(i, sum_v) ← for_loop (S (Z.to_nat size))
      (fun i => wrap64 (i + 4) <=? size) (fun i => wrap64 (i + 4))
      (fun i sum_v =>
         vx ← vld1q_f32 x i;
         vy ← vld1q_f32 y i;
         Done (vmlaq_f32 sum_v vx vy))
      0 sum_v;
  (* Horizontal add *)
  let sum := vaddvq_f32 sum_v in
  (* Tail loop *)
  '(_, sum) ← for_loop (S (Z.to_nat size))
      (fun i => i <? size) (fun i => wrap64 (i + 1))
      (fun i sum =>
         xi ← load_f32 x i;
         yi ← load_f32 y i;
         Done (F32.add sum (F32.mul xi yi)))
      i sum;
  Done (f32_to_f64 sum).
End SimdCosineNeon.

(** ** [src/C/chunks.c] *)

Module Chunks.

(** *** Raw memory: bytes, little-endian words, binary32 bit patterns *)

Definition byte := Byte.byte.
Definition u8 (b : byte) : Z := Z.of_N (Byte.to_N b).

Definition load_u8 (buf : list byte) (p : Z) : outcome Z :=
  if p <? 0 then OutOfBounds else
  match buf !! Z.to_nat p with
  | Some b => Done (u8 b)
  | None => OutOfBounds
  end.

Definition le32 (b0 b1 b2 b3 : Z) : Z :=
  b0 + 2 ^ 8 * b1 + 2 ^ 16 * b2 + 2 ^ 24 * b3.

(** [*(uint32_t* )p] on a little-endian machine. *)
Definition read_u32 (buf : list byte) (p : Z) : outcome Z :=
  b0 ← load_u8 buf p;
  b1 ← load_u8 buf (p + 1);
  b2 ← load_u8 buf (p + 2);
  b3 ← load_u8 buf (p + 3);
  Done (le32 b0 b1 b2 b3).

Definition f32_of_bits (w : Z) : float32 :=
  let s := Z.testbit w 31 in
  let e := (w / 2 ^ 23) mod 2 ^ 8 in
  let m := w mod 2 ^ 23 in
  if e =? 0 then
    if m =? 0 then S754_zero s else S754_finite s (Z.to_pos m) (-149)
  else if e =? 255 then
    if m =? 0 then S754_infinity s else S754_nan
  else S754_finite s (Z.to_pos (m + 2 ^ 23)) (e - 150).

Definition sign_bit (s : bool) : Z := if s then 2 ^ 31 else 0.

Definition bits_of_f32 (x : float32) : Z :=
  match x with
  | S754_zero s => sign_bit s
  | S754_infinity s => sign_bit s + 255 * 2 ^ 23
  | S754_nan => 255 * 2 ^ 23 + 2 ^ 22
  | S754_finite s m e =>
      if Zpos m <? 2 ^ 23 then sign_bit s + Zpos m
      else sign_bit s + (e + 150) * 2 ^ 23 + (Zpos m - 2 ^ 23)
  end.

Definition byte_of (z : Z) : byte :=
  default Byte.x00 (Byte.of_N (Z.to_N (z mod 2 ^ 8))).

Definition bytes_of_u32 (w : Z) : list byte :=
  [byte_of w; byte_of (w / 2 ^ 8); byte_of (w / 2 ^ 16); byte_of (w / 2 ^ 24)].

Fixpoint words_of (bs : list byte) : list Z :=
  match bs with
  | b0 :: b1 :: b2 :: b3 :: rest => le32 (u8 b0) (u8 b1) (u8 b2) (u8 b3) :: words_of rest
  | _ => []
  end.

(** The [float] array a pointer [(float* )(base + p)] designates: the
    whole words between [p] and the end of the buffer. *)
Definition f32_view (buf : list byte) (p : Z) : list float32 :=
  f32_of_bits <$> words_of (drop (Z.to_nat p) buf).

(** The buffer after the floats [fs] were stored at offset [p]. *)
Definition write_f32s (buf : list byte) (p : Z) (fs : list float32) : list byte :=
  take (Z.to_nat p) buf
    ++ (fs ≫= fun f => bytes_of_u32 (bits_of_f32 f))
    ++ drop (Z.to_nat p + 4 * length fs) buf.

(** The bytes a [const char*] into the buffer designates, up to a length. *)
Definition bytes_at (buf : list byte) (p len : Z) : list byte :=
  take (Z.to_nat len) (drop (Z.to_nat p) buf).

(** *** Data *)

(** Pointers into the arena are offsets from [arena.base]. *)
Record Chunk := {
  id : Z; parent : Z; file : Z; ext : Z; text : Z;
  start_ln : Z; end_ln : Z;
  dim : Z;
  emb : Z
}.

Record ChunkIndex := {
  arena : list byte;
  N : Z;
  chunks : list Chunk
}.

(** *** Loading *)

Definition read_str (buf : list byte) (p : Z) : outcome (Z * Z) :=
  L ← read_u32 buf p;
  let p := p + 4 in
  let s := p in
  let p := p + L in
  Done (s, p).

(** [norm_neon(c->emb, c->dim)] on the arena. *)
Definition norm_in_arena (table : float32 -> float32) (buf : list byte) (p d : Z)
  : outcome (list byte) :=
  v ← CosineNeon.norm_neon table (f32_view buf p) d;
  Done (write_f32s buf p (take (Z.to_nat d) v)).

Definition load_record (table : float32 -> float32)
    (st : list byte * Z * list Chunk) : outcome (list byte * Z * list Chunk) :=
  let '(buf, p, cs) := st in
  '(c_id, p) ← read_str buf p;
  '(c_parent, p) ← read_str buf p;
  '(c_file, p) ← read_str buf p;
  '(c_ext, p) ← read_str buf p;
  c_start_ln ← read_u32 buf p; let p := p + 4 in
  c_end_ln ← read_u32 buf p; let p := p + 4 in
  '(c_text, p) ← read_str buf p;
  c_dim ← read_u32 buf p; let p := p + 4 in
  let c_emb := p in
  buf ← norm_in_arena table buf c_emb c_dim;
  let p := p + 4 * c_dim in
  Done (buf, p,
        cs ++ [{| id := c_id; parent := c_parent; file := c_file; ext := c_ext;
                  text := c_text; start_ln := c_start_ln; end_ln := c_end_ln;
                  dim := c_dim; emb := c_emb |}]).

(** [ci_load]: [file] is the content of the file, [None] when it cannot
    be opened; the result [None] is the C [NULL]. *)
Definition ci_load (table : float32 -> float32) (file : option (list byte))
  : outcome (option ChunkIndex) :=
  match file with
  | None => Done None
  | Some buf =>
      let p := 0 in
      N ← read_u32 buf p; let p := p + 4 in
      '(_, (buf, _, cs)) ← for_loop (S (Z.to_nat N))
          (fun i => i <? N) (fun i => wrap32 (i + 1))
          (fun _ st => load_record table st)
          0 (buf, p, []);
      Done (Some {| arena := buf; N := N; chunks := cs |})
  end.

(** *** Getters *)

Definition chunk_at (ci : ChunkIndex) (i : Z) : outcome Chunk :=
  if i <? 0 then OutOfBounds else
  match chunks ci !! Z.to_nat i with
  | Some c => Done c
  | None => OutOfBounds
  end.

Definition ci_get_id (ci : ChunkIndex) (i : Z) : outcome Z := id <$> chunk_at ci i.
Definition ci_get_parent (ci : ChunkIndex) (i : Z) : outcome Z := parent <$> chunk_at ci i.
Definition ci_get_file (ci : ChunkIndex) (i : Z) : outcome Z := file <$> chunk_at ci i.
Definition ci_get_ext (ci : ChunkIndex) (i : Z) : outcome Z := ext <$> chunk_at ci i.
Definition ci_get_start (ci : ChunkIndex) (i : Z) : outcome Z := start_ln <$> chunk_at ci i.
Definition ci_get_end (ci : ChunkIndex) (i : Z) : outcome Z := end_ln <$> chunk_at ci i.
Definition ci_get_text (ci : ChunkIndex) (i : Z) : outcome Z := text <$> chunk_at ci i.

(** *** Top-K search with a min-heap *)

Record Pair := { score : float64; idx : Z }.

(** Conversion of a [uint32_t] to [int]. *)
Definition to_int (u : Z) : Z := if u <? 2 ^ 31 then u else u - 2 ^ 32.

Definition heap_at (h : list Pair) (j : Z) : outcome Pair :=
  if j <? 0 then OutOfBounds else
  match h !! Z.to_nat j with
  | Some p => Done p
  | None => OutOfBounds
  end.

Definition heap_set (h : list Pair) (j : Z) (p : Pair) : outcome (list Pair) :=
  if j <? 0 then OutOfBounds else
  if decide (Z.to_nat j < length h)%nat
  then Done (<[Z.to_nat j := p]> h)
  else OutOfBounds.

(** The [while(1)] loop of [sift_down], started at [i]; [int] values are
    integers (the doubled index stays below [2^31] for every heap of at
    most [2^30] entries). *)
Fixpoint sift_loop (fuel : nat) (h : list Pair) (K i : Z) : outcome (list Pair) :=
  match fuel with
  | O => OutOfFuel
  | S fuel' =>
      let c := 2 * i + 1 in
      if c >=? K then Done h else
      c ← (if c + 1 <? K then
             r ← heap_at h (c + 1);
             l ← heap_at h c;
             Done (if F64.ltb (score r) (score l) then c + 1 else c)
           else Done c);
      hc ← heap_at h c;
      hi ← heap_at h i;
      if F64.ltb (score hc) (score hi) then
        (* Pair t=h[i]; h[i]=h[c]; h[c]=t; i=c; *)
        let t := hi in
        h ← heap_set h i hc;
        h ← heap_set h c t;
        sift_loop fuel' h K c
      else Done h
  end.

Definition sift_down (h : list Pair) (K : Z) : outcome (list Pair) :=
  sift_loop (S (length h)) h K 0.

(** [for (int p = (K - 2) / 2; p >= 0; p--) sift_down(heap, K);] with
    [K] a [uint32_t]. *)
Definition build_heap (h : list Pair) (K : Z) : outcome (list Pair) :=
  let p0 := to_int (wrap32 (K - 2) / 2) in
  snd <$> for_loop (S (Z.to_nat (p0 + 1)))
    (fun p => 0 <=? p) (fun p => p - 1)
    (fun _ h => sift_down h (to_int K))
    p0 h.

(** The state of one [ci_search] call.  [heap] is the block returned by
    [calloc(K, sizeof(Pair))].  With [K = 0] the block is empty and
    [heap[0]] designates the memory behind it: [beyond] is the [Pair]
    stored there and [stray] records that it was accessed. *)
Record search_state := {
  heap : list Pair;
  sz : Z;
  beyond : Pair;
  stray : bool
}.

(** Lines 121-132: what the scan does with the score [sc_val] of
    record [i]. *)
Definition heap_offer (K : Z) (sc_val : float64) (i : Z) (st : search_state)
  : outcome search_state :=
  if sz st <? K then
    h ← heap_set (heap st) (sz st) {| score := sc_val; idx := i |};
    let sz' := wrap32 (sz st + 1) in
    if sz' =? K then
      h ← build_heap h K;
      Done {| heap := h; sz := sz'; beyond := beyond st; stray := stray st |}
    else
      Done {| heap := h; sz := sz'; beyond := beyond st; stray := stray st |}
  else
    match heap st with
    | root :: _ =>
        if F64.ltb (score root) sc_val then
          h ← heap_set (heap st) 0 {| score := sc_val; idx := i |};
          h ← sift_down h (to_int K);
          Done {| heap := h; sz := sz st; beyond := beyond st; stray := stray st |}
        else Done st
    | [] =>
        if F64.ltb (score (beyond st)) sc_val then
          h ← sift_down (heap st) (to_int K);
          Done {| heap := h; sz := sz st;
                  beyond := {| score := sc_val; idx := i |}; stray := true |}
        else
          Done {| heap := heap st; sz := sz st; beyond := beyond st; stray := true |}
    end.

(** [c->emb] as an array. *)
Definition emb_floats (ci : ChunkIndex) (c : Chunk) : list float32 :=
  f32_view (arena ci) (emb c).

(** The body of the scan loop for record [i]. *)
Definition search_record (ci : ChunkIndex) (q : list float32) (dim K : Z)
    (i : Z) (st : search_state) : outcome search_state :=
  c ← chunk_at ci i;
  if negb (Chunks.dim c =? dim) then Done st else
  sc_val ← CosineNeon.f32_dot_product_neon q (emb_floats ci c) dim;
  heap_offer K sc_val i st.

(** What [ci_search] hands back: the return value and the filled prefixes
    of [out_i] and [out_s].  [heap_oob] is not a result of the C function:
    it tells whether the call touched the memory behind the heap block. *)
Record search_result := {
  count : Z;
  out_i : list Z;
  out_s : list float64;
  heap_oob : bool
}.

Definition zero_pair : Pair := {| score := F64.zero; idx := 0 |}.

(** The state at the start of a call: [heap = calloc(K, sizeof(Pair))] and
    [sz = 0]; [past_end] is the content of the memory behind the heap
    block, which only matters when that block is empty. *)
Definition search_start (K : Z) (past_end : Pair) : search_state :=
  {| heap := replicate (Z.to_nat K) zero_pair; sz := 0;
     beyond := past_end; stray := false |}.

(** The scan loop of [ci_search]. *)
Definition scan_records (ci : ChunkIndex) (q : list float32) (dim K : Z)
    (past_end : Pair) : outcome (Z * search_state) :=
  for_loop (S (Z.to_nat (N ci)))
    (fun i => i <? N ci) (fun i => wrap32 (i + 1))
    (search_record ci q dim K)
    0 (search_start K past_end).

Definition ci_search (ci : ChunkIndex) (q : list float32) (dim K : Z)
    (past_end : Pair) : outcome search_result :=
  '(_, st) ← scan_records ci q dim K past_end;
  '(_, (oi, os)) ← for_loop (S (Z.to_nat (sz st)))
      (fun j => j <? sz st) (fun j => wrap32 (j + 1))
      (fun j '(oi, os) =>
         hj ← heap_at (heap st) j;
         Done (oi ++ [idx hj], os ++ [score hj]))
      0 ([], []);
  Done {| count := sz st; out_i := oi; out_s := os; heap_oob := stray st |}.

(** The records the scan scores: those whose dimension is the query's. *)
Definition eligible (dim : Z) (c : Chunk) : Prop := Chunks.dim c = dim.

#[global] Instance eligible_dec dim c : Decision (eligible dim c).
Proof. unfold eligible. apply _. Defined.

Definition eligible_index (ci : ChunkIndex) (dim : Z) (i : Z) : Prop :=
  0 <= i /\ exists c, chunks ci !! Z.to_nat i = Some c /\ eligible dim c.

(** The entries the selector holds. *)
Definition retained (st : search_state) : list Pair :=
  take (Z.to_nat (sz st)) (heap st).

Definition wf_state (K : Z) (st : search_state) : Prop :=
  Z.of_nat (length (heap st)) = K /\ 0 <= sz st <= K.

(** The indices, from [i] on, of the records of dimension [dim]. *)
Fixpoint eligible_from (dim : Z) (i : Z) (cs : list Chunk) : list Z :=
  match cs with
  | [] => []
  | c :: cs' =>
      if decide (eligible dim c) then i :: eligible_from dim (i + 1) cs'
      else eligible_from dim (i + 1) cs'
  end.

Definition eligible_indices (ci : ChunkIndex) (dim : Z) : list Z :=
  eligible_from dim 0 (chunks ci).

(** Scoring record [i] and offering it to the selector, with no test of
    its dimension. *)
Definition score_and_offer (ci : ChunkIndex) (q : list float32) (dim K : Z)
    (i : Z) (st : search_state) : outcome search_state :=
  c ← chunk_at ci i;
  sc_val ← CosineNeon.f32_dot_product_neon q (emb_floats ci c) dim;
  heap_offer K sc_val i st.

(** The invariant of the scan loop, before record [i]. *)
Definition scan_inv (ci : ChunkIndex) (dim K : Z) (i : Z) (st : search_state) : Prop :=
  0 <= i <= N ci /\ wf_state K st /\
  sz st = Z.min K (Z.of_nat (length (filter (eligible dim)
                                      (take (Z.to_nat i) (chunks ci))))) /\
  Forall (fun p => eligible_index ci dim (idx p)) (retained st) /\
  (0 < K -> stray st = false) /\
  (K = 0 ->
   (0 < length (filter (eligible dim) (take (Z.to_nat i) (chunks ci))))%nat ->
   stray st = true).

(** What a caller of [ci_search] owes: the table has [N] entries, the
    query has [dim] floats, and so has every record of dimension [dim]. *)
Record wf_search (ci : ChunkIndex) (q : list float32) (dim : Z) : Prop := {
  wf_N : N ci = Z.of_nat (length (chunks ci));
  wf_N32 : N ci < 2 ^ 32;
  wf_dim : 0 <= dim < 2 ^ 32;
  wf_q : dim <= Z.of_nat (length q);
  wf_emb : forall c, c ∈ chunks ci -> eligible dim c ->
             dim <= Z.of_nat (length (emb_floats ci c))
}.

(** *** The corpus file format *)

(** Modelled from the spec: the pipeline that writes the corpus file is
    not part of the repository.  A record as the producer knows it, and
    the layout of section 6 of the specification
    ([File := RecordCount:u32 Record*], [LPStr := len:u32 bytes[len]]). *)
Record Source := {
  s_id : list byte; s_parent : list byte; s_file : list byte; s_ext : list byte;
  s_start : Z; s_end : Z;
  s_text : list byte;
  s_emb : list float32
}.

Definition bytes_of_f32s (fs : list float32) : list byte :=
  fs ≫= fun f => bytes_of_u32 (bits_of_f32 f).

Definition lpstr (s : list byte) : list byte :=
  bytes_of_u32 (Z.of_nat (length s)) ++ s.

Definition encode_record (r : Source) : list byte :=
  lpstr (s_id r) ++ lpstr (s_parent r) ++ lpstr (s_file r) ++ lpstr (s_ext r)
    ++ bytes_of_u32 (s_start r) ++ bytes_of_u32 (s_end r)
    ++ lpstr (s_text r)
    ++ bytes_of_u32 (Z.of_nat (length (s_emb r))) ++ bytes_of_f32s (s_emb r).

Definition encode_file (rs : list Source) : list byte :=
  bytes_of_u32 (Z.of_nat (length rs)) ++ (rs ≫= encode_record).

Definition len (s : list byte) : Z := Z.of_nat (length s).

Definition record_size (r : Source) : Z :=
  4 + len (s_id r) + 4 + len (s_parent r) + 4 + len (s_file r) + 4 + len (s_ext r)
    + 4 + 4 + 4 + len (s_text r) + 4 + 4 * Z.of_nat (length (s_emb r)).

(** Where the fields of a record that starts at offset [p] lie. *)
Definition chunk_of (p : Z) (r : Source) : Chunk :=
  let c_id := p + 4 in
  let c_parent := c_id + len (s_id r) + 4 in
  let c_file := c_parent + len (s_parent r) + 4 in
  let c_ext := c_file + len (s_file r) + 4 in
  let c_text := c_ext + len (s_ext r) + 4 + 4 + 4 in
  let c_emb := c_text + len (s_text r) + 4 in
  {| id := c_id; parent := c_parent; file := c_file; ext := c_ext; text := c_text;
     start_ln := s_start r; end_ln := s_end r;
     dim := Z.of_nat (length (s_emb r)); emb := c_emb |}.

Fixpoint layout (p : Z) (rs : list Source) : list Chunk :=
  match rs with
  | [] => []
  | r :: rs' => chunk_of p r :: layout (p + record_size r) rs'
  end.

(** The numbers of a record fit their 32-bit fields. *)
Record wf_source (r : Source) : Prop := {
  wf_id : len (s_id r) < 2 ^ 32;
  wf_parent : len (s_parent r) < 2 ^ 32;
  wf_file : len (s_file r) < 2 ^ 32;
  wf_ext : len (s_ext r) < 2 ^ 32;
  wf_text : len (s_text r) < 2 ^ 32;
  wf_start : 0 <= s_start r < 2 ^ 32;
  wf_end : 0 <= s_end r < 2 ^ 32;
  wf_emb_len : Z.of_nat (length (s_emb r)) + 4 < 2 ^ 32
}.

(** Two records that differ at most in the values of their embeddings. *)
Definition same_fields (r r' : Source) : Prop :=
  s_id r = s_id r' /\ s_parent r = s_parent r' /\ s_file r = s_file r' /\
  s_ext r = s_ext r' /\ s_start r = s_start r' /\ s_end r = s_end r' /\
  s_text r = s_text r' /\ length (s_emb r) = length (s_emb r').

Definition records_size (rs : list Source) : Z :=
  foldr (fun r acc => record_size r + acc) 0 rs.

(** The invariant of the loop of [ci_load] on the file of [rs], before
    record [i]: the records read so far have kept everything but the
    values of their embeddings, and the table holds their layout. *)
Definition load_inv (rs : list Source) (i : Z) (st : list byte * Z * list Chunk)
  : Prop :=
  0 <= i <= Z.of_nat (length rs) /\
  exists seen,
    Forall2 same_fields (take (Z.to_nat i) rs) seen /\
    st = (bytes_of_u32 (Z.of_nat (length rs)) ++ (seen ≫= encode_record)
            ++ (drop (Z.to_nat i) rs ≫= encode_record),
          4 + records_size (take (Z.to_nat i) rs),
          layout 4 (take (Z.to_nat i) rs)).

(** The index a file gives when normalisation leaves its embeddings as
    they are. *)
Definition index_of (rs : list Source) : ChunkIndex :=
  {| arena := encode_file rs; N := Z.of_nat (length rs); chunks := layout 4 rs |}.

End Chunks.

(** ** Reference definitions used in the statements *)

(** Running a loop body over an explicit list of counter values. *)
Fixpoint iterate {S : Type} (body : Z -> S -> outcome S) (idxs : list Z) (s : S)
  : outcome S :=
  match idxs with
  | [] => Done s
  | i :: rest => s' ← body i s; iterate body rest s'
  end.

(** What the dot-product kernel computes, on the list of operand pairs:
    whole blocks of four go through the vector accumulator ... *)
Fixpoint mac_blocks (acc : Neon.float32x4_t) (xy : list (float32 * float32))
  : Neon.float32x4_t * list (float32 * float32) :=
  match xy with
  | (x0, y0) :: (x1, y1) :: (x2, y2) :: (x3, y3) :: rest =>
      mac_blocks (Neon.vmlaq_f32 acc (Neon.F32x4 x0 x1 x2 x3) (Neon.F32x4 y0 y1 y2 y3)) rest
  | _ => (acc, xy)
  end.

(** ... and the remaining pairs are added one by one, in single precision. *)
Definition mac_tail (sum : float32) (xy : list (float32 * float32)) : float32 :=
  foldl (fun s p => F32.add s (F32.mul (fst p) (snd p))) sum xy.

Definition dot_single (xy : list (float32 * float32)) : float32 :=
  let '(acc, rest) := mac_blocks (Neon.vmovq_n_f32 F32.zero) xy in
  mac_tail (Neon.vaddvq_f32 acc) rest.

(** The dot product as section 4.2 of the specification words it: the
    aligned portion is accumulated in single precision and reduced, the
    reduced sum is widened to double, and the scalar tail is computed and
    added in double precision. *)
Definition dotProduct_spec (xy : list (float32 * float32)) : float64 :=
  let '(acc, rest) := mac_blocks (Neon.vmovq_n_f32 F32.zero) xy in
  foldl (fun s p => F64.add s (F64.mul (f32_to_f64 (fst p)) (f32_to_f64 (snd p))))
        (f32_to_f64 (Neon.vaddvq_f32 acc)) rest.

(** [rest] lists the operand pairs stored in [x] and [y] from index [i] on. *)
Definition covers (x y : list float32) (i : Z) (rest : list (float32 * float32)) : Prop :=
  forall (j : nat) a b, rest !! j = Some (a, b) ->
    x !! (Z.to_nat i + j)%nat = Some a /\ y !! (Z.to_nat i + j)%nat = Some b.

(** The factor [norm_neon] scales by, as a function of the sum of squares
    (lane 0 of the vector computation). *)
Definition inv_norm (table : float32 -> float32) (sum : float32) : float32 :=
  let y := Neon.frsqrte table sum in
  let y := F32.mul y (Neon.frsqrts (F32.mul sum (F32.mul y y)) y) in
  let y := F32.mul y (Neon.frsqrts (F32.mul sum (F32.mul y y)) y) in
  y.

(** The array [v] after its first [j] elements went through [f]. *)
Definition scaled (v : list float32) (f : float32 -> float32) (j : Z) : list float32 :=
  (f <$> take (Z.to_nat j) v) ++ drop (Z.to_nat j) v.

(** The first [n] operand pairs of two arrays. *)
Definition operands (x y : list float32) (size : Z) : list (float32 * float32) :=
  zip (take (Z.to_nat size) x) (take (Z.to_nat size) y).

(** ** Concrete inputs *)

Module Inputs.
Import Chunks.

Definition neg_one : float32 := S754_finite true 8388608 (-23).
Definition two_pow_m30 : float32 := S754_finite false 8388608 (-53).

Definition d_zero : float64 := S754_zero false.
Definition d_one : float64 := S754_finite false 4503599627370496 (-52).
Definition d_neg_one : float64 := S754_finite true 4503599627370496 (-52).

Definition source (name : list byte) (e : list float32) : Source :=
  {| s_id := name; s_parent := []; s_file := [Byte.x61; Byte.x2e; Byte.x63];
     s_ext := [Byte.x63]; s_start := 3; s_end := 7;
     s_text := [Byte.x68; Byte.x69]; s_emb := e |}.

(** The scenario of section 8 of the specification: three records of
    dimensions 4, 4 and 2, and the query [1, 0, 0, 0]. *)
Definition demo_records : list Source :=
  [ source [Byte.x30] [F32.one; F32.zero; F32.zero; F32.zero];
    source [Byte.x31] [F32.zero; F32.one; F32.zero; F32.zero];
    source [Byte.x32] [F32.one; F32.zero] ].
Definition demo_index : ChunkIndex := index_of demo_records.
Definition demo_query : list float32 := [F32.one; F32.zero; F32.zero; F32.zero].

(** Five unit vectors of dimension 2 whose scores against [1, 0] are
    0, 1, 0, -1, 0. *)
Definition five_records : list Source :=
  [ source [Byte.x30] [F32.zero; F32.one];
    source [Byte.x31] [F32.one; F32.zero];
    source [Byte.x32] [F32.zero; F32.one];
    source [Byte.x33] [neg_one; F32.zero];
    source [Byte.x34] [F32.zero; F32.one] ].
Definition five_index : ChunkIndex := index_of five_records.
Definition five_query : list float32 := [F32.one; F32.zero].

(** A file that announces one record whose identifier is 16 bytes long
    and ends after two of them. *)
Definition truncated_file : list byte :=
  [Byte.x01; Byte.x00; Byte.x00; Byte.x00;
   Byte.x10; Byte.x00; Byte.x00; Byte.x00; Byte.x61; Byte.x62].

(** A full-state selector for [K = 2] holding the scores 0 and 1. *)
Definition full_state : search_state :=
  {| heap := [ {| score := d_zero; idx := 0 |}; {| score := d_one; idx := 1 |} ];
     sz := 2; beyond := zero_pair; stray := false |}.
End Inputs.

(** ** Relations and predicates used in the further properties *)

(** Two runs that end the same way, in related results. *)
Definition outcome_rel {A B : Type} (R : A -> B -> Prop) (a : outcome A) (b : outcome B)
  : Prop :=
  match a, b with
  | Done a, Done b => R a b
  | OutOfBounds, OutOfBounds => True
  | OutOfFuel, OutOfFuel => True
  | _, _ => False
  end.

(** A table entry whose pointers are in field order and whose embedding
    lies inside a buffer of [size] bytes.  Each string lies between its
    pointer and the length prefix of the field that follows. *)
Definition chunk_in_bounds (size : Z) (c : Chunks.Chunk) : Prop :=
  8 <= Chunks.id c /\ Chunks.id c + 4 <= Chunks.parent c /\
  Chunks.parent c + 4 <= Chunks.file c /\ Chunks.file c + 4 <= Chunks.ext c /\
  Chunks.ext c + 12 <= Chunks.text c /\ Chunks.text c + 4 <= Chunks.emb c /\
  0 <= Chunks.dim c < 2 ^ 32 /\ Chunks.emb c + 4 * Chunks.dim c <= size.

(** A table whose records follow one another in a buffer of [size] bytes:
    the first starts at offset [p] and each one starts where the embedding
    of the one before ends. *)
Fixpoint consecutive (size p : Z) (cs : list Chunks.Chunk) : Prop :=
  match cs with
  | [] => True
  | c :: cs' =>
      Chunks.id c = p + 4 /\ chunk_in_bounds size c /\
      consecutive size (Chunks.emb c + 4 * Chunks.dim c) cs'
  end.

(** Where the last record of such a table ends. *)
Definition records_end (p : Z) (cs : list Chunks.Chunk) : Z :=
  foldl (fun _ c => Chunks.emb c + 4 * Chunks.dim c) p cs.

Section TrailingBytes.
Import Chunks.

(** The invariant of the loop of [ci_load] on the file of [rs] followed by
    the bytes [tail], before record [i]. *)
Definition load_inv_tail (tail : list byte) (rs : list Source) (i : Z)
    (st : list byte * Z * list Chunk) : Prop :=
  0 <= i <= Z.of_nat (length rs) /\
  exists seen,
    Forall2 same_fields (take (Z.to_nat i) rs) seen /\
    st = (bytes_of_u32 (Z.of_nat (length rs)) ++ (seen ≫= encode_record)
            ++ (drop (Z.to_nat i) rs ≫= encode_record) ++ tail,
          4 + records_size (take (Z.to_nat i) rs),
          layout 4 (take (Z.to_nat i) rs)).
End TrailingBytes.

Section FurtherSearch.
Import Chunks.

(** The score the scan computes for record [i]. *)
Definition score_at (ci : ChunkIndex) (q : list float32) (dim : Z) (i : Z)
  : outcome float64 :=
  c ← chunk_at ci i;
  CosineNeon.f32_dot_product_neon q (emb_floats ci c) dim.

(** A heap entry that holds the score of the record it names. *)
Definition scored (ci : ChunkIndex) (q : list float32) (dim : Z) (p : Pair) : Prop :=
  score_at ci q dim (idx p) = Done (score p).
End FurtherSearch.

Section HeapOrder.
Import Chunks.

(** Among the first [K] entries of [h], entry [i] is not above either of
    its children (the test is the one [sift_down] uses). *)
Definition heap_ok_at (h : list Pair) (K i : Z) : Prop :=
  forall c pi pc, (c = 2 * i + 1 \/ c = 2 * i + 2) -> c < K ->
    h !! Z.to_nat i = Some pi -> h !! Z.to_nat c = Some pc ->
    F64.ltb (score pc) (score pi) = false.

(** The first [K] entries are a binary min-heap ... *)
Definition is_min_heap (h : list Pair) (K : Z) : Prop :=
  forall i, 0 <= i -> heap_ok_at h K i.

(** ... or are one but for the root. *)
Definition heap_below_root (h : list Pair) (K : Z) : Prop :=
  forall i, 1 <= i -> heap_ok_at h K i.

Definition nan_free (h : list Pair) : Prop :=
  Forall (fun p => score p <> S754_nan) h.
End HeapOrder.

Section TopK.
Import Chunks.

End TopK.

(** A vector with a NaN lane, and an operand pair with a NaN component. *)
Definition nan_lane (a : Neon.float32x4_t) : Prop :=
  Neon.l0 a = S754_nan \/ Neon.l1 a = S754_nan \/
  Neon.l2 a = S754_nan \/ Neon.l3 a = S754_nan.

Definition nan_pair (p : float32 * float32) : Prop :=
  p.1 = S754_nan \/ p.2 = S754_nan.

Section Normalised.
Import Chunks.

(** A value that a binary32 bit pattern denotes. *)
Definition is_binary32 (x : float32) : Prop :=
  0 <= bits_of_f32 x < 2 ^ 32 /\ f32_of_bits (bits_of_f32 x) = x.

(** An embedding after [norm_neon]: every element multiplied by the
    factor computed from the sum of squares. *)
Definition normalised (table : float32 -> float32) (fs : list float32)
  : list float32 :=
  (fun x => F32.mul x
     (inv_norm table (dot_single (operands fs fs (Z.of_nat (length fs)))))) <$> fs.

Definition normalise_source (table : float32 -> float32) (r : Source) : Source :=
  {| s_id := s_id r; s_parent := s_parent r; s_file := s_file r; s_ext := s_ext r;
     s_start := s_start r; s_end := s_end r; s_text := s_text r;
     s_emb := normalised table (s_emb r) |}.

(** The invariant of the loop of [ci_load] on the file of [rs] followed
    by the bytes [tail], with the records read so far normalised. *)
Definition load_inv_exact (table : float32 -> float32) (tail : list byte)
    (rs : list Source) (i : Z) (st : list byte * Z * list Chunk) : Prop :=
  0 <= i <= Z.of_nat (length rs) /\
  st = (bytes_of_u32 (Z.of_nat (length rs))
          ++ ((normalise_source table <$> take (Z.to_nat i) rs) ≫= encode_record)
          ++ (drop (Z.to_nat i) rs ≫= encode_record) ++ tail,
        4 + records_size (take (Z.to_nat i) rs),
        layout 4 (take (Z.to_nat i) rs)).
End Normalised.

(** ** Reference definitions for the AVX kernels *)

Section AvxReference.
Import Avx.

(** The first four, eight and sixteen operand pairs of a list, as
    vectors, and the pairs that follow. *)
Definition take4 (xy : list (float32 * float32))
  : option (m128 * m128 * list (float32 * float32)) :=
  match xy with
  | (x0, y0) :: (x1, y1) :: (x2, y2) :: (x3, y3) :: rest =>
      Some (M128 x0 x1 x2 x3, M128 y0 y1 y2 y3, rest)
  | _ => None
  end.

Definition take8 (xy : list (float32 * float32))
  : option (m256 * m256 * list (float32 * float32)) :=
  match take4 xy with
  | Some (xl, yl, r) =>
      match take4 r with
      | Some (xh, yh, r) => Some ((xl, xh), (yl, yh), r)
      | None => None
      end
  | None => None
  end.

Definition take16 (xy : list (float32 * float32))
  : option (m512 * m512 * list (float32 * float32)) :=
  match take8 xy with
  | Some (xl, yl, r) =>
      match take8 r with
      | Some (xh, yh, r) => Some ((xl, xh), (yl, yh), r)
      | None => None
      end
  | None => None
  end.

(** Whole blocks go through the vector accumulator with a fused
    multiply-add; [n] bounds the number of blocks. *)
Fixpoint fma_blocks {V : Type}
    (takeW : list (float32 * float32) -> option (V * V * list (float32 * float32)))
    (fmaddW : V -> V -> V -> V) (n : nat) (acc : V) (xy : list (float32 * float32))
  : V * list (float32 * float32) :=
  match n with
  | O => (acc, xy)
  | S n' =>
      match takeW xy with
      | Some (vx, vy, rest) => fma_blocks takeW fmaddW n' (fmaddW vx vy acc) rest
      | None => (acc, xy)
      end
  end.

(** The single-precision sums of the AVX2 and AVX-512 kernels: blocks of
    eight (sixteen) pairs, the horizontal sum, then the remaining pairs
    one by one. *)
Definition dot_single_avx2 (xy : list (float32 * float32)) : float32 :=
  let '(acc, rest) :=
    fma_blocks take8 _mm256_fmadd_ps (length xy) _mm256_setzero_ps xy in
  mac_tail (CosineSimdAvx2.hsum256_ps acc) rest.

Definition dot_single_avx512 (xy : list (float32 * float32)) : float32 :=
  let '(acc, rest) :=
    fma_blocks take16 _mm512_fmadd_ps (length xy) _mm512_setzero_ps xy in
  mac_tail (CosineSimdAvx512.hsum512_ps acc) rest.

(** One refinement step of the AVX [norm_simd], in one lane:
    [y * ((3 - s * (y * y * 0.5)) * 0.5)]. *)
Definition avx_refine (s y : float32) : float32 :=
  F32.mul y (F32.mul (sub three_f (F32.mul s (F32.mul (F32.mul y y) half_f))) half_f).

(** The factor the AVX [norm_simd] scales by, from the sum of squares. *)
Definition avx_inv_norm (table : float32 -> float32) (sum : float32) : float32 :=
  avx_refine sum (avx_refine sum (rsqrt table sum)).
End AvxReference.

Section AvxBlocks.
Import Avx.

(** Element [i] of an array, and the vectors that start at element [i]. *)
Definition elt (v : list float32) (i : Z) : float32 :=
  default F32.zero (v !! Z.to_nat i).

Definition vec4 (v : list float32) (i : Z) : m128 :=
  M128 (elt v i) (elt v (i + 1)) (elt v (i + 2)) (elt v (i + 3)).

Definition vec8 (v : list float32) (i : Z) : m256 := (vec4 v i, vec4 v (i + 4)).

Definition vec16 (v : list float32) (i : Z) : m512 := (vec8 v i, vec8 v (i + 8)).

Definition map1_256 (f : float32 -> float32) (a : m256) : m256 :=
  (map1_128 f a.1, map1_128 f a.2).

Definition map1_512 (f : float32 -> float32) (a : m512) : m512 :=
  (map1_256 f a.1, map1_256 f a.2).
End AvxBlocks.

(** A binary32 value within [1.5 * 2^-12] of 1, the accuracy stated for
    [rsqrtps]: [1 - m * 2^-24] for [1 <= m <= 6144], or [1 + m * 2^-23]
    for [0 <= m <= 3072]. *)
Definition near_one (y : float32) : Prop :=
  exists m : Z,
    (1 <= m <= 6144 /\ y = S754_finite false (Z.to_pos (2 ^ 24 - m)) (-24)) \/
    (0 <= m <= 3072 /\ y = S754_finite false (Z.to_pos (2 ^ 23 + m)) (-23)).

(** ** More concrete inputs *)

Module MoreInputs.
Import Chunks Inputs.

(** 2^-100, whose square is below the smallest binary32 number. *)
Definition two_pow_m100 : float32 := S754_finite false 8388608 (-123).

(** 511/512, the estimate [frsqrte] gives for 1. *)
Definition estimate_of_one : float32 := S754_finite false 16744448 (-24).

(** 1.386 and 1.3875 *)
Definition stretch_lo : float32 := S754_finite false 11626610 (-23).
Definition stretch_hi : float32 := S754_finite false 11638670 (-23).

(** Three records of dimension 2, the first with a NaN in its
    embedding. *)
Definition nan_records : list Source :=
  [ source [Byte.x30] [S754_nan; F32.zero];
    source [Byte.x31] [F32.one; F32.zero];
    source [Byte.x32] [F32.zero; F32.one] ].
Definition nan_index : ChunkIndex := index_of nan_records.

Definition pair_of (s : float64) (i : Z) : Pair := {| score := s; idx := i |}.
End MoreInputs.
(** * Proofs *)

(** ** Loops *)

Ltac osimpl := unfold mbind, mret, fmap, outcome_bind, outcome_ret, outcome_fmap in *.

Lemma wrap32_small z : 0 <= z < 2 ^ 32 -> wrap32 z = z.
Proof. intros. unfold wrap32. apply Z.mod_small. lia. Qed.

Lemma wrap64_small z : 0 <= z < 2 ^ 64 -> wrap64 z = z.
Proof. intros. unfold wrap64. apply Z.mod_small. lia. Qed.

(** A counting loop [for (i = i0; i < n; i++)] runs its body on
    [i0, ..., n - 1] in order. *)
Lemma for_loop_up {S : Type} (wrap : Z -> Z) (n : Z) (body : Z -> S -> outcome S) :
  (forall z, 0 <= z <= n -> wrap z = z) ->
  forall fuel i s, 0 <= i <= n -> (Z.to_nat (n - i) < fuel)%nat ->
  for_loop fuel (fun i => i <? n) (fun i => wrap (i + 1)) body i s
  = (s' ← iterate body (seqZ i (n - i)) s; Done (n, s')).
Proof.
  intros Hw fuel. induction fuel as [|fuel IH]; intros i s Hi Hf; [lia|].
  simpl. destruct (Z.ltb_spec i n) as [Hlt|Hge].
  - rewrite (seqZ_cons i (n - i)) by lia. simpl.
    osimpl. destruct (body i s) as [s'| |]; try reflexivity.
    rewrite Hw by lia. rewrite IH by lia.
    replace (Z.pred (n - i)) with (n - Z.succ i) by lia.
    replace (i + 1) with (Z.succ i) by lia. reflexivity.
  - assert (i = n) by lia. subst i. rewrite Z.sub_diag. reflexivity.
Qed.

Lemma iterate_app {S : Type} (body : Z -> S -> outcome S) l1 l2 s :
  iterate body (l1 ++ l2) s = (s' ← iterate body l1 s; iterate body l2 s').
Proof.
  revert s. induction l1 as [|i l1 IH]; intros s; simpl; [reflexivity|].
  osimpl. destruct (body i s); auto.
Qed.

(** ** The dot-product kernel in closed form *)

Section DotKernel.
Import Neon.
Variables (x y : list float32) (size : Z) (wrap : Z -> Z).
Hypothesis wrap_id : forall z, 0 <= z <= size + 4 -> wrap z = z.

Lemma covers_load i rest (j : nat) a b :
  0 <= i -> covers x y i rest -> rest !! j = Some (a, b) ->
  load_f32 x (i + Z.of_nat j) = Done a /\ load_f32 y (i + Z.of_nat j) = Done b.
Proof.
  intros Hi Hc Hj. destruct (Hc j a b Hj) as [Hx Hy].
  unfold load_f32. replace (Z.to_nat (i + Z.of_nat j)) with (Z.to_nat i + j)%nat by lia.
  rewrite Hx, Hy. auto.
Qed.

Lemma covers_drop i rest (k : nat) :
  0 <= i -> covers x y i rest -> covers x y (i + Z.of_nat k) (drop k rest).
Proof.
  intros Hi Hc j a b Hj. rewrite lookup_drop in Hj.
  destruct (Hc _ _ _ Hj) as [Hx Hy].
  replace (Z.to_nat (i + Z.of_nat k) + j)%nat with (Z.to_nat i + (k + j))%nat by lia.
  auto.
Qed.

Lemma dot_main_loop fuel : forall rest i acc,
  0 <= i -> i + Z.of_nat (length rest) = size -> covers x y i rest ->
  (length rest < fuel)%nat ->
  for_loop fuel
    (fun i => wrap (i + 4) <=? size) (fun i => wrap (i + 4))
    (fun i sum_v =>
       vx ← vld1q_f32 x i;
       vy ← vld1q_f32 y i;
       Done (vmlaq_f32 sum_v vx vy))
    i acc
  = Done (size - Z.of_nat (length (mac_blocks acc rest).2), (mac_blocks acc rest).1)
  /\ covers x y (size - Z.of_nat (length (mac_blocks acc rest).2)) (mac_blocks acc rest).2.
Proof.
  induction fuel as [|fuel IH]; intros rest i acc Hi Hlen Hc Hf; [lia|].
  simpl for_loop. rewrite wrap_id by lia.
  destruct rest as [|[x0 y0] [|[x1 y1] [|[x2 y2] [|[x3 y3] rest]]]];
    simpl in Hlen;
    try (destruct (Z.leb_spec (i + 4) size); [lia|];
         simpl; split; [f_equal; f_equal; lia|];
         match goal with |- covers _ _ ?a _ => replace a with i by lia end; exact Hc).
  destruct (Z.leb_spec (i + 4) size); [|lia].
  destruct (covers_load i _ 0 _ _ Hi Hc eq_refl) as [Hx0 Hy0].
  destruct (covers_load i _ 1 _ _ Hi Hc eq_refl) as [Hx1 Hy1].
  destruct (covers_load i _ 2 _ _ Hi Hc eq_refl) as [Hx2 Hy2].
  destruct (covers_load i _ 3 _ _ Hi Hc eq_refl) as [Hx3 Hy3].
  rewrite Z.add_0_r in Hx0, Hy0.
  change (Z.of_nat 1) with 1 in *. change (Z.of_nat 2) with 2 in *.
  change (Z.of_nat 3) with 3 in *.
  unfold vld1q_f32. osimpl.
  rewrite Hx0, Hx1, Hx2, Hx3, Hy0, Hy1, Hy2, Hy3.
  change (mac_blocks acc ((x0, y0) :: (x1, y1) :: (x2, y2) :: (x3, y3) :: rest))
    with (mac_blocks (vmlaq_f32 acc (F32x4 x0 x1 x2 x3) (F32x4 y0 y1 y2 y3)) rest).
  apply IH; simpl in *; try lia.
  apply (covers_drop i _ 4 Hi Hc).
Qed.

Lemma dot_tail_loop : forall rest fuel i sum,
  0 <= i -> i + Z.of_nat (length rest) = size -> covers x y i rest ->
  (length rest < fuel)%nat ->
  for_loop fuel
    (fun i => i <? size) (fun i => wrap (i + 1))
    (fun i sum =>
       xi ← load_f32 x i;
       yi ← load_f32 y i;
       Done (F32.add sum (F32.mul xi yi)))
    i sum
  = Done (size, mac_tail sum rest).
Proof.
  induction rest as [|[a b] rest IH]; intros fuel i sum Hi Hlen Hc Hf;
    (destruct fuel as [|fuel]; [lia|]); simpl in Hlen; simpl for_loop.
  - destruct (Z.ltb_spec i size); [lia|]. simpl. f_equal. f_equal. lia.
  - destruct (Z.ltb_spec i size); [|lia].
    destruct (covers_load i _ 0 _ _ Hi Hc eq_refl) as [Hx0 Hy0].
    rewrite Z.add_0_r in Hx0, Hy0. osimpl. rewrite Hx0, Hy0.
    rewrite wrap_id by lia.
    rewrite IH; simpl in *; try lia; [reflexivity|].
    apply (covers_drop i _ 1 Hi Hc).
Qed.
End DotKernel.

Import Neon.

Lemma mac_blocks_length acc xy : (length (mac_blocks acc xy).2 <= length xy)%nat.
Proof.
  remember (length xy) as n eqn:Hn. revert acc xy Hn.
  induction n as [n IH] using lt_wf_ind. intros acc xy Hn.
  destruct xy as [|[x0 y0] [|[x1 y1] [|[x2 y2] [|[x3 y3] rest]]]]; simpl in *; try lia.
  specialize (IH (length rest) ltac:(lia) (vmlaq_f32 acc (F32x4 x0 x1 x2 x3) (F32x4 y0 y1 y2 y3)) rest eq_refl).
  simpl in IH. lia.
Qed.

Lemma covers_operands x y size :
  0 <= size -> covers x y 0 (operands x y size).
Proof.
  intros Hs j a b Hj. unfold operands in Hj.
  apply lookup_zip_with_Some in Hj as (a' & b' & Heq & Ha & Hb).
  inversion Heq; subst a' b'.
  apply lookup_take_Some in Ha as [Ha _]. apply lookup_take_Some in Hb as [Hb _].
  simpl. auto.
Qed.

Lemma operands_length x y size :
  0 <= size -> size <= Z.of_nat (length x) -> size <= Z.of_nat (length y) ->
  Z.of_nat (length (operands x y size)) = size.
Proof.
  intros. unfold operands. rewrite length_zip_with, !length_take. lia.
Qed.

(** The three loops of the kernel compute [dot_single] and widen it once. *)
Lemma dot_kernel_closed_form x y size :
  0 <= size -> size + 4 < 2 ^ 64 ->
  size <= Z.of_nat (length x) -> size <= Z.of_nat (length y) ->
  CosineNeon.f32_dot_product_neon x y size
  = Done (f32_to_f64 (dot_single (operands x y size))).
Proof.
  intros H0 Hb Hx Hy. unfold CosineNeon.f32_dot_product_neon.
  pose proof (operands_length x y size H0 Hx Hy) as Hlen.
  assert (Hw : forall z, 0 <= z <= size + 4 -> wrap64 z = z)
    by (intros; apply wrap64_small; lia).
  destruct (dot_main_loop x y size wrap64 Hw (S (Z.to_nat size)) (operands x y size) 0
              (vmovq_n_f32 F32.zero)) as [Hmain Hcov];
    [lia | lia | apply covers_operands; lia | lia |].
  pose proof (mac_blocks_length (vmovq_n_f32 F32.zero) (operands x y size)) as Hle.
  unfold dot_single.
  destruct (mac_blocks (vmovq_n_f32 F32.zero) (operands x y size)) as [acc rest].
  cbn [fst snd] in *. rewrite Hmain.
  unfold mbind at 1, outcome_bind at 1. cbv beta match.
  rewrite (dot_tail_loop x y size wrap64 Hw rest); [reflexivity|lia|lia|assumption|lia].
Qed.

(** ** Loop invariants *)

(** Total correctness of a loop from an invariant and a measure. *)
Lemma for_loop_inv {S : Type} (Inv : Z -> S -> Prop) (measure : Z -> nat)
    (cond : Z -> bool) (next : Z -> Z) (body : Z -> S -> outcome S) :
  (forall i s, Inv i s -> cond i = true ->
     exists s', body i s = Done s' /\ Inv (next i) s'
                /\ (measure (next i) < measure i)%nat) ->
  forall fuel i s, Inv i s -> (measure i < fuel)%nat ->
  exists i' s', for_loop fuel cond next body i s = Done (i', s')
                /\ Inv i' s' /\ cond i' = false.
Proof.
  intros Hstep fuel. induction fuel as [|fuel IH]; intros i s HI Hm; [lia|].
  simpl. destruct (cond i) eqn:Hc.
  - destruct (Hstep i s HI Hc) as (s' & Hb & HI' & Hlt).
    rewrite Hb. osimpl. apply IH; [assumption|lia].
  - eauto.
Qed.

(** ** The heap *)

Import Chunks.

Lemma heap_at_lookup h j p :
  0 <= j -> h !! Z.to_nat j = Some p -> heap_at h j = Done p.
Proof.
  intros Hj Hl. unfold heap_at. destruct (Z.ltb_spec j 0); [lia|]. by rewrite Hl.
Qed.

Lemma heap_set_lookup h j p :
  0 <= j -> (Z.to_nat j < length h)%nat ->
  heap_set h j p = Done (<[Z.to_nat j := p]> h).
Proof.
  intros Hj Hl. unfold heap_set. destruct (Z.ltb_spec j 0); [lia|].
  destruct (decide _); [reflexivity|contradiction].
Qed.

Lemma heap_lookup_lt (h : list Pair) j :
  0 <= j < Z.of_nat (length h) -> exists p, h !! Z.to_nat j = Some p.
Proof.
  intros Hj. apply lookup_lt_is_Some_2. lia.
Qed.

(** [sift_down] terminates inside the array and only permutes it. *)
Lemma sift_loop_perm fuel : forall h K i,
  K <= Z.of_nat (length h) -> 0 <= i -> (Z.to_nat (K - i) < fuel)%nat ->
  exists h', sift_loop fuel h K i = Done h' /\ h' ≡ₚ h.
Proof.
  induction fuel as [|fuel IH]; intros h K i HK Hi Hf; [lia|].
  simpl. destruct (Z.geb_spec (2 * i + 1) K) as [|Hc]; [eauto|].
  destruct (heap_lookup_lt h i ltac:(lia)) as [hi Hhi].
  assert (exists c, (c = 2 * i + 1 \/ c = 2 * i + 2) /\ c < K /\
            (if 2 * i + 1 + 1 <? K
             then r ← heap_at h (2 * i + 1 + 1);
                  l ← heap_at h (2 * i + 1);
                  Done (if F64.ltb (score r) (score l) then 2 * i + 1 + 1 else 2 * i + 1)
             else Done (2 * i + 1)) = Done c) as (c & Hcv & HcK & ->).
  { destruct (Z.ltb_spec (2 * i + 1 + 1) K).
    - destruct (heap_lookup_lt h (2 * i + 1 + 1) ltac:(lia)) as [r Hr].
      destruct (heap_lookup_lt h (2 * i + 1) ltac:(lia)) as [l Hl].
      rewrite (heap_at_lookup h (2 * i + 1 + 1) r ltac:(lia) Hr),
        (heap_at_lookup h (2 * i + 1) l ltac:(lia) Hl).
      osimpl. destruct (F64.ltb _ _);
        [exists (2 * i + 1 + 1) | exists (2 * i + 1)];
        (split; [|split]); first [reflexivity | lia].
    - exists (2 * i + 1). (split; [|split]); first [reflexivity | lia]. }
  destruct (heap_lookup_lt h c ltac:(lia)) as [hc Hhc].
  osimpl.
  rewrite (heap_at_lookup h c hc ltac:(lia) Hhc), (heap_at_lookup h i hi ltac:(lia) Hhi).
  destruct (F64.ltb (score hc) (score hi)); [|eauto].
  rewrite heap_set_lookup by lia.
  rewrite heap_set_lookup by (rewrite ?length_insert; lia).
  destruct (IH (<[Z.to_nat c := hi]> (<[Z.to_nat i := hc]> h)) K c) as (h' & Hs & Hp);
    [rewrite !length_insert; lia | lia | lia |].
  exists h'. split; [assumption|].
  rewrite Hp. by apply Permutation_insert_swap.
Qed.

Lemma sift_down_perm h K :
  K <= Z.of_nat (length h) -> exists h', sift_down h K = Done h' /\ h' ≡ₚ h.
Proof.
  intros HK. unfold sift_down. apply sift_loop_perm; lia.
Qed.

Lemma to_int_le K : 0 <= K -> to_int K <= K.
Proof. intros. unfold to_int. destruct (Z.ltb_spec K (2 ^ 31)); lia. Qed.

Lemma build_heap_perm h K :
  0 <= K < 2 ^ 32 -> K <= Z.of_nat (length h) ->
  exists h', build_heap h K = Done h' /\ h' ≡ₚ h.
Proof.
  intros HK Hlen. unfold build_heap.
  set (p0 := to_int (wrap32 (K - 2) / 2)).
  destruct (for_loop_inv (fun p h' => -1 <= p /\ h' ≡ₚ h)
              (fun p => Z.to_nat (p + 1))
              (fun p => 0 <=? p) (fun p => p - 1)
              (fun _ h => sift_down h (to_int K))) with
    (fuel := S (Z.to_nat (p0 + 1))) (i := p0) (s := h) as (p' & h' & Hrun & [_ Hp] & _).
  - intros p s [Hp Hs] Hc. apply Z.leb_le in Hc.
    destruct (sift_down_perm s (to_int K)) as (s' & Hsd & Hps).
    { rewrite (Permutation_length Hs). pose proof (to_int_le K). lia. }
    exists s'. repeat split; [assumption|lia|by rewrite Hps|lia].
  - split; [|reflexivity]. unfold p0, to_int, wrap32.
    pose proof (Z.mod_pos_bound (K - 2) (2 ^ 32) ltac:(lia)).
    assert (0 <= (K - 2) mod 2 ^ 32 / 2) by (apply Z.div_pos; lia).
    destruct (Z.ltb_spec ((K - 2) mod 2 ^ 32 / 2) (2 ^ 31)); [lia|].
    assert ((K - 2) mod 2 ^ 32 / 2 < 2 ^ 31) by (apply Z.div_lt_upper_bound; lia).
    lia.
  - lia.
  - rewrite Hrun. osimpl. eauto.
Qed.

(** ** One candidate offered to the selector *)

Lemma take_S_insert {A : Type} (l : list A) (n : nat) (x : A) :
  (n < length l)%nat -> take (S n) (<[n := x]> l) = take n l ++ [x].
Proof.
  intros Hn. rewrite (take_S_r _ n x) by (by apply list_lookup_insert_eq).
  by rewrite take_insert_ge by lia.
Qed.

(** The three things [heap_offer] can do: append while the heap is not
    full, leave the entries as they are, or replace the root. *)
Lemma heap_offer_spec K sc i st :
  0 <= K < 2 ^ 32 -> wf_state K st ->
  exists st', heap_offer K sc i st = Done st' /\ wf_state K st' /\
    (0 < K -> stray st' = stray st) /\ (K = 0 -> stray st' = true) /\
    ((sz st < K /\ sz st' = sz st + 1 /\
      retained st' ≡ₚ retained st ++ [{| score := sc; idx := i |}])
     \/ (sz st = K /\ sz st' = K /\ heap st' = heap st /\
         forall root, heap st !! 0%nat = Some root -> F64.ltb (score root) sc = false)
     \/ (sz st = K /\ sz st' = K /\
         exists root rest, heap st = root :: rest /\ F64.ltb (score root) sc = true /\
           retained st' ≡ₚ {| score := sc; idx := i |} :: rest)).
Proof.
  intros HK [Hlen Hsz]. unfold heap_offer.
  destruct (Z.ltb_spec (sz st) K) as [Hlt|Hge].
  - rewrite heap_set_lookup by lia. osimpl.
    rewrite wrap32_small by lia.
    set (h1 := <[Z.to_nat (sz st) := {| score := sc; idx := i |}]> (heap st)).
    assert (Hlen1 : Z.of_nat (length h1) = K) by (unfold h1; rewrite length_insert; lia).
    assert (Htake : take (Z.to_nat (sz st + 1)) h1
                    = retained st ++ [{| score := sc; idx := i |}]).
    { replace (Z.to_nat (sz st + 1)) with (S (Z.to_nat (sz st))) by lia.
      unfold h1, retained. apply take_S_insert. lia. }
    destruct (Z.eqb_spec (sz st + 1) K) as [Hfull|Hnot].
    + destruct (build_heap_perm h1 K HK ltac:(lia)) as (h' & Hb & Hp).
      rewrite Hb. eexists. split; [reflexivity|].
      pose proof (Permutation_length Hp) as Hl.
      split; [split; simpl; lia|]. split; [reflexivity|]. split; [lia|]. left.
      split; [lia|]. split; [reflexivity|].
      unfold retained at 1. simpl. rewrite <- Htake.
      rewrite !take_ge by lia. exact Hp.
    + eexists. split; [reflexivity|].
      split; [split; simpl; lia|]. split; [reflexivity|]. split; [lia|]. left.
      split; [lia|]. split; [reflexivity|]. unfold retained at 1. simpl. by rewrite Htake.
  - assert (Hfull : sz st = K) by lia.
    destruct (heap st) as [|root rest] eqn:Hh.
    + simpl in Hlen. assert (K = 0) as -> by lia.
      destruct (F64.ltb (score (beyond st)) sc).
      * destruct (sift_down_perm [] (to_int 0)) as (h' & Hs & Hp); [simpl; unfold to_int; simpl; lia|].
        rewrite Hs. osimpl. apply Permutation_nil_r in Hp. subst h'.
        eexists. split; [reflexivity|]. split; [split; simpl; lia|].
        split; [lia|]. split; [reflexivity|].
        right. left. simpl. repeat split; try lia; try done.
      * eexists. split; [reflexivity|]. split; [split; simpl; lia|].
        split; [lia|]. split; [reflexivity|].
        right. left. simpl. rewrite ?Hh. repeat split; try lia; try done.
    + destruct (F64.ltb (score root) sc) eqn:Hcmp.
      * rewrite heap_set_lookup by (simpl; lia). osimpl. simpl.
        destruct (sift_down_perm ({| score := sc; idx := i |} :: rest) (to_int K))
          as (h' & Hs & Hp).
        { pose proof (to_int_le K ltac:(lia)). simpl in *. lia. }
        rewrite Hs. eexists. split; [reflexivity|].
        pose proof (Permutation_length Hp) as Hl. simpl in Hl, Hlen.
        split; [split; simpl; lia|]. split; [reflexivity|].
        split; [simpl in Hlen; lia|]. right. right.
        split; [lia|]. split; [simpl; lia|]. exists root, rest.
        split; [reflexivity|]. split; [exact Hcmp|].
        unfold retained. simpl. rewrite take_ge by lia. exact Hp.
      * exists st. split; [reflexivity|].
        split; [split; rewrite ?Hh; lia|].
        split; [reflexivity|]. split; [simpl in Hlen; lia|]. right. left. rewrite ?Hh.
        repeat split; try lia. intros r [= <-]. exact Hcmp.
Qed.

(** ** The scan *)

Section Search.
Variables (ci : ChunkIndex) (q : list float32) (dim K : Z).
Hypothesis HK : 0 <= K < 2 ^ 32.
Hypothesis Hwf : wf_search ci q dim.

Lemma chunk_at_lookup i :
  0 <= i < N ci -> exists c, chunks ci !! Z.to_nat i = Some c /\ chunk_at ci i = Done c.
Proof.
  intros Hi. destruct (lookup_lt_is_Some_2 (chunks ci) (Z.to_nat i)) as [c Hc].
  { rewrite (wf_N _ _ _ Hwf) in Hi. lia. }
  exists c. split; [assumption|]. unfold chunk_at.
  destruct (Z.ltb_spec i 0); [lia|]. by rewrite Hc.
Qed.

Lemma score_defined c :
  c ∈ chunks ci -> eligible dim c ->
  exists sc, CosineNeon.f32_dot_product_neon q (emb_floats ci c) dim = Done sc.
Proof.
  intros Hin He. destruct Hwf as [_ _ Hd Hq Hemb].
  rewrite dot_kernel_closed_form; eauto; lia.
Qed.

Lemma search_record_inv i st :
  scan_inv ci dim K i st -> i < N ci ->
  exists st', search_record ci q dim K i st = Done st' /\ scan_inv ci dim K (i + 1) st'.
Proof.
  intros (Hi & Hst & Hsz & Hel & Hstray & Hstray0) Hlt.
  destruct (chunk_at_lookup i ltac:(lia)) as (c & Hc & Hat).
  unfold search_record. rewrite Hat. osimpl.
  assert (Htake : take (Z.to_nat (i + 1)) (chunks ci)
                  = take (Z.to_nat i) (chunks ci) ++ [c]).
  { replace (Z.to_nat (i + 1)) with (S (Z.to_nat i)) by lia. by apply take_S_r. }
  destruct (Z.eqb_spec (Chunks.dim c) dim) as [He|Hne]; simpl.
  - destruct (score_defined c) as [sc Hsc];
      [by eapply list_elem_of_lookup_2 | exact He |].
    rewrite Hsc.
    destruct (heap_offer_spec K sc i st HK Hst)
      as (st' & Hoff & Hst' & Hstr & Hstr0 & Hcases).
    exists st'. split; [assumption|].
    assert (Hnew : eligible_index ci dim i) by (split; [lia|eauto]).
    unfold scan_inv. rewrite Htake, filter_app, length_app.
    rewrite (filter_cons_True _ c) by exact He. simpl length.
    split; [lia|]. split; [assumption|].
    destruct Hcases as [(Hs1 & Hs2 & Hr)|[(Hs1 & Hs2 & Hh & _)|(Hs1 & Hs2 & root & rest & Hh & _ & Hr)]].
    + split; [lia|]. split; [|split; [intros; rewrite Hstr; auto|auto]].
      rewrite Hr. apply Forall_app. split; [assumption|]. by apply Forall_singleton.
    + split; [lia|]. split; [|split; [intros; rewrite Hstr; auto|auto]].
      unfold retained in *. by rewrite Hh, Hs2, <- Hs1.
    + split; [lia|]. split; [|split; [intros; rewrite Hstr; auto|auto]].
      rewrite Hr. apply Forall_cons. split; [assumption|].
      unfold retained in Hel. rewrite Hh in Hel.
      destruct (Z.to_nat (sz st)) eqn:Hz; [destruct Hst; simpl in *; rewrite Hh in *; simpl in *; lia|].
      simpl in Hel. apply Forall_cons in Hel as [_ Hel].
      destruct Hst as [Hlen _]. rewrite Hh in Hlen. simpl in Hlen.
      rewrite take_ge in Hel by lia. exact Hel.
  - exists st. split; [reflexivity|].
    unfold scan_inv. rewrite Htake, filter_app, length_app.
    rewrite (filter_cons_False _ c) by exact Hne. simpl length.
    split; [lia|]. split; [assumption|]. split; [lia|].
    split; [assumption|]. split; [assumption|].
    intros HK0 Hpos. rewrite Nat.add_0_r in Hpos. auto.
Qed.

Lemma scan_records_spec past_end :
  exists st, scan_records ci q dim K past_end = Done (N ci, st)
             /\ scan_inv ci dim K (N ci) st.
Proof.
  pose proof (wf_N _ _ _ Hwf) as HN. pose proof (wf_N32 _ _ _ Hwf) as HN32.
  unfold scan_records.
  destruct (for_loop_inv (scan_inv ci dim K) (fun i => Z.to_nat (N ci - i))
              (fun i => i <? N ci) (fun i => wrap32 (i + 1))
              (search_record ci q dim K))
    with (fuel := S (Z.to_nat (N ci))) (i := 0) (s := search_start K past_end)
    as (i' & st & Hrun & Hinv & Hexit).
  - intros i s Hinv Hc. apply Z.ltb_lt in Hc.
    destruct (search_record_inv i s Hinv Hc) as (s' & Hb & Hinv').
    pose proof Hinv as (Hi & _). pose proof Hinv' as (Hi' & _).
    exists s'. rewrite wrap32_small by lia. split; [assumption|split; [assumption|lia]].
  - unfold scan_inv, wf_state, retained. simpl.
    rewrite length_replicate. repeat split; try lia; auto.
  - lia.
  - apply Z.ltb_ge in Hexit. pose proof Hinv as (Hi & _).
    assert (i' = N ci) by lia. subst i'. eauto.
Qed.

Lemma copy_out_spec (h : list Pair) (n : Z) :
  0 <= n <= Z.of_nat (length h) -> n < 2 ^ 32 ->
  for_loop (S (Z.to_nat n))
    (fun j => j <? n) (fun j => wrap32 (j + 1))
    (fun j '(oi, os) =>
       hj ← heap_at h j;
       Done (oi ++ [idx hj], os ++ [score hj]))
    0 ([], [])
  = Done (n, (idx <$> take (Z.to_nat n) h, score <$> take (Z.to_nat n) h)).
Proof.
  intros Hn Hn32.
  destruct (for_loop_inv
              (fun j (o : list Z * list float64) =>
                 0 <= j <= n /\ o = (idx <$> take (Z.to_nat j) h,
                                     score <$> take (Z.to_nat j) h))
              (fun j => Z.to_nat (n - j))
              (fun j => j <? n) (fun j => wrap32 (j + 1))
              (fun j '(oi, os) =>
                 hj ← heap_at h j;
                 Done (oi ++ [idx hj], os ++ [score hj])))
    with (fuel := S (Z.to_nat n)) (i := 0) (s := ([] : list Z, [] : list float64))
    as (j' & o & Hrun & [Hj Ho] & Hexit).
  - intros j o [Hj ->] Hc. apply Z.ltb_lt in Hc.
    destruct (heap_lookup_lt h j ltac:(lia)) as [hj Hhj].
    rewrite (heap_at_lookup h j hj ltac:(lia) Hhj). osimpl.
    eexists. split; [reflexivity|]. rewrite wrap32_small by lia.
    split; [|lia]. split; [lia|].
    replace (Z.to_nat (j + 1)) with (S (Z.to_nat j)) by lia.
    rewrite (take_S_r _ _ _ Hhj), !fmap_app. reflexivity.
  - split; [lia|reflexivity].
  - lia.
  - apply Z.ltb_ge in Hexit. assert (j' = n) by lia. subst. exact Hrun.
Qed.

(** [ci_search] returns, and what it returns is the selector's content. *)
Lemma ci_search_spec past_end :
  exists st, scan_inv ci dim K (N ci) st /\
    scan_records ci q dim K past_end = Done (N ci, st) /\
    ci_search ci q dim K past_end
    = Done {| count := sz st; out_i := idx <$> retained st;
              out_s := score <$> retained st; heap_oob := stray st |}.
Proof.
  destruct (scan_records_spec past_end) as (st & Hscan & Hinv).
  exists st. split; [assumption|]. split; [assumption|].
  unfold ci_search. rewrite Hscan. osimpl.
  destruct Hinv as (_ & [Hlen Hsz] & _).
  pose proof (copy_out_spec (heap st) (sz st) ltac:(lia) ltac:(lia)) as Hcopy.
  osimpl. rewrite Hcopy. reflexivity.
Qed.
End Search.

(** ** Comparison of floating-point numbers *)

Lemma SFcompare_antisym_Lt a b :
  SFcompare a b = Some Lt -> SFcompare b a = Some Gt.
Proof.
  destruct a as [sa|sa| |sa ma ea], b as [sb|sb| |sb mb eb]; simpl;
    try discriminate; try (destruct sa; discriminate || reflexivity);
    try (destruct sb; discriminate || reflexivity);
    try (destruct sa, sb; discriminate || reflexivity).
  rewrite (Z.compare_antisym ea eb).
  replace (Pos.compare_cont Eq mb ma) with (CompOpp (Pos.compare_cont Eq ma mb))
    by apply (Pos.compare_cont_antisym ma mb Eq).
  destruct sa, sb, (ea ?= eb), (Pos.compare_cont Eq ma mb); simpl;
    discriminate || reflexivity.
Qed.

Lemma SFeqb_compare_r a b r :
  SFeqb a b = true -> SFcompare r a = SFcompare r b.
Proof.
  unfold SFeqb.
  destruct a as [sa|sa| |sa ma ea], b as [sb|sb| |sb mb eb]; simpl;
    try discriminate; try reflexivity;
    try (destruct sa; discriminate); try (destruct sb; discriminate).
  - destruct sa, sb; try discriminate; reflexivity.
  - destruct sa, sb; try discriminate;
      destruct (ea ?= eb) eqn:He; try discriminate;
      apply Z.compare_eq in He; subst eb;
      destruct (Pos.compare_cont Eq ma mb) eqn:Hm; try discriminate;
      apply Pos.compare_eq in Hm; subst mb; reflexivity.
Qed.

(** A score equal to one that is at most [r] is not above [r]. *)
Lemma tie_not_above sc m r :
  F64.eqb sc m = true -> F64.leb m r = true -> F64.ltb r sc = false.
Proof.
  unfold F64.eqb, F64.leb, F64.ltb. intros Heq Hle.
  unfold SFltb. rewrite (SFeqb_compare_r sc m r Heq).
  destruct (SFcompare r m) as [[| |]|] eqn:Hc; try reflexivity.
  apply SFcompare_antisym_Lt in Hc. unfold SFleb in Hle. rewrite Hc in Hle. discriminate.
Qed.

(** ** Skipping records of another dimension *)

Section Skip.
Variables (ci : ChunkIndex) (q : list float32) (dim K : Z).

Lemma search_record_eligible i c st :
  chunk_at ci i = Done c -> eligible dim c ->
  search_record ci q dim K i st = score_and_offer ci q dim K i st.
Proof.
  intros Hat He. unfold search_record, score_and_offer. rewrite Hat. osimpl.
  unfold eligible in He. by rewrite (proj2 (Z.eqb_eq _ _) He).
Qed.

Lemma search_record_skip i c st :
  chunk_at ci i = Done c -> ~ eligible dim c ->
  search_record ci q dim K i st = Done st.
Proof.
  intros Hat Hne. unfold search_record. rewrite Hat. osimpl.
  unfold eligible in Hne. by rewrite (proj2 (Z.eqb_neq _ _) Hne).
Qed.

Lemma iterate_eligible : forall cs i st,
  0 <= i -> drop (Z.to_nat i) (chunks ci) = cs ->
  iterate (search_record ci q dim K) (seqZ i (Z.of_nat (length cs))) st
  = iterate (score_and_offer ci q dim K) (eligible_from dim i cs) st.
Proof.
  induction cs as [|c cs IH]; intros i st Hi Hd; [reflexivity|].
  rewrite seqZ_cons by (simpl; lia). cbn [iterate eligible_from].
  assert (Hc : chunks ci !! Z.to_nat i = Some c).
  { rewrite <- (Nat.add_0_r (Z.to_nat i)), <- lookup_drop, Hd. reflexivity. }
  assert (Hat : chunk_at ci i = Done c).
  { unfold chunk_at. destruct (Z.ltb_spec i 0); [lia|]. by rewrite Hc. }
  assert (Hd' : drop (Z.to_nat (i + 1)) (chunks ci) = cs).
  { replace (Z.to_nat (i + 1)) with (Z.to_nat i + 1)%nat by lia.
    rewrite <- drop_drop, Hd. reflexivity. }
  replace (Z.pred (Z.of_nat (length (c :: cs)))) with (Z.of_nat (length cs))
    by (simpl; lia).
  replace (Z.succ i) with (i + 1) by lia.
  destruct (decide (eligible dim c)) as [He|Hne].
  - rewrite (search_record_eligible i c st Hat He). cbn [iterate].
    osimpl. destruct (score_and_offer ci q dim K i st); try reflexivity.
    apply IH; [lia|assumption].
  - rewrite (search_record_skip i c st Hat Hne). osimpl.
    apply IH; [lia|assumption].
Qed.

Lemma scan_skips past_end :
  N ci = Z.of_nat (length (chunks ci)) -> N ci < 2 ^ 32 ->
  scan_records ci q dim K past_end
  = (st ← iterate (score_and_offer ci q dim K) (eligible_indices ci dim)
            (search_start K past_end);
     Done (N ci, st)).
Proof.
  intros HN HN32. unfold scan_records.
  rewrite (for_loop_up wrap32 (N ci)); [| intros; apply wrap32_small; lia | lia | lia].
  rewrite Z.sub_0_r, HN.
  rewrite (iterate_eligible (chunks ci) 0); [reflexivity|lia|reflexivity].
Qed.
End Skip.

(** ** Loading a well-formed file *)

Lemma u8_byte_of z : u8 (byte_of z) = z mod 2 ^ 8.
Proof.
  unfold u8, byte_of.
  pose proof (Z.mod_pos_bound z (2 ^ 8) ltac:(lia)) as Hb.
  destruct (Byte.of_N (Z.to_N (z mod 2 ^ 8))) as [b|] eqn:Hof.
  - simpl. apply Byte.to_of_N in Hof. rewrite Hof. lia.
  - apply Byte.of_N_None_iff in Hof. lia.
Qed.

Lemma le32_bytes w :
  0 <= w < 2 ^ 32 ->
  le32 (w mod 2 ^ 8) ((w / 2 ^ 8) mod 2 ^ 8) ((w / 2 ^ 16) mod 2 ^ 8)
       ((w / 2 ^ 24) mod 2 ^ 8) = w.
Proof.
  intros Hw. unfold le32.
  assert ((w / 2 ^ 24) mod 2 ^ 8 = w / 2 ^ 24) as ->.
  { apply Z.mod_small. split; [apply Z.div_pos; lia|].
    apply Z.div_lt_upper_bound; lia. }
  pose proof (Z.div_mod w (2 ^ 8) ltac:(lia)).
  pose proof (Z.div_mod (w / 2 ^ 8) (2 ^ 8) ltac:(lia)).
  pose proof (Z.div_mod (w / 2 ^ 16) (2 ^ 8) ltac:(lia)).
  replace (w / 2 ^ 16) with (w / 2 ^ 8 / 2 ^ 8) in *
    by (rewrite Z.div_div by lia; reflexivity).
  replace (w / 2 ^ 24) with (w / 2 ^ 8 / 2 ^ 8 / 2 ^ 8)
    by (rewrite !Z.div_div by lia; reflexivity).
  lia.
Qed.

Lemma load_u8_mid pre mid post (k : nat) b :
  mid !! k = Some b ->
  load_u8 (pre ++ mid ++ post) (Z.of_nat (length pre) + Z.of_nat k) = Done (u8 b).
Proof.
  intros Hk. unfold load_u8.
  destruct (Z.ltb_spec (Z.of_nat (length pre) + Z.of_nat k) 0); [lia|].
  replace (Z.to_nat (Z.of_nat (length pre) + Z.of_nat k)) with (length pre + k)%nat by lia.
  rewrite lookup_app_r by lia.
  replace (length pre + k - length pre)%nat with k by lia.
  by rewrite (lookup_app_l_Some _ _ _ _ Hk).
Qed.

Lemma read_u32_at buf p pre w post :
  buf = pre ++ bytes_of_u32 w ++ post -> p = Z.of_nat (length pre) ->
  0 <= w < 2 ^ 32 -> read_u32 buf p = Done w.
Proof.
  intros -> -> Hw. unfold read_u32.
  pose proof (load_u8_mid pre (bytes_of_u32 w) post 0 _ eq_refl) as H0.
  pose proof (load_u8_mid pre (bytes_of_u32 w) post 1 _ eq_refl) as H1.
  pose proof (load_u8_mid pre (bytes_of_u32 w) post 2 _ eq_refl) as H2.
  pose proof (load_u8_mid pre (bytes_of_u32 w) post 3 _ eq_refl) as H3.
  rewrite Z.add_0_r in H0.
  change (Z.of_nat 1) with 1 in H1. change (Z.of_nat 2) with 2 in H2.
  change (Z.of_nat 3) with 3 in H3.
  rewrite H0, H1, H2, H3. osimpl.
  rewrite !u8_byte_of. by rewrite le32_bytes.
Qed.

Lemma load_f32_total (v : list float32) i :
  0 <= i < Z.of_nat (length v) -> exists a, load_f32 v i = Done a.
Proof.
  intros Hi. unfold load_f32.
  destruct (lookup_lt_is_Some_2 v (Z.to_nat i) ltac:(lia)) as [a Ha].
  rewrite Ha. eauto.
Qed.

Lemma store_f32_total (v : list float32) i a :
  0 <= i < Z.of_nat (length v) ->
  exists v', store_f32 v i a = Done v' /\ length v' = length v.
Proof.
  intros Hi. unfold store_f32. destruct (decide _); [|lia].
  eexists. split; [reflexivity|]. apply length_insert.
Qed.

Lemma vld1q_total (v : list float32) i :
  0 <= i -> i + 4 <= Z.of_nat (length v) -> exists a, vld1q_f32 v i = Done a.
Proof.
  intros H0 Hi. unfold vld1q_f32.
  destruct (load_f32_total v i ltac:(lia)) as [a ->].
  destruct (load_f32_total v (i + 1) ltac:(lia)) as [b ->].
  destruct (load_f32_total v (i + 2) ltac:(lia)) as [c ->].
  destruct (load_f32_total v (i + 3) ltac:(lia)) as [d ->].
  osimpl. eauto.
Qed.

Lemma vst1q_total (v : list float32) i x :
  0 <= i -> i + 4 <= Z.of_nat (length v) ->
  exists v', vst1q_f32 v i x = Done v' /\ length v' = length v.
Proof.
  intros H0 Hi. unfold vst1q_f32.
  destruct (store_f32_total v i (l0 x) ltac:(lia)) as (v1 & -> & L1). osimpl.
  destruct (store_f32_total v1 (i + 1) (l1 x) ltac:(lia)) as (v2 & -> & L2).
  destruct (store_f32_total v2 (i + 2) (l2 x) ltac:(lia)) as (v3 & -> & L3).
  destruct (store_f32_total v3 (i + 3) (l3 x) ltac:(lia)) as (v4 & -> & L4).
  exists v4. split; [reflexivity|lia].
Qed.

(** Find the outermost loop of the goal and run it with an invariant. *)
Ltac run_loop Inv measure :=
  match goal with
  | |- context [for_loop ?fu ?cd ?nx ?bd ?i0 ?s0] =>
      let i' := fresh "iend" in
      let s' := fresh "send" in
      let Hrun := fresh "Hrun" in
      let Hinv := fresh "Hinv" in
      let Hexit := fresh "Hexit" in
      destruct (for_loop_inv Inv measure cd nx bd) with (fuel := fu) (i := i0) (s := s0)
        as (i' & s' & Hrun & Hinv & Hexit);
      [ | | | rewrite Hrun; cbn [mbind outcome_bind] ]
  end.

(** ** [norm_neon] in closed form *)

Lemma for_loop_ext {S : Type} (cond : Z -> bool) (next : Z -> Z)
    (b1 b2 : Z -> S -> outcome S) :
  (forall i s, b1 i s = b2 i s) ->
  forall fuel i s, for_loop fuel cond next b1 i s = for_loop fuel cond next b2 i s.
Proof.
  intros Hb fuel. induction fuel as [|fuel IH]; intros i s; [reflexivity|].
  simpl. destruct (cond i); [|reflexivity]. rewrite Hb. osimpl.
  destruct (b2 i s); auto.
Qed.

Section Scale.
Variables (v : list float32) (f : float32 -> float32).
Local Abbreviation scaled := (scaled v f).

Lemma scaled_length j : length (scaled j) = length v.
Proof.
  unfold scaled. rewrite length_app, length_fmap, length_take, length_drop. lia.
Qed.

Lemma scaled_load j (k : nat) :
  0 <= j -> j + Z.of_nat k < Z.of_nat (length v) ->
  exists a, v !! (Z.to_nat j + k)%nat = Some a
            /\ load_f32 (scaled j) (j + Z.of_nat k) = Done a.
Proof.
  intros Hj Hk.
  destruct (lookup_lt_is_Some_2 v (Z.to_nat j + k) ltac:(lia)) as [a Ha].
  exists a. split; [assumption|]. unfold load_f32, scaled.
  replace (Z.to_nat (j + Z.of_nat k)) with (Z.to_nat j + k)%nat by lia.
  rewrite lookup_app_r; rewrite length_fmap, length_take; [|lia].
  replace (Z.to_nat j + k - Z.to_nat j `min` length v)%nat with k by lia.
  by rewrite lookup_drop, Ha.
Qed.

Lemma scaled_store j a :
  0 <= j -> v !! Z.to_nat j = Some a ->
  store_f32 (scaled j) j (f a) = Done (scaled (j + 1)).
Proof.
  intros Hj Ha. pose proof (lookup_lt_Some _ _ _ Ha) as Hlt.
  unfold store_f32. rewrite scaled_length. destruct (decide _); [|lia].
  f_equal. unfold scaled.
  replace (Z.to_nat (j + 1)) with (S (Z.to_nat j)) by lia.
  rewrite (take_S_r _ _ _ Ha), fmap_app, <- app_assoc. simpl.
  rewrite insert_app_r_alt; rewrite length_fmap, length_take; [|lia].
  replace (Z.to_nat j - Z.to_nat j `min` length v)%nat with 0%nat by lia.
  rewrite (drop_S _ _ _ Ha). reflexivity.
Qed.
End Scale.

Lemma scaled_block v d f j :
  d <= Z.of_nat (length v) -> 0 <= j -> j + 4 <= d ->
  (x ← vld1q_f32 (scaled v f j) j;
   vst1q_f32 (scaled v f j) j
     (F32x4 (f (l0 x)) (f (l1 x)) (f (l2 x)) (f (l3 x))))
  = Done (scaled v f (j + 4)).
Proof.
  intros Hd Hj Hj4.
  destruct (scaled_load v f j 0 Hj ltac:(lia)) as (a0 & Ha0 & L0).
  destruct (scaled_load v f j 1 Hj ltac:(lia)) as (a1 & Ha1 & L1).
  destruct (scaled_load v f j 2 Hj ltac:(lia)) as (a2 & Ha2 & L2).
  destruct (scaled_load v f j 3 Hj ltac:(lia)) as (a3 & Ha3 & L3).
  rewrite Z.add_0_r in L0. rewrite Nat.add_0_r in Ha0.
  change (Z.of_nat 1) with 1 in L1. change (Z.of_nat 2) with 2 in L2.
  change (Z.of_nat 3) with 3 in L3.
  unfold vld1q_f32, vst1q_f32. rewrite L0, L1, L2, L3.
  cbn [mbind outcome_bind l0 l1 l2 l3].
  rewrite (scaled_store v f j a0 Hj Ha0). cbn [mbind outcome_bind].
  rewrite (scaled_store v f (j + 1) a1 ltac:(lia));
    [| by replace (Z.to_nat (j + 1)) with (Z.to_nat j + 1)%nat by lia].
  cbn [mbind outcome_bind]. replace (j + 1 + 1) with (j + 2) by lia.
  rewrite (scaled_store v f (j + 2) a2 ltac:(lia));
    [| by replace (Z.to_nat (j + 2)) with (Z.to_nat j + 2)%nat by lia].
  cbn [mbind outcome_bind]. replace (j + 2 + 1) with (j + 3) by lia.
  rewrite (scaled_store v f (j + 3) a3 ltac:(lia));
    [| by replace (Z.to_nat (j + 3)) with (Z.to_nat j + 3)%nat by lia].
  by replace (j + 3 + 1) with (j + 4) by lia.
Qed.

Lemma inv_norm_lane table sum :
  vgetq_lane_f32_0
    (let s4 := vdupq_n_f32 sum in
     let y := vrsqrteq_f32 table s4 in
     let y := vmulq_f32 y (vrsqrtsq_f32 (vmulq_f32 s4 (vmulq_f32 y y)) y) in
     vmulq_f32 y (vrsqrtsq_f32 (vmulq_f32 s4 (vmulq_f32 y y)) y))
  = inv_norm table sum.
Proof. reflexivity. Qed.

(** [norm_neon] multiplies each of the first [d] elements by [inv_norm] of
    the sum of squares, computed as the dot product of [v] with itself. *)
Lemma norm_neon_closed_form table (v : list float32) d :
  0 <= d -> d + 4 < 2 ^ 32 -> d <= Z.of_nat (length v) ->
  CosineNeon.norm_neon table v d
  = Done (scaled v (fun x => F32.mul x (inv_norm table (dot_single (operands v v d)))) d).
Proof.
  intros Hd Hd32 Hlen. unfold CosineNeon.norm_neon.
  assert (Hw : forall z, 0 <= z <= d + 4 -> wrap32 z = z)
    by (intros; apply wrap32_small; lia).
  pose proof (operands_length v v d Hd Hlen Hlen) as Hol.
  destruct (dot_main_loop v v d wrap32 Hw (S (Z.to_nat d)) (operands v v d) 0
              (vmovq_n_f32 F32.zero)) as [Hmain Hcov];
    [lia | lia | apply covers_operands; lia | lia |].
  pose proof (mac_blocks_length (vmovq_n_f32 F32.zero) (operands v v d)) as Hle.
  unfold dot_single.
  destruct (mac_blocks (vmovq_n_f32 F32.zero) (operands v v d)) as [acc rest].
  cbn [fst snd] in *.
  rewrite (for_loop_ext _ _
             (fun i sum4 => x ← vld1q_f32 v i; Done (vmlaq_f32 sum4 x x))
             (fun i sum_v => vx ← vld1q_f32 v i; vy ← vld1q_f32 v i;
                             Done (vmlaq_f32 sum_v vx vy)))
    by (intros i s; osimpl; destruct (vld1q_f32 v i); reflexivity).
  rewrite Hmain. cbn [mbind outcome_bind].
  rewrite (for_loop_ext _ _
             (fun i sum => vi ← load_f32 v i; Done (F32.add sum (F32.mul vi vi)))
             (fun i sum => xi ← load_f32 v i; yi ← load_f32 v i;
                           Done (F32.add sum (F32.mul xi yi))))
    by (intros i s; osimpl; destruct (load_f32 v i); reflexivity).
  rewrite (dot_tail_loop v v d wrap32 Hw rest); [|lia|lia|assumption|lia].
  cbn [mbind outcome_bind].
  set (inv := vgetq_lane_f32_0 _).
  assert (Hinv : inv = inv_norm table (mac_tail (vaddvq_f32 acc) rest)) by reflexivity.
  set (f := fun x => F32.mul x (inv_norm table (mac_tail (vaddvq_f32 acc) rest))).
  run_loop (fun (j : Z) (w : list float32) => 0 <= j <= d /\ w = scaled v f j)
           (fun j => Z.to_nat (d - j)).
  { intros j w [Hj ->] Hc. rewrite wrap32_small in * by lia. apply Z.leb_le in Hc.
    exists (scaled v f (j + 4)). split; [|split; [split; [lia|reflexivity]|lia]].
    rewrite <- (scaled_block v d f j Hlen) by lia.
    osimpl. destruct (vld1q_f32 (scaled v f j) j); reflexivity. }
  { split; [lia|]. unfold scaled. reflexivity. }
  { lia. }
  match goal with
  | Hi : _ /\ _ = scaled v f _ |- _ => destruct Hi as [? ->]
  end.
  run_loop (fun (j : Z) (w : list float32) => 0 <= j <= d /\ w = scaled v f j)
           (fun j => Z.to_nat (d - j)).
  { intros j w [Hj ->] Hc. apply Z.ltb_lt in Hc. rewrite wrap32_small by lia.
    destruct (scaled_load v f j 0 ltac:(lia) ltac:(lia)) as (a & Ha & La).
    rewrite Z.add_0_r in La. rewrite Nat.add_0_r in Ha. rewrite La.
    cbn [mbind outcome_bind].
    change (store_f32 (scaled v f j) j (F32.mul a inv))
      with (store_f32 (scaled v f j) j (f a)).
    rewrite (scaled_store v f j a ltac:(lia) Ha).
    eexists. split; [reflexivity|]. split; [split; [lia|reflexivity]|lia]. }
  { auto. }
  { lia. }
  match goal with
  | Hi : _ /\ _ = scaled v f ?j, He : (?j <? d) = false |- _ =>
      destruct Hi as [? ->]; apply Z.ltb_ge in He; by replace j with d by lia
  end.
Qed.

(** On an array of at least [d] floats [norm_neon] stays inside the array
    and returns an array of the same length. *)
Lemma norm_neon_total table (v : list float32) d :
  0 <= d -> d + 4 < 2 ^ 32 -> d <= Z.of_nat (length v) ->
  exists v', CosineNeon.norm_neon table v d = Done v' /\ length v' = length v.
Proof.
  intros Hd Hd32 Hlen. rewrite norm_neon_closed_form by assumption.
  eexists. split; [reflexivity|]. apply scaled_length.
Qed.

Lemma inv_norm_zero table s : inv_norm table (S754_zero s) = S754_nan.
Proof. destruct s; reflexivity. Qed.

Lemma mul_nan x : F32.mul x S754_nan = S754_nan.
Proof. destruct x; reflexivity. Qed.

Lemma SFeqb_zero s : SFeqb s F32.zero = true -> exists b, s = S754_zero b.
Proof.
  destruct s as [b|b| |b m e]; simpl; try discriminate; eauto.
  - destruct b; discriminate.
  - destruct b; discriminate.
Qed.

(** Whenever the sum of squares of the first [d] elements is zero,
    [norm_neon] overwrites each of them with NaN. *)
Lemma norm_neon_zero_sum table (v : list float32) d :
  0 <= d -> d + 4 < 2 ^ 32 -> d <= Z.of_nat (length v) ->
  SFeqb (dot_single (operands v v d)) F32.zero = true ->
  CosineNeon.norm_neon table v d
  = Done (replicate (Z.to_nat d) S754_nan ++ drop (Z.to_nat d) v).
Proof.
  intros Hd Hd32 Hlen Hz. rewrite norm_neon_closed_form by assumption.
  destruct (SFeqb_zero _ Hz) as [b ->]. rewrite inv_norm_zero.
  unfold scaled. f_equal. f_equal.
  rewrite (const_fmap _ (take (Z.to_nat d) v) S754_nan)
    by (intros; apply mul_nan).
  rewrite length_take. f_equal. lia.
Qed.

(** The scalar fallback of [norm_simd] returns with the array untouched in
    that case. *)
Lemma norm_simd_scalar_zero_sum (v : list float32) d :
  0 <= d -> d + 4 < 2 ^ 32 -> d <= Z.of_nat (length v) ->
  SFeqb (mac_tail F32.zero (operands v v d)) F32.zero = true ->
  CosineSimdScalar.norm_simd v d = Done v.
Proof.
  intros Hd Hd32 Hlen Hz. unfold CosineSimdScalar.norm_simd.
  assert (Hw : forall z, 0 <= z <= d + 4 -> wrap32 z = z)
    by (intros; apply wrap32_small; lia).
  pose proof (operands_length v v d Hd Hlen Hlen) as Hol.
  rewrite (for_loop_ext _ _
             (fun i sum => vi ← load_f32 v i; Done (F32.add sum (F32.mul vi vi)))
             (fun i sum => xi ← load_f32 v i; yi ← load_f32 v i;
                           Done (F32.add sum (F32.mul xi yi))))
    by (intros i s; osimpl; destruct (load_f32 v i); reflexivity).
  rewrite (dot_tail_loop v v d wrap32 Hw (operands v v d));
    [|lia|lia|apply covers_operands; lia|lia].
  cbn [mbind outcome_bind]. by rewrite Hz.
Qed.

Lemma words_of_length (bs : list byte) (n : nat) :
  (4 * n <= length bs)%nat -> (n <= length (words_of bs))%nat.
Proof.
  revert bs. induction n as [|n IH]; intros bs Hn; [lia|].
  destruct bs as [|b0 [|b1 [|b2 [|b3 rest]]]]; simpl in Hn; try lia.
  cbn [words_of length]. specialize (IH rest ltac:(lia)). lia.
Qed.

Lemma bytes_of_f32s_length fs : length (bytes_of_f32s fs) = (4 * length fs)%nat.
Proof.
  unfold bytes_of_f32s. induction fs as [|f fs IH]; [reflexivity|].
  rewrite bind_cons, length_app, IH. simpl. lia.
Qed.

Lemma f32_view_length pre fs post :
  (length fs <= length (f32_view (pre ++ bytes_of_f32s fs ++ post)
                                 (Z.of_nat (length pre))))%nat.
Proof.
  unfold f32_view. rewrite length_fmap, Nat2Z.id, drop_app_length.
  apply words_of_length. rewrite length_app, bytes_of_f32s_length. lia.
Qed.

Lemma write_f32s_replaces pre fs fs' post :
  length fs' = length fs ->
  write_f32s (pre ++ bytes_of_f32s fs ++ post) (Z.of_nat (length pre)) fs'
  = pre ++ bytes_of_f32s fs' ++ post.
Proof.
  intros Hl. unfold write_f32s. rewrite Nat2Z.id, take_app_length.
  f_equal. fold (bytes_of_f32s fs'). f_equal.
  rewrite Hl, drop_app_add.
  rewrite <- bytes_of_f32s_length. apply drop_app_length.
Qed.

(** Normalising an embedding in the arena rewrites its floats and nothing
    else. *)
Lemma norm_in_arena_spec table pre fs post :
  Z.of_nat (length fs) + 4 < 2 ^ 32 ->
  exists fs', length fs' = length fs /\
    norm_in_arena table (pre ++ bytes_of_f32s fs ++ post)
      (Z.of_nat (length pre)) (Z.of_nat (length fs))
    = Done (pre ++ bytes_of_f32s fs' ++ post).
Proof.
  intros Hb. unfold norm_in_arena.
  pose proof (f32_view_length pre fs post) as Hv.
  destruct (norm_neon_total table
              (f32_view (pre ++ bytes_of_f32s fs ++ post) (Z.of_nat (length pre)))
              (Z.of_nat (length fs)) ltac:(lia) Hb ltac:(lia)) as (v' & -> & Hl).
  osimpl. rewrite Nat2Z.id.
  exists (take (length fs) v'). split; [rewrite length_take; lia|].
  f_equal. apply write_f32s_replaces. rewrite length_take. lia.
Qed.

Lemma lpstr_length s : Z.of_nat (length (lpstr s)) = 4 + len s.
Proof. unfold lpstr, len. rewrite length_app. simpl. lia. Qed.

Lemma bytes_of_u32_length w : length (bytes_of_u32 w) = 4%nat.
Proof. reflexivity. Qed.

Lemma read_str_at buf p pre s post :
  buf = pre ++ lpstr s ++ post -> p = Z.of_nat (length pre) -> len s < 2 ^ 32 ->
  read_str buf p = Done (p + 4, p + 4 + len s).
Proof.
  intros -> -> Hs. unfold read_str, lpstr.
  rewrite (read_u32_at _ _ pre (len s) (s ++ post));
    [reflexivity | by rewrite <- app_assoc | reflexivity | unfold len in *; lia].
Qed.

Lemma encode_record_length r :
  Z.of_nat (length (encode_record r)) = record_size r.
Proof.
  unfold encode_record, record_size.
  rewrite !length_app, !Nat2Z.inj_add, !lpstr_length, bytes_of_f32s_length.
  simpl. unfold len. lia.
Qed.

Lemma same_fields_size r r' : same_fields r r' -> record_size r' = record_size r.
Proof.
  intros (H1 & H2 & H3 & H4 & _ & _ & H7 & H8). unfold record_size.
  by rewrite H1, H2, H3, H4, H7, H8.
Qed.

Ltac norm_app := rewrite <- ?app_assoc; reflexivity.
Ltac norm_len :=
  rewrite ?length_app, ?Nat2Z.inj_add, ?lpstr_length, ?bytes_of_u32_length;
  unfold len; simpl; lia.

(** One well-formed record is parsed to the chunk of its layout; only the
    floats of its embedding change in the buffer. *)
Lemma load_record_spec table pre r post cs :
  wf_source r ->
  exists r', same_fields r r' /\
    load_record table (pre ++ encode_record r ++ post, Z.of_nat (length pre), cs)
    = Done (pre ++ encode_record r' ++ post,
            Z.of_nat (length pre) + record_size r,
            cs ++ [chunk_of (Z.of_nat (length pre)) r]).
Proof.
  intros [Wid Wpar Wfile Wext Wtext Wstart Wend Wemb].
  set (p := Z.of_nat (length pre)).
  set (A := lpstr (s_id r)). set (B := lpstr (s_parent r)).
  set (C := lpstr (s_file r)). set (D := lpstr (s_ext r)).
  set (E := bytes_of_u32 (s_start r)). set (F := bytes_of_u32 (s_end r)).
  set (G := lpstr (s_text r)).
  set (H := bytes_of_u32 (Z.of_nat (length (s_emb r)))).
  destruct (norm_in_arena_spec table (pre ++ A ++ B ++ C ++ D ++ E ++ F ++ G ++ H)
              (s_emb r) post Wemb) as (fs' & Hfs & Hnorm).
  exists {| s_id := s_id r; s_parent := s_parent r; s_file := s_file r;
            s_ext := s_ext r; s_start := s_start r; s_end := s_end r;
            s_text := s_text r; s_emb := fs' |}.
  split; [unfold same_fields; simpl; auto 10|].
  unfold load_record, encode_record. fold A B C D E F G H.
  set (buf := pre ++ (A ++ B ++ C ++ D ++ E ++ F ++ G ++ H ++ bytes_of_f32s (s_emb r)) ++ post).
  rewrite (read_str_at buf p pre (s_id r)
             (B ++ C ++ D ++ E ++ F ++ G ++ H ++ bytes_of_f32s (s_emb r) ++ post));
    [| subst buf A; norm_app | reflexivity | assumption].
  cbn [mbind outcome_bind].
  set (q1 := p + 4 + len (s_id r)).
  rewrite (read_str_at buf q1 (pre ++ A) (s_parent r)
             (C ++ D ++ E ++ F ++ G ++ H ++ bytes_of_f32s (s_emb r) ++ post));
    [| subst buf B; norm_app | subst q1 p A; norm_len | assumption].
  cbn [mbind outcome_bind].
  set (q2 := q1 + 4 + len (s_parent r)).
  rewrite (read_str_at buf q2 (pre ++ A ++ B) (s_file r)
             (D ++ E ++ F ++ G ++ H ++ bytes_of_f32s (s_emb r) ++ post));
    [| subst buf C; norm_app | subst q2 q1 p A B; norm_len | assumption].
  cbn [mbind outcome_bind].
  set (q3 := q2 + 4 + len (s_file r)).
  rewrite (read_str_at buf q3 (pre ++ A ++ B ++ C) (s_ext r)
             (E ++ F ++ G ++ H ++ bytes_of_f32s (s_emb r) ++ post));
    [| subst buf D; norm_app | subst q3 q2 q1 p A B C; norm_len | assumption].
  cbn [mbind outcome_bind].
  set (q4 := q3 + 4 + len (s_ext r)).
  rewrite (read_u32_at buf q4 (pre ++ A ++ B ++ C ++ D) (s_start r)
             (F ++ G ++ H ++ bytes_of_f32s (s_emb r) ++ post));
    [| subst buf E; norm_app | subst q4 q3 q2 q1 p A B C D; norm_len | assumption].
  cbn [mbind outcome_bind].
  rewrite (read_u32_at buf (q4 + 4) (pre ++ A ++ B ++ C ++ D ++ E) (s_end r)
             (G ++ H ++ bytes_of_f32s (s_emb r) ++ post));
    [| subst buf F; norm_app | subst q4 q3 q2 q1 p A B C D E; norm_len | assumption].
  cbn [mbind outcome_bind].
  rewrite (read_str_at buf (q4 + 4 + 4) (pre ++ A ++ B ++ C ++ D ++ E ++ F) (s_text r)
             (H ++ bytes_of_f32s (s_emb r) ++ post));
    [| subst buf G; norm_app | subst q4 q3 q2 q1 p A B C D E F; norm_len | assumption].
  cbn [mbind outcome_bind].
  set (q5 := q4 + 4 + 4 + 4 + len (s_text r)).
  rewrite (read_u32_at buf q5 (pre ++ A ++ B ++ C ++ D ++ E ++ F ++ G)
             (Z.of_nat (length (s_emb r))) (bytes_of_f32s (s_emb r) ++ post));
    [| subst buf H; norm_app | subst q5 q4 q3 q2 q1 p A B C D E F G; norm_len | lia].
  cbn [mbind outcome_bind].
  replace buf with ((pre ++ A ++ B ++ C ++ D ++ E ++ F ++ G ++ H)
                      ++ bytes_of_f32s (s_emb r) ++ post)
    by (subst buf; norm_app).
  match goal with
  | |- context [norm_in_arena table _ ?q _] =>
      replace q with
        (Z.of_nat (length (pre ++ A ++ B ++ C ++ D ++ E ++ F ++ G ++ H)))
        by (subst q5 q4 q3 q2 q1 p A B C D E F G H; norm_len)
  end.
  rewrite Hnorm. cbn [mbind outcome_bind]. simpl s_id. f_equal. f_equal; [f_equal|].
  - cbn [s_id s_parent s_file s_ext s_start s_end s_text s_emb].
    fold A B C D E F G. rewrite Hfs. fold H. norm_app.
  - unfold record_size. subst q5 q4 q3 q2 q1 p A B C D E F G H. norm_len.
  - unfold chunk_of. subst q5 q4 q3 q2 q1 p A B C D E F G H.
    do 3 f_equal. norm_len.
Qed.

Lemma bind_nil {A B : Type} (f : A -> list B) : [] ≫= f = [].
Proof. reflexivity. Qed.

Lemma records_size_app rs1 rs2 :
  records_size (rs1 ++ rs2) = records_size rs1 + records_size rs2.
Proof.
  unfold records_size. induction rs1 as [|r rs1 IH]; simpl; [lia|]. rewrite IH. lia.
Qed.

Lemma encode_records_length rs :
  Z.of_nat (length (rs ≫= encode_record)) = records_size rs.
Proof.
  induction rs as [|r rs IH]; [reflexivity|].
  rewrite bind_cons, length_app, Nat2Z.inj_add, IH, encode_record_length. reflexivity.
Qed.

Lemma same_fields_sizes rs rs' :
  Forall2 same_fields rs rs' -> records_size rs' = records_size rs.
Proof.
  induction 1 as [|r r' rs rs' Hr _ IH]; [reflexivity|].
  simpl. rewrite IH, (same_fields_size r r' Hr). reflexivity.
Qed.

Lemma layout_app p rs1 rs2 :
  layout p (rs1 ++ rs2) = layout p rs1 ++ layout (p + records_size rs1) rs2.
Proof.
  revert p. induction rs1 as [|r rs1 IH]; intros p; simpl.
  - f_equal. lia.
  - rewrite IH. do 3 f_equal. lia.
Qed.

Lemma load_step table rs i st :
  Forall wf_source rs -> load_inv rs i st -> i < Z.of_nat (length rs) ->
  exists st', load_record table st = Done st' /\ load_inv rs (i + 1) st'.
Proof.
  intros Hwf (Hi & seen & Hseen & ->) Hlt.
  destruct (lookup_lt_is_Some_2 rs (Z.to_nat i) ltac:(lia)) as [r Hr].
  assert (Hdrop : drop (Z.to_nat i) rs = r :: drop (Z.to_nat (i + 1)) rs).
  { replace (Z.to_nat (i + 1)) with (S (Z.to_nat i)) by lia.
    by apply drop_S. }
  assert (Htake : take (Z.to_nat (i + 1)) rs = take (Z.to_nat i) rs ++ [r]).
  { replace (Z.to_nat (i + 1)) with (S (Z.to_nat i)) by lia. by apply take_S_r. }
  pose proof (proj1 (Forall_lookup _ _) Hwf _ _ Hr) as Hwr.
  set (hdr := bytes_of_u32 (Z.of_nat (length rs))).
  set (post := drop (Z.to_nat (i + 1)) rs ≫= encode_record).
  destruct (load_record_spec table (hdr ++ (seen ≫= encode_record)) r post
              (layout 4 (take (Z.to_nat i) rs)) Hwr) as (r' & Hsame & Hload).
  assert (Hp : Z.of_nat (length (hdr ++ (seen ≫= encode_record)))
               = 4 + records_size (take (Z.to_nat i) rs)).
  { rewrite length_app, Nat2Z.inj_add, encode_records_length,
      (same_fields_sizes _ _ Hseen). reflexivity. }
  rewrite Hp in Hload.
  rewrite Hdrop, bind_cons. fold post.
  replace (hdr ++ (seen ≫= encode_record) ++ encode_record r ++ post)
    with ((hdr ++ (seen ≫= encode_record)) ++ encode_record r ++ post)
    by (by rewrite <- app_assoc).
  rewrite Hload. eexists. split; [reflexivity|].
  split; [lia|]. exists (seen ++ [r']). split.
  - rewrite Htake. apply Forall2_app; [assumption|]. by apply Forall2_cons.
  - rewrite Htake, bind_app, bind_cons, bind_nil, app_nil_r, layout_app, records_size_app.
    f_equal. f_equal; [unfold hdr, post; by rewrite <- !app_assoc | simpl; lia].
Qed.

(** A well-formed file is loaded without any access outside the buffer;
    the table is the layout of its records and the arena is the file with
    the floats of the embeddings rewritten. *)
Lemma ci_load_well_formed table rs :
  Z.of_nat (length rs) < 2 ^ 32 -> Forall wf_source rs ->
  exists rs', Forall2 same_fields rs rs' /\
    ci_load table (Some (encode_file rs))
    = Done (Some {| arena := encode_file rs'; N := Z.of_nat (length rs);
                    chunks := layout 4 rs |}).
Proof.
  intros Hn Hwf. unfold ci_load, encode_file.
  rewrite (read_u32_at _ 0 [] (Z.of_nat (length rs)) (rs ≫= encode_record));
    [| reflexivity | reflexivity | lia].
  cbn [mbind outcome_bind].
  run_loop (load_inv rs) (fun i => Z.to_nat (Z.of_nat (length rs) - i)).
  - intros i st Hinv Hc. apply Z.ltb_lt in Hc.
    destruct (load_step table rs i st Hwf Hinv Hc) as (st' & Hst' & Hinv').
    pose proof Hinv as [Hi _].
    exists st'. rewrite wrap32_small by lia.
    split; [assumption|]. split; [assumption|]. lia.
  - split; [lia|]. exists []. split; [constructor|]. reflexivity.
  - lia.
  - apply Z.ltb_ge in Hexit. destruct Hinv as (Hi & seen & Hseen & ->).
    assert (iend = Z.of_nat (length rs)) as -> by lia.
    rewrite Nat2Z.id, take_ge in * by lia.
    rewrite drop_ge by lia. rewrite bind_nil, app_nil_r.
    exists seen. split; [assumption|].
    by rewrite (Forall2_length _ _ _ Hseen).
Qed.

Lemma bytes_at_mid buf pre s post p n :
  buf = pre ++ s ++ post -> p = Z.of_nat (length pre) -> n = Z.of_nat (length s) ->
  bytes_at buf p n = s.
Proof.
  intros -> -> ->. unfold bytes_at.
  by rewrite !Nat2Z.id, drop_app_length, take_app_length.
Qed.

Lemma f32_view_mid buf pre fs post p :
  buf = pre ++ bytes_of_f32s fs ++ post -> p = Z.of_nat (length pre) ->
  Z.of_nat (length fs) <= Z.of_nat (length (f32_view buf p)).
Proof.
  intros -> ->. pose proof (f32_view_length pre fs post). lia.
Qed.

Lemma layout_lookup rs : forall (i : nat) r p,
  rs !! i = Some r ->
  layout p rs !! i = Some (chunk_of (p + records_size (take i rs)) r).
Proof.
  induction rs as [|r0 rs IH]; intros i r p Hi; [discriminate|].
  destruct i as [|i]; simpl in *.
  - injection Hi as ->. do 2 f_equal. lia.
  - rewrite (IH i r _ Hi). do 2 f_equal. lia.
Qed.

(** In a buffer that holds the encoding of [r'] at offset [p], the
    pointers of the chunk laid out at [p] designate the strings of [r'],
    and its embedding pointer designates at least as many floats as [r']
    has. *)
Lemma chunk_in_arena pre r r' post :
  same_fields r r' ->
  let buf := pre ++ encode_record r' ++ post in
  let c := chunk_of (Z.of_nat (length pre)) r in
  bytes_at buf (id c) (len (s_id r)) = s_id r
  /\ bytes_at buf (parent c) (len (s_parent r)) = s_parent r
  /\ bytes_at buf (file c) (len (s_file r)) = s_file r
  /\ bytes_at buf (ext c) (len (s_ext r)) = s_ext r
  /\ bytes_at buf (text c) (len (s_text r)) = s_text r
  /\ dim c <= Z.of_nat (length (f32_view buf (emb c))).
Proof.
  intros (H1 & H2 & H3 & H4 & H5 & H6 & H7 & H8) buf c.
  subst buf c. unfold chunk_of, encode_record, lpstr. cbn [id parent file ext text dim emb].
  rewrite <- H1, <- H2, <- H3, <- H4, <- H5, <- H6, <- H7.
  set (u := bytes_of_u32).
  set (A := s_id r). set (B := s_parent r). set (C := s_file r). set (D := s_ext r).
  set (G := s_text r). set (I := bytes_of_f32s (s_emb r')).
  set (E := u (s_start r)). set (F := u (s_end r)).
  set (H := u (Z.of_nat (length (s_emb r')))).
  repeat split.
  - apply (bytes_at_mid _ (pre ++ u (len A)) A
             (u (len B) ++ B ++ u (len C) ++ C ++ u (len D) ++ D ++ E ++ F
                ++ u (len G) ++ G ++ H ++ I ++ post));
      [norm_app | subst u; norm_len | reflexivity].
  - apply (bytes_at_mid _ (pre ++ u (len A) ++ A ++ u (len B)) B
             (u (len C) ++ C ++ u (len D) ++ D ++ E ++ F
                ++ u (len G) ++ G ++ H ++ I ++ post));
      [norm_app | subst u; norm_len | reflexivity].
  - apply (bytes_at_mid _ (pre ++ u (len A) ++ A ++ u (len B) ++ B ++ u (len C)) C
             (u (len D) ++ D ++ E ++ F ++ u (len G) ++ G ++ H ++ I ++ post));
      [norm_app | subst u; norm_len | reflexivity].
  - apply (bytes_at_mid _
             (pre ++ u (len A) ++ A ++ u (len B) ++ B ++ u (len C) ++ C ++ u (len D)) D
             (E ++ F ++ u (len G) ++ G ++ H ++ I ++ post));
      [norm_app | subst u; norm_len | reflexivity].
  - apply (bytes_at_mid _
             (pre ++ u (len A) ++ A ++ u (len B) ++ B ++ u (len C) ++ C ++ u (len D) ++ D
                  ++ E ++ F ++ u (len G)) G (H ++ I ++ post));
      [norm_app | subst u E F; norm_len | reflexivity].
  - rewrite H8.
    apply (f32_view_mid _
             (pre ++ u (len A) ++ A ++ u (len B) ++ B ++ u (len C) ++ C ++ u (len D) ++ D
                  ++ E ++ F ++ u (len G) ++ G ++ H) (s_emb r') post);
      [subst I; norm_app | subst u E F H; norm_len].
Qed.

(** Every record of a loaded well-formed file, seen through the table. *)
Lemma loaded_chunk rs rs' (i : nat) r :
  Forall2 same_fields rs rs' -> rs !! i = Some r ->
  exists c, layout 4 rs !! i = Some c /\
    start_ln c = s_start r /\ end_ln c = s_end r /\
    dim c = Z.of_nat (length (s_emb r)) /\
    bytes_at (encode_file rs') (id c) (len (s_id r)) = s_id r /\
    bytes_at (encode_file rs') (parent c) (len (s_parent r)) = s_parent r /\
    bytes_at (encode_file rs') (file c) (len (s_file r)) = s_file r /\
    bytes_at (encode_file rs') (ext c) (len (s_ext r)) = s_ext r /\
    bytes_at (encode_file rs') (text c) (len (s_text r)) = s_text r /\
    dim c <= Z.of_nat (length (f32_view (encode_file rs') (emb c))).
Proof.
  intros Hsame Hr.
  destruct (Forall2_lookup_l _ _ _ _ _ Hsame Hr) as (r' & Hr' & Hrr').
  eexists. split; [apply (layout_lookup rs i r 4 Hr)|].
  split; [reflexivity|]. split; [reflexivity|]. split; [reflexivity|].
  set (pre := bytes_of_u32 (Z.of_nat (length rs')) ++ (take i rs' ≫= encode_record)).
  assert (Hfile : encode_file rs'
                  = pre ++ encode_record r' ++ (drop (S i) rs' ≫= encode_record)).
  { unfold encode_file, pre. rewrite <- (take_drop_middle rs' i r' Hr') at 2.
    by rewrite bind_app, bind_cons, <- !app_assoc. }
  assert (Hp : 4 + records_size (take i rs) = Z.of_nat (length pre)).
  { unfold pre. rewrite length_app, Nat2Z.inj_add, encode_records_length.
    rewrite (same_fields_sizes (take i rs) (take i rs')); [reflexivity|].
    by apply Forall2_take. }
  rewrite Hfile, Hp. apply (chunk_in_arena pre r r' _ Hrr').
Qed.

(** Loading a well-formed file and reading a record through the getters
    gives back its strings (as the bytes the returned pointers designate)
    and its line numbers. *)
Lemma load_reproduces_fields table rs :
  Z.of_nat (length rs) < 2 ^ 32 -> Forall wf_source rs ->
  exists ci, ci_load table (Some (encode_file rs)) = Done (Some ci) /\
    N ci = Z.of_nat (length rs) /\
    forall (i : nat) r, rs !! i = Some r ->
      exists p_id p_parent p_file p_ext p_text,
        ci_get_id ci (Z.of_nat i) = Done p_id /\
        bytes_at (arena ci) p_id (len (s_id r)) = s_id r /\
        ci_get_parent ci (Z.of_nat i) = Done p_parent /\
        bytes_at (arena ci) p_parent (len (s_parent r)) = s_parent r /\
        ci_get_file ci (Z.of_nat i) = Done p_file /\
        bytes_at (arena ci) p_file (len (s_file r)) = s_file r /\
        ci_get_ext ci (Z.of_nat i) = Done p_ext /\
        bytes_at (arena ci) p_ext (len (s_ext r)) = s_ext r /\
        ci_get_text ci (Z.of_nat i) = Done p_text /\
        bytes_at (arena ci) p_text (len (s_text r)) = s_text r /\
        ci_get_start ci (Z.of_nat i) = Done (s_start r) /\
        ci_get_end ci (Z.of_nat i) = Done (s_end r).
Proof.
  intros Hn Hwf.
  destruct (ci_load_well_formed table rs Hn Hwf) as (rs' & Hsame & Hload).
  eexists. split; [exact Hload|]. split; [reflexivity|].
  intros i r Hr.
  destruct (loaded_chunk rs rs' i r Hsame Hr)
    as (c & Hc & Hs & He & _ & Hid & Hpar & Hfile & Hext & Htext & _).
  assert (Hat : chunk_at {| arena := encode_file rs'; N := Z.of_nat (length rs);
                            chunks := layout 4 rs |} (Z.of_nat i) = Done c).
  { unfold chunk_at. destruct (Z.ltb_spec (Z.of_nat i) 0); [lia|].
    cbn [chunks]. by rewrite Nat2Z.id, Hc. }
  exists (id c), (parent c), (file c), (ext c), (text c).
  unfold ci_get_id, ci_get_parent, ci_get_file, ci_get_ext, ci_get_text,
    ci_get_start, ci_get_end.
  rewrite Hat. cbn [fmap outcome_fmap arena]. rewrite Hs, He. auto 20.
Qed.

Lemma layout_length rs : forall p, length (layout p rs) = length rs.
Proof.
  induction rs as [|r rs IH]; intros p; simpl; [reflexivity|]. by rewrite IH.
Qed.

(** What [ci_load] builds from a well-formed file meets the requirements
    of [ci_search] for every query that has [dim] floats. *)
Lemma loaded_index_wf_search table rs q dim :
  Z.of_nat (length rs) < 2 ^ 32 -> Forall wf_source rs ->
  0 <= dim < 2 ^ 32 -> dim <= Z.of_nat (length q) ->
  exists ci, ci_load table (Some (encode_file rs)) = Done (Some ci) /\
    wf_search ci q dim.
Proof.
  intros Hn Hwf Hdim Hq.
  destruct (ci_load_well_formed table rs Hn Hwf) as (rs' & Hsame & Hload).
  eexists. split; [exact Hload|].
  split; cbn [N chunks arena]; try assumption.
  - by rewrite layout_length.
  - intros c Hc He. unfold emb_floats. cbn [arena].
    apply list_elem_of_lookup in Hc as [i Hc].
    pose proof (lookup_lt_Some _ _ _ Hc) as Hi. rewrite layout_length in Hi.
    destruct (lookup_lt_is_Some_2 rs i Hi) as [r Hr].
    destruct (loaded_chunk rs rs' i r Hsame Hr) as (c' & Hc' & _ & _ & _ & _ & _ & _ & _ & _ & Hemb).
    rewrite Hc in Hc'. injection Hc' as <-.
    unfold eligible in He. lia.
Qed.

(** ** The indices used below are what [ci_load] builds *)

Import Inputs.

(** With an estimate that is exact on 1 the loader leaves unit vectors as
    they are. *)
Example five_index_loaded :
  ci_load (fun _ => F32.one) (Some (encode_file five_records)) = Done (Some five_index).
Proof. reflexivity. Qed.

Example demo_index_loaded :
  ci_load (fun _ => F32.one) (Some (encode_file demo_records)) = Done (Some demo_index).
Proof. reflexivity. Qed.

(** With the estimate 511/512 for the operand 1 the two refinement steps
    give the factor 16769073 * 2^-24, about 0.99951. *)
Example norm_neon_unit_vector :
  CosineNeon.norm_neon (fun _ => S754_finite false 16744448 (-24))
    [F32.one; F32.zero; F32.zero; F32.zero] 4
  = Done [S754_finite false 16769073 (-24); F32.zero; F32.zero; F32.zero].
Proof. reflexivity. Qed.

(** The same search on the index loaded with that estimate. *)
Example five_search_after_load :
  (ci ← ci_load (fun _ => S754_finite false 16744448 (-24))
         (Some (encode_file five_records));
   match ci with
   | Some ci => out_i <$> ci_search ci five_query 2 4 zero_pair
   | None => Done []
   end) = Done [0; 1; 2; 3].
Proof. reflexivity. Qed.

(** * The claims *)

(** ** Dot product *)

(** C10: the three copies of the NEON dot-product kernel
    ([src/C/cosine_neon.c], the NEON branch of [src/C/cosine_simd.c] and
    [src/simd/cosine_neon.c]) give the same outcome on every pair of
    arrays and every size. *)
Theorem dot_product_kernels_identical (x y : list float32) (size : Z) :
  CosineSimdNeon.f32_dot_product_simd x y size
    = CosineNeon.f32_dot_product_neon x y size
  /\ SimdCosineNeon.f32_dot_product_neon x y size
    = CosineNeon.f32_dot_product_neon x y size.
Proof. split; reflexivity. Qed.

(** C7, as stated, fails: on [x = [1, 2^-30]], [y = [1, 1]] the kernel
    returns 1, while a tail computed and added in double precision gives
    [1 + 2^-30]. *)
Lemma dot_tail_is_not_double :
  CosineNeon.f32_dot_product_neon [F32.one; two_pow_m30] [F32.one; F32.one] 2
  <> Done (dotProduct_spec (operands [F32.one; two_pow_m30] [F32.one; F32.one] 2)).
Proof. vm_compute. discriminate. Qed.

(** C7, amended: for arrays holding at least [size] elements, the kernel
    accumulates whole blocks of four in the single-precision vector
    accumulator, reduces it, adds the scalar tail to the reduced sum in
    single precision as well, and widens to double once, at the very end. *)
Theorem dot_product_widens_last (x y : list float32) (size : Z) :
  0 <= size -> size + 4 < 2 ^ 64 ->
  size <= Z.of_nat (length x) -> size <= Z.of_nat (length y) ->
  CosineNeon.f32_dot_product_neon x y size
    = Done (f32_to_f64 (dot_single (operands x y size)))
  /\ CosineSimdNeon.f32_dot_product_simd x y size
    = Done (f32_to_f64 (dot_single (operands x y size))).
Proof.
  intros. split; apply dot_kernel_closed_form; assumption.
Qed.

Lemma dot_product_widens_last_witness :
  (0 <= 2 /\ 2 + 4 < 2 ^ 64
   /\ 2 <= Z.of_nat (length [F32.one; two_pow_m30])
   /\ 2 <= Z.of_nat (length [F32.one; F32.one])) /\
  CosineNeon.f32_dot_product_neon [F32.one; two_pow_m30] [F32.one; F32.one] 2
    = Done (f32_to_f64 (dot_single (operands [F32.one; two_pow_m30] [F32.one; F32.one] 2)))
  /\ CosineSimdNeon.f32_dot_product_simd [F32.one; two_pow_m30] [F32.one; F32.one] 2
    = Done (f32_to_f64 (dot_single (operands [F32.one; two_pow_m30] [F32.one; F32.one] 2))).
Proof.
  split; [simpl; lia|].
  apply (dot_product_widens_last [F32.one; two_pow_m30] [F32.one; F32.one] 2);
    simpl; lia.
Defined.

(** ** Normalisation *)

(** C3 fails on [norm_neon], the routine [ci_load] calls: the all-zero
    vector of dimension 4 comes back as four NaN, whatever the estimate
    table is.  The scalar fallback of [norm_simd] leaves it unchanged. *)
Theorem norm_neon_zero_vector_gives_nan (table : float32 -> float32) :
  CosineNeon.norm_neon table [F32.zero; F32.zero; F32.zero; F32.zero] 4
    = Done [S754_nan; S754_nan; S754_nan; S754_nan]
  /\ CosineSimdScalar.norm_simd [F32.zero; F32.zero; F32.zero; F32.zero] 4
    = Done [F32.zero; F32.zero; F32.zero; F32.zero].
Proof. split; reflexivity. Qed.

(** ** Loading *)

(** C2 fails: on a file whose first length prefix runs past the end of the
    buffer, [ci_load] reports nothing and reads outside the buffer. *)
Theorem load_truncated_reads_out_of_bounds (table : float32 -> float32) :
  Chunks.ci_load table (Some truncated_file) = OutOfBounds.
Proof. reflexivity. Qed.

(** ** Search *)

Ltac check_wf_search :=
  split;
  [ reflexivity
  | reflexivity
  | split; [discriminate | reflexivity]
  | discriminate
  | let c := fresh "c" in
    let Hc := fresh "Hc" in
    let He := fresh "He" in
    intros c Hc He;
    repeat (apply elem_of_cons in Hc as [->|Hc]);
    [ first [ discriminate He | vm_compute; discriminate ] .. | inversion Hc ] ].

Lemma demo_wf : wf_search demo_index demo_query 4.
Proof. check_wf_search. Qed.

Lemma five_wf : wf_search five_index five_query 2.
Proof. check_wf_search. Qed.

(** C1 fails: with [K = 4] on five eligible records of scores
    0, 1, 0, -1, 0 the search returns records 0 to 3, among them record 3
    of score -1, and leaves out record 4, which is eligible and scores 0.
    The loop that builds the heap calls [sift_down] twice, both times from
    the root, and leaves the four entries where they were, the smallest
    score last. *)
Theorem topk_keeps_a_lower_score (past_end : Pair) :
  ci_search five_index five_query 2 4 past_end
    = Done {| count := 4; out_i := [0; 1; 2; 3];
              out_s := [d_zero; d_one; d_zero; d_neg_one]; heap_oob := false |}
  /\ (exists c, chunks five_index !! 4%nat = Some c /\ eligible 2 c /\
        CosineNeon.f32_dot_product_neon five_query (emb_floats five_index c) 2
        = Done d_zero)
  /\ F64.ltb d_neg_one d_zero = true
  /\ build_heap [ {| score := d_zero; idx := 0 |}; {| score := d_one; idx := 1 |};
                  {| score := d_zero; idx := 2 |}; {| score := d_neg_one; idx := 3 |} ] 4
     = Done [ {| score := d_zero; idx := 0 |}; {| score := d_one; idx := 1 |};
              {| score := d_zero; idx := 2 |}; {| score := d_neg_one; idx := 3 |} ].
Proof.
  split; [reflexivity|]. split; [|split; reflexivity].
  eexists. split; [reflexivity|]. split; reflexivity.
Qed.

Lemma eligible_from_length dim cs : forall i,
  length (eligible_from dim i cs) = length (filter (eligible dim) cs).
Proof.
  induction cs as [|c cs IH]; intros i; [reflexivity|].
  cbn [eligible_from]. destruct (decide (eligible dim c)) as [He|Hne].
  - rewrite filter_cons_True by exact He. simpl. by rewrite IH.
  - rewrite filter_cons_False by exact Hne. apply IH.
Qed.

(** What [ci_search] returns on a well-formed call, in one statement. *)
Lemma ci_search_result ci q dim K past_end :
  0 <= K < 2 ^ 32 -> wf_search ci q dim ->
  exists r, ci_search ci q dim K past_end = Done r /\
    count r = Z.min K (Z.of_nat (length (filter (eligible dim) (chunks ci)))) /\
    Z.of_nat (length (out_i r)) = count r /\
    Z.of_nat (length (out_s r)) = count r /\
    Forall (eligible_index ci dim) (out_i r) /\
    (0 < K -> heap_oob r = false) /\
    (K = 0 -> (0 < length (filter (eligible dim) (chunks ci)))%nat -> heap_oob r = true).
Proof.
  intros HK Hwf.
  destruct (ci_search_spec ci q dim K HK Hwf past_end) as (st & Hinv & _ & Hrun).
  destruct Hinv as (_ & [Hlen Hsz] & Hcount & Hel & Hs1 & Hs0).
  rewrite take_ge in Hcount, Hs0 by (rewrite (wf_N _ _ _ Hwf); lia).
  eexists. split; [exact Hrun|]. simpl.
  split; [assumption|].
  unfold retained. rewrite !length_fmap, length_take.
  split; [lia|]. split; [lia|].
  split; [|auto].
  apply Forall_fmap. exact Hel.
Qed.

(** C8: on every well-formed call, for every [K], the search returns, and
    the count it returns is the minimum of [K] and the number of eligible
    records; the output arrays hold exactly that many entries; an empty
    corpus gives 0. *)
Theorem ci_search_count ci q dim K past_end :
  0 <= K < 2 ^ 32 -> wf_search ci q dim ->
  exists r, ci_search ci q dim K past_end = Done r /\
    count r = Z.min K (Z.of_nat (length (filter (eligible dim) (chunks ci)))) /\
    Z.of_nat (length (out_i r)) = count r /\
    Z.of_nat (length (out_s r)) = count r /\
    (N ci = 0 -> count r = 0).
Proof.
  intros HK Hwf.
  destruct (ci_search_result ci q dim K past_end HK Hwf)
    as (r & Hrun & Hc & Hi & Hs & _).
  exists r. repeat (split; [assumption|]).
  intros HN. rewrite (wf_N _ _ _ Hwf) in HN.
  destruct (chunks ci); [|simpl in HN; lia]. simpl in Hc. lia.
Qed.

Lemma ci_search_count_witness :
  (0 <= 5 < 2 ^ 32 /\ wf_search demo_index demo_query 4) /\
  exists r, ci_search demo_index demo_query 4 5 zero_pair = Done r /\
    count r = Z.min 5 (Z.of_nat (length (filter (eligible 4) (chunks demo_index)))) /\
    Z.of_nat (length (out_i r)) = count r /\
    Z.of_nat (length (out_s r)) = count r /\
    (N demo_index = 0 -> count r = 0).
Proof.
  split; [split; [lia | check_wf_search]|].
  apply (ci_search_count demo_index demo_query 4 5 zero_pair);
    [lia | check_wf_search].
Defined.

(** C6: on every well-formed call the scan is the scoring and offering of
    the records of the query's dimension, in order, and of no other
    record; the search returns, every index it returns is that of a record
    of the query's dimension, and it returns at most as many hits as there
    are such records. *)
Theorem mismatched_dimension_skipped ci q dim K past_end :
  0 <= K < 2 ^ 32 -> wf_search ci q dim ->
  scan_records ci q dim K past_end
    = (st ← iterate (score_and_offer ci q dim K) (eligible_indices ci dim)
              (search_start K past_end);
       Done (N ci, st))
  /\ exists r, ci_search ci q dim K past_end = Done r /\
       Forall (eligible_index ci dim) (out_i r) /\
       count r <= Z.of_nat (length (eligible_indices ci dim)).
Proof.
  intros HK Hwf. split.
  - apply scan_skips; [apply (wf_N _ _ _ Hwf) | apply (wf_N32 _ _ _ Hwf)].
  - destruct (ci_search_result ci q dim K past_end HK Hwf)
      as (r & Hrun & Hc & _ & _ & Hel & _).
    exists r. split; [assumption|]. split; [assumption|].
    unfold eligible_indices. rewrite eligible_from_length. lia.
Qed.

Lemma mismatched_dimension_skipped_witness :
  (0 <= 2 < 2 ^ 32 /\ wf_search demo_index demo_query 4) /\
  scan_records demo_index demo_query 4 2 zero_pair
    = (st ← iterate (score_and_offer demo_index demo_query 4 2)
              (eligible_indices demo_index 4) (search_start 2 zero_pair);
       Done (N demo_index, st))
  /\ exists r, ci_search demo_index demo_query 4 2 zero_pair = Done r /\
       Forall (eligible_index demo_index 4) (out_i r) /\
       count r <= Z.of_nat (length (eligible_indices demo_index 4)).
Proof.
  split; [split; [lia | check_wf_search]|].
  apply (mismatched_dimension_skipped demo_index demo_query 4 2 zero_pair);
    [lia | check_wf_search].
Defined.

(** C4 fails where it excludes an access outside the heap: with [K = 0]
    and records of the query's dimension in the corpus the search returns
    0 hits, and it reads [heap[0]] behind the empty block on the way. *)
Theorem search_k0_reads_past_empty_heap (past_end : Pair) :
  exists r, ci_search demo_index demo_query 4 0 past_end = Done r /\
    count r = 0 /\ out_i r = [] /\ out_s r = [] /\ heap_oob r = true.
Proof.
  destruct (ci_search_result demo_index demo_query 4 0 past_end ltac:(lia) demo_wf)
    as (r & Hrun & Hc & Hi & Hs & _ & _ & Hoob).
  exists r. split; [assumption|].
  assert (count r = 0) as Hz by (rewrite Hc; reflexivity).
  rewrite Hz in Hi, Hs.
  split; [assumption|].
  split; [by destruct (out_i r)|]. split; [by destruct (out_s r)|].
  apply Hoob; [reflexivity|]. vm_compute. lia.
Qed.

(** C9: an offered candidate replaces the root only when its score is
    strictly greater than the root's; otherwise a full selector stays as
    it is.  In particular a candidate whose score equals the minimum
    retained score displaces nothing: every retained entry is still
    retained afterwards, and a full selector is unchanged. *)
Theorem tie_never_displaces K sc i st :
  0 <= K < 2 ^ 32 -> wf_state K st ->
  exists st', heap_offer K sc i st = Done st' /\
    (forall root, sz st = K -> heap st !! 0%nat = Some root ->
       F64.ltb (score root) sc = false -> st' = st) /\
    (forall m, m ∈ retained st ->
       (forall p, p ∈ retained st -> F64.leb (score m) (score p) = true) ->
       F64.eqb sc (score m) = true ->
       retained st ⊆+ retained st' /\ (sz st = K -> st' = st)).
Proof.
  intros HK Hst.
  destruct (heap_offer_spec K sc i st HK Hst) as (st' & Hoff & _ & _ & _ & Hcases).
  exists st'. split; [assumption|].
  assert (Hkeep : forall root, sz st = K -> heap st !! 0%nat = Some root ->
            F64.ltb (score root) sc = false -> st' = st).
  { intros root Hfull Hroot Hcmp. unfold heap_offer in Hoff.
    destruct (Z.ltb_spec (sz st) K); [lia|].
    destruct (heap st) as [|r rest]; [discriminate|].
    injection Hroot as ->. rewrite Hcmp in Hoff. by injection Hoff. }
  split; [exact Hkeep|].
  intros m Hm Hmin Htie.
  destruct Hcases as [(Hlt & _ & Hr)|[(Hfull & Hsz' & Hh & _)|(Hfull & _ & root & rest & Hh & Hcmp & _)]].
  - split; [|lia]. rewrite Hr. by apply submseteq_inserts_r.
  - split; [unfold retained; by rewrite Hh, Hsz', Hfull|].
    intros _. destruct Hst as [Hlen _].
    destruct (heap st) as [|root rest] eqn:Hheap.
    { unfold retained in Hm. rewrite Hheap, take_nil in Hm. inversion Hm. }
    apply (Hkeep root Hfull eq_refl).
    apply (tie_not_above sc (score m) (score root) Htie), Hmin.
    unfold retained. rewrite Hheap, take_ge by (simpl in *; lia). apply elem_of_cons; auto.
  - exfalso. destruct Hst as [Hlen _].
    assert (Hroot : root ∈ retained st).
    { unfold retained. rewrite Hh, take_ge by (rewrite Hh in Hlen; simpl in *; lia).
      apply elem_of_cons; auto. }
    pose proof (tie_not_above sc (score m) (score root) Htie (Hmin root Hroot)) as Hno.
    rewrite Hno in Hcmp. discriminate.
Qed.

Lemma tie_never_displaces_witness :
  (0 <= 2 < 2 ^ 32 /\ wf_state 2 full_state) /\
  exists st', heap_offer 2 d_zero 2 full_state = Done st' /\
    (forall root, sz full_state = 2 -> heap full_state !! 0%nat = Some root ->
       F64.ltb (score root) d_zero = false -> st' = full_state) /\
    (forall m, m ∈ retained full_state ->
       (forall p, p ∈ retained full_state -> F64.leb (score m) (score p) = true) ->
       F64.eqb d_zero (score m) = true ->
       retained full_state ⊆+ retained st' /\ (sz full_state = 2 -> st' = full_state)).
Proof.
  split; [split; [lia | split; simpl; lia]|].
  apply (tie_never_displaces 2 d_zero 2 full_state); [lia | split; simpl; lia].
Defined.
(** ** More on loops *)

(** Partial correctness: an invariant that every successful run of the
    body keeps holds at the exit of every run of the loop that ends. *)
Lemma for_loop_partial {S : Type} (Inv : Z -> S -> Prop)
    (cond : Z -> bool) (next : Z -> Z) (body : Z -> S -> outcome S) :
  (forall i s s', Inv i s -> cond i = true -> body i s = Done s' -> Inv (next i) s') ->
  forall fuel i s i' s', Inv i s ->
  for_loop fuel cond next body i s = Done (i', s') ->
  Inv i' s' /\ cond i' = false.
Proof.
  intros Hstep fuel. induction fuel as [|fuel IH]; intros i s i' s' Hinv Hrun;
    simpl in Hrun; [discriminate|].
  destruct (cond i) eqn:Hc.
  - osimpl. destruct (body i s) as [s1| |] eqn:Hb; try discriminate.
    eapply IH; [|exact Hrun]. eauto.
  - inversion Hrun; subst. auto.
Qed.

(** Two loops with the same counter whose bodies keep a relation between
    their states end the same way, in related states. *)
Lemma for_loop_rel {S T : Type} (R : S -> T -> Prop)
    (cond : Z -> bool) (next : Z -> Z)
    (b1 : Z -> S -> outcome S) (b2 : Z -> T -> outcome T) :
  (forall i s t, R s t -> outcome_rel R (b1 i s) (b2 i t)) ->
  forall fuel i s t, R s t ->
  outcome_rel (fun a b => a.1 = b.1 /\ R a.2 b.2)
    (for_loop fuel cond next b1 i s) (for_loop fuel cond next b2 i t).
Proof.
  intros Hb fuel. induction fuel as [|fuel IH]; intros i s t HR; simpl; [exact I|].
  destruct (cond i); [|simpl; auto].
  specialize (Hb i s t HR). osimpl.
  destruct (b1 i s), (b2 i t); simpl in Hb; try contradiction; simpl; auto.
Qed.
(** ** The cosine distance of [src/simd/cosine_neon.c] *)

Lemma SFmul_comm prec emax a b : SFmul prec emax a b = SFmul prec emax b a.
Proof.
  destruct a as [sa|sa| |sa ma ea], b as [sb|sb| |sb mb eb]; simpl;
    rewrite ?(xorb_comm sa sb); try reflexivity.
  rewrite (Pos.mul_comm ma mb), (Z.add_comm ea eb). reflexivity.
Qed.

Lemma vmlaq_comm acc a b : vmlaq_f32 acc a b = vmlaq_f32 acc b a.
Proof.
  unfold vmlaq_f32, map2, F32.mul. simpl.
  rewrite (SFmul_comm _ _ (l0 a)), (SFmul_comm _ _ (l1 a)),
    (SFmul_comm _ _ (l2 a)), (SFmul_comm _ _ (l3 a)). reflexivity.
Qed.

Lemma load_f32_cases (a : list float32) i :
  (exists v, load_f32 a i = Done v) \/ load_f32 a i = OutOfBounds.
Proof. unfold load_f32. destruct (a !! Z.to_nat i); eauto. Qed.

Lemma vld1q_cases (a : list float32) i :
  (exists v, vld1q_f32 a i = Done v) \/ vld1q_f32 a i = OutOfBounds.
Proof.
  unfold vld1q_f32. osimpl.
  destruct (load_f32_cases a i) as [[v0 ->]| ->]; [|auto].
  destruct (load_f32_cases a (i + 1)) as [[v1 ->]| ->]; [|auto].
  destruct (load_f32_cases a (i + 2)) as [[v2 ->]| ->]; [|auto].
  destruct (load_f32_cases a (i + 3)) as [[v3 ->]| ->]; [|auto].
  eauto.
Qed.

Lemma dot_symmetric x y size :
  CosineNeon.f32_dot_product_neon x y size = CosineNeon.f32_dot_product_neon y x size.
Proof.
  unfold CosineNeon.f32_dot_product_neon.
  rewrite (for_loop_ext _ _
    (fun i sum_v => vx ← vld1q_f32 x i; vy ← vld1q_f32 y i; Done (vmlaq_f32 sum_v vx vy))
    (fun i sum_v => vx ← vld1q_f32 y i; vy ← vld1q_f32 x i; Done (vmlaq_f32 sum_v vx vy))).
  2:{ intros i s. osimpl.
      destruct (vld1q_cases x i) as [[vx ->]| ->], (vld1q_cases y i) as [[vy ->]| ->];
        try reflexivity.
      rewrite vmlaq_comm. reflexivity. }
  pose proof (for_loop_ext (fun i => i <? size) (fun i => wrap64 (i + 1))
    (fun i sum => xi ← load_f32 x i; yi ← load_f32 y i; Done (F32.add sum (F32.mul xi yi)))
    (fun i sum => xi ← load_f32 y i; yi ← load_f32 x i; Done (F32.add sum (F32.mul xi yi))))
    as Htail.
  osimpl.
  destruct (for_loop _ _ _ _ 0 _) as [[i acc]| |]; try reflexivity.
  rewrite Htail; [reflexivity|].
  intros j s.
  destruct (load_f32_cases x j) as [[vx ->]| ->], (load_f32_cases y j) as [[vy ->]| ->];
    try reflexivity.
  unfold F32.mul. rewrite SFmul_comm. reflexivity.
Qed.

Section CosineKernel.
Variables (x y : list float32) (size : Z) (wrap : Z -> Z).
Hypothesis wrap_id : forall z, 0 <= z <= size + 4 -> wrap z = z.

Local Abbreviation xx := (fmap (M := list) (fun p : float32 * float32 => (p.1, p.1))).
Local Abbreviation yy := (fmap (M := list) (fun p : float32 * float32 => (p.2, p.2))).

Lemma cos_main_loop fuel : forall rest i a b c,
  0 <= i -> i + Z.of_nat (length rest) = size -> covers x y i rest ->
  (length rest < fuel)%nat ->
  for_loop fuel
    (fun i => wrap (i + 4) <=? size) (fun i => wrap (i + 4))
    (fun i '(sum_xy_v, sum_xx_v, sum_yy_v) =>
       vx ← vld1q_f32 x i;
       vy ← vld1q_f32 y i;
       Done (vmlaq_f32 sum_xy_v vx vy,
             vmlaq_f32 sum_xx_v vx vx,
             vmlaq_f32 sum_yy_v vy vy))
    i (a, b, c)
  = Done (size - Z.of_nat (length (mac_blocks a rest).2),
          ((mac_blocks a rest).1, (mac_blocks b (xx rest)).1, (mac_blocks c (yy rest)).1))
  /\ covers x y (size - Z.of_nat (length (mac_blocks a rest).2)) (mac_blocks a rest).2
  /\ (mac_blocks b (xx rest)).2 = xx (mac_blocks a rest).2
  /\ (mac_blocks c (yy rest)).2 = yy (mac_blocks a rest).2.
Proof.
  induction fuel as [|fuel IH]; intros rest i a b c Hi Hlen Hc Hf; [lia|].
  simpl for_loop. rewrite wrap_id by lia.
  destruct rest as [|[x0 y0] [|[x1 y1] [|[x2 y2] [|[x3 y3] rest]]]];
    simpl in Hlen;
    try (destruct (Z.leb_spec (i + 4) size); [lia|];
         simpl; split; [f_equal; f_equal; lia|]; split; [|split; reflexivity];
         match goal with |- covers _ _ ?a _ => replace a with i by lia end; exact Hc).
  destruct (Z.leb_spec (i + 4) size); [|lia].
  destruct (covers_load x y i _ 0 _ _ Hi Hc eq_refl) as [Hx0 Hy0].
  destruct (covers_load x y i _ 1 _ _ Hi Hc eq_refl) as [Hx1 Hy1].
  destruct (covers_load x y i _ 2 _ _ Hi Hc eq_refl) as [Hx2 Hy2].
  destruct (covers_load x y i _ 3 _ _ Hi Hc eq_refl) as [Hx3 Hy3].
  rewrite Z.add_0_r in Hx0, Hy0.
  change (Z.of_nat 1) with 1 in *. change (Z.of_nat 2) with 2 in *.
  change (Z.of_nat 3) with 3 in *.
  unfold vld1q_f32. unfold mbind, outcome_bind.
  rewrite Hx0, Hx1, Hx2, Hx3, Hy0, Hy1, Hy2, Hy3.
  change (mac_blocks a ((x0, y0) :: (x1, y1) :: (x2, y2) :: (x3, y3) :: rest))
    with (mac_blocks (vmlaq_f32 a (F32x4 x0 x1 x2 x3) (F32x4 y0 y1 y2 y3)) rest).
  change (mac_blocks b (xx ((x0, y0) :: (x1, y1) :: (x2, y2) :: (x3, y3) :: rest)))
    with (mac_blocks (vmlaq_f32 b (F32x4 x0 x1 x2 x3) (F32x4 x0 x1 x2 x3)) (xx rest)).
  change (mac_blocks c (yy ((x0, y0) :: (x1, y1) :: (x2, y2) :: (x3, y3) :: rest)))
    with (mac_blocks (vmlaq_f32 c (F32x4 y0 y1 y2 y3) (F32x4 y0 y1 y2 y3)) (yy rest)).
  apply IH; simpl in *; try lia.
  apply (covers_drop x y i _ 4 Hi Hc).
Qed.

Lemma cos_tail_loop : forall rest fuel i s1 s2 s3,
  0 <= i -> i + Z.of_nat (length rest) = size -> covers x y i rest ->
  (length rest < fuel)%nat ->
  for_loop fuel
    (fun i => i <? size) (fun i => wrap (i + 1))
    (fun i '(sum_xy, sum_xx, sum_yy) =>
       xi ← load_f32 x i;
       yi ← load_f32 y i;
       Done (F32.add sum_xy (F32.mul xi yi),
             F32.add sum_xx (F32.mul xi xi),
             F32.add sum_yy (F32.mul yi yi)))
    i (s1, s2, s3)
  = Done (size, (mac_tail s1 rest, mac_tail s2 (xx rest), mac_tail s3 (yy rest))).
Proof.
  induction rest as [|[a b] rest IH]; intros fuel i s1 s2 s3 Hi Hlen Hc Hf;
    (destruct fuel as [|fuel]; [lia|]); simpl in Hlen; simpl for_loop.
  - destruct (Z.ltb_spec i size); [lia|]. simpl. f_equal. f_equal. lia.
  - destruct (Z.ltb_spec i size); [|lia].
    destruct (covers_load x y i _ 0 _ _ Hi Hc eq_refl) as [Hx0 Hy0].
    rewrite Z.add_0_r in Hx0, Hy0. unfold mbind, outcome_bind. rewrite Hx0, Hy0.
    rewrite wrap_id by lia.
    rewrite IH; simpl in *; try lia; [reflexivity|].
    apply (covers_drop x y i _ 1 Hi Hc).
Qed.
End CosineKernel.

Lemma zip_diag_l {A B : Type} (l : list A) (k : list B) :
  (length l <= length k)%nat -> zip l l = (fun p => (p.1, p.1)) <$> zip l k.
Proof.
  revert k. induction l as [|a l IH]; intros [|b k] Hlen; simpl in *; try lia; auto.
  rewrite (IH k) by lia. reflexivity.
Qed.

Lemma zip_diag_r {A B : Type} (l : list A) (k : list B) :
  (length k <= length l)%nat -> zip k k = (fun p => (p.2, p.2)) <$> zip l k.
Proof.
  revert l. induction k as [|b k IH]; intros [|a l] Hlen; simpl in *; try lia; auto.
  rewrite (IH l) by lia. reflexivity.
Qed.

Lemma operands_xx x y size :
  0 <= size -> size <= Z.of_nat (length x) -> size <= Z.of_nat (length y) ->
  operands x x size = (fun p => (p.1, p.1)) <$> operands x y size
  /\ operands y y size = (fun p => (p.2, p.2)) <$> operands x y size.
Proof.
  intros. unfold operands. split.
  - apply zip_diag_l. rewrite !length_take. lia.
  - apply zip_diag_r. rewrite !length_take. lia.
Qed.

(** The value of the cosine distance, from the three single-precision
    sums. *)
Lemma cosine_closed_form x y size :
  0 <= size -> size + 4 < 2 ^ 64 ->
  size <= Z.of_nat (length x) -> size <= Z.of_nat (length y) ->
  SimdCosineNeon.f32_cosine_distance_neon x y size
  = Done (let denom := F32.mul (F32.sqrt (dot_single (operands x x size)))
                               (F32.sqrt (dot_single (operands y y size))) in
          if SFeqb denom F32.zero then F64.zero
          else f32_to_f64 (F32.div (dot_single (operands x y size)) denom)).
Proof.
  intros H0 Hb Hx Hy. unfold SimdCosineNeon.f32_cosine_distance_neon.
  pose proof (operands_length x y size H0 Hx Hy) as Hlen.
  destruct (operands_xx x y size H0 Hx Hy) as [Exx Eyy].
  assert (Hw : forall z, 0 <= z <= size + 4 -> wrap64 z = z)
    by (intros; apply wrap64_small; lia).
  destruct (cos_main_loop x y size wrap64 Hw (S (Z.to_nat size)) (operands x y size) 0
              (vmovq_n_f32 F32.zero) (vmovq_n_f32 F32.zero) (vmovq_n_f32 F32.zero))
    as (Hmain & Hcov & Hxx & Hyy);
    [lia | lia | apply covers_operands; lia | lia |].
  pose proof (mac_blocks_length (vmovq_n_f32 F32.zero) (operands x y size)) as Hle.
  unfold dot_single. rewrite Exx, Eyy.
  destruct (mac_blocks (vmovq_n_f32 F32.zero) (operands x y size)) as [a rest].
  destruct (mac_blocks (vmovq_n_f32 F32.zero) ((fun p => (p.1, p.1)) <$> operands x y size))
    as [b restx].
  destruct (mac_blocks (vmovq_n_f32 F32.zero) ((fun p => (p.2, p.2)) <$> operands x y size))
    as [c resty].
  cbn [fst snd] in *. subst restx resty. rewrite Hmain.
  unfold mbind at 1, outcome_bind at 1. cbv beta match.
  rewrite (cos_tail_loop x y size wrap64 Hw rest); [|lia|lia|assumption|lia].
  cbn [mbind outcome_bind]. cbv beta match zeta.
  destruct (SFeqb _ _); reflexivity.
Qed.

Lemma cosine_symmetric x y size :
  SimdCosineNeon.f32_cosine_distance_neon x y size
  = SimdCosineNeon.f32_cosine_distance_neon y x size.
Proof.
  set (R := fun s t : float32x4_t * float32x4_t * float32x4_t =>
              s.1.1 = t.1.1 /\ s.1.2 = t.2 /\ s.2 = t.1.2).
  set (Q := fun s t : float32 * float32 * float32 =>
              s.1.1 = t.1.1 /\ s.1.2 = t.2 /\ s.2 = t.1.2).
  unfold SimdCosineNeon.f32_cosine_distance_neon. cbv zeta.
  match goal with
  | |- (for_loop ?fu ?cd ?nx ?b1 0 ?s0 ≫= ?k1) = (for_loop _ _ _ ?b2 0 _ ≫= ?k2) =>
      pose proof (for_loop_rel R cd nx b1 b2) as Hmain0;
      specialize (fun H => Hmain0 H fu 0 s0 s0) as Hmain; clear Hmain0
  end.
  lapply Hmain; clear Hmain.
  2:{ intros i [[a b] c] [[a' b'] c'] (E1 & E2 & E3). simpl in *. subst a' c' b'.
      unfold mbind, outcome_bind.
      destruct (vld1q_cases x i) as [[vx ->]| ->], (vld1q_cases y i) as [[vy ->]| ->];
        simpl; auto.
      unfold R. simpl. rewrite (vmlaq_comm a vy vx). auto. }
  intros Hmain. specialize (Hmain ltac:(unfold R; simpl; auto)).
  destruct (for_loop _ _ _ _ 0 _) as [[i [[a b] c]]| |],
           (for_loop _ _ _ _ 0 _) as [[i' [[a' b'] c']]| |];
    simpl in Hmain; try contradiction; try reflexivity.
  destruct Hmain as (-> & E1 & E2 & E3). cbn [fst snd] in *. subst a' c' b'.
  cbn [mbind outcome_bind].
  match goal with
  | |- (for_loop ?fu ?cd ?nx ?b1 ?i0 ?s0 ≫= ?k1) = (for_loop _ _ _ ?b2 _ ?t0 ≫= ?k2) =>
      pose proof (for_loop_rel Q cd nx b1 b2) as Htail0;
      specialize (fun H => Htail0 H fu i0 s0 t0) as Htail; clear Htail0
  end.
  lapply Htail; clear Htail.
  2:{ intros j [[s1 s2] s3] [[t1 t2] t3] (E1 & E2 & E3). simpl in *. subst t1 t3 t2.
      unfold mbind, outcome_bind.
      destruct (load_f32_cases x j) as [[vx ->]| ->], (load_f32_cases y j) as [[vy ->]| ->];
        simpl; auto.
      unfold Q. simpl. unfold F32.mul at 1. rewrite (SFmul_comm _ _ vx vy). auto. }
  intros Htail. specialize (Htail ltac:(unfold Q; simpl; auto)).
  destruct (for_loop _ _ _ _ i' _) as [[j [[s1 s2] s3]]| |],
           (for_loop _ _ _ _ i' _) as [[j' [[t1 t2] t3]]| |];
    simpl in Htail; try contradiction; try reflexivity.
  destruct Htail as (_ & E1 & E2 & E3). cbn [fst snd] in *. subst t1 t3 t2.
  cbn [mbind outcome_bind].
  unfold F32.mul. rewrite (SFmul_comm _ _ (F32.sqrt s2)). reflexivity.
Qed.

(** ** What the kernels read and write *)

Lemma wrap32_le z : 0 <= z -> 0 <= wrap32 z <= z.
Proof.
  intros. unfold wrap32. split; [apply Z.mod_pos_bound; lia|].
  apply Z.mod_le; lia.
Qed.

Lemma wrap64_le z : 0 <= z -> 0 <= wrap64 z <= z.
Proof.
  intros. unfold wrap64. split; [apply Z.mod_pos_bound; lia|].
  apply Z.mod_le; lia.
Qed.

Lemma load_f32_done (a : list float32) i v :
  load_f32 a i = Done v -> 0 <= i -> i < Z.of_nat (length a).
Proof.
  unfold load_f32. intros H Hi. destruct (a !! Z.to_nat i) eqn:E; [|discriminate].
  apply lookup_lt_Some in E. lia.
Qed.

Lemma store_f32_done (a : list float32) i v a' :
  store_f32 a i v = Done a' -> length a' = length a.
Proof.
  unfold store_f32. intros H. destruct (decide _); [|discriminate].
  inversion H. apply length_insert.
Qed.

Lemma vld1q_done (a : list float32) i v :
  vld1q_f32 a i = Done v -> 0 <= i -> i + 4 <= Z.of_nat (length a).
Proof.
  unfold vld1q_f32. intros H Hi. unfold mbind, outcome_bind in H.
  destruct (load_f32 a i); try discriminate.
  destruct (load_f32 a (i + 1)); try discriminate.
  destruct (load_f32 a (i + 2)); try discriminate.
  destruct (load_f32 a (i + 3)) eqn:E; try discriminate.
  apply load_f32_done in E; lia.
Qed.

Lemma vst1q_done (a : list float32) i x a' :
  vst1q_f32 a i x = Done a' -> length a' = length a.
Proof.
  unfold vst1q_f32. intros H. unfold mbind, outcome_bind in H.
  destruct (store_f32 a i _) as [a1| |] eqn:E1; try discriminate.
  destruct (store_f32 a1 _ _) as [a2| |] eqn:E2; try discriminate.
  destruct (store_f32 a2 _ _) as [a3| |] eqn:E3; try discriminate.
  apply store_f32_done in E1, E2, E3, H. congruence.
Qed.

(** Splitting [m ≫= k = Done r] into the run of [m] and the rest. *)
Ltac bind_done H E :=
  match type of H with
  | (?m ≫= _) = Done _ =>
      destruct m eqn:E; cbn [mbind outcome_bind] in H; [|discriminate H|discriminate H]
  end.

Lemma dot_done_bounds x y size r :
  0 <= size -> CosineNeon.f32_dot_product_neon x y size = Done r ->
  size <= Z.of_nat (length x) /\ size <= Z.of_nat (length y).
Proof.
  intros Hs H. unfold CosineNeon.f32_dot_product_neon in H. cbv zeta in H.
  set (Inv := fun (i : Z) (_ : float32x4_t) =>
                0 <= i <= Z.of_nat (length x) /\ i <= Z.of_nat (length y)).
  set (Inv' := fun (i : Z) (_ : float32) =>
                0 <= i <= Z.of_nat (length x) /\ i <= Z.of_nat (length y)).
  bind_done H E1. destruct a as [i acc].
  apply (for_loop_partial Inv) in E1 as [Hi _]; [| |unfold Inv; lia].
  2:{ intros j s s' Hj _ Hb. unfold Inv in *. bind_done Hb Ex. bind_done Hb Ey.
      apply vld1q_done in Ex, Ey; try lia.
      pose proof (wrap64_le (j + 4)). lia. }
  bind_done H E2. destruct a as [i' sum].
  apply (for_loop_partial Inv') in E2 as [Hi' Hex]; [| |exact Hi].
  2:{ intros j s s' Hj _ Hb. unfold Inv' in *. bind_done Hb Ex. bind_done Hb Ey.
      apply load_f32_done in Ex, Ey; try lia.
      pose proof (wrap64_le (j + 1)). lia. }
  unfold Inv' in Hi'. apply Z.ltb_ge in Hex. lia.
Qed.

Lemma norm_neon_done table (v : list float32) d v' :
  0 <= d -> CosineNeon.norm_neon table v d = Done v' ->
  d <= Z.of_nat (length v) /\ length v' = length v.
Proof.
  intros Hd H. unfold CosineNeon.norm_neon in H. cbv zeta in H.
  set (Inv := fun (A : Type) (i : Z) (_ : A) => 0 <= i <= Z.of_nat (length v)).
  set (Len := fun (i : Z) (s : list float32) => length s = length v).
  bind_done H E1. destruct a as [i acc].
  apply (for_loop_partial (Inv _)) in E1 as [Hi _]; [| |unfold Inv; lia].
  2:{ intros j s s' Hj _ Hb. unfold Inv in *. bind_done Hb Ex.
      apply vld1q_done in Ex; try lia.
      pose proof (wrap32_le (j + 4)). lia. }
  bind_done H E2. destruct a as [i' sum].
  apply (for_loop_partial (Inv _)) in E2 as [Hi' Hex]; [| |exact Hi].
  2:{ intros j s s' Hj _ Hb. unfold Inv in *. bind_done Hb Ex.
      apply load_f32_done in Ex; try lia.
      pose proof (wrap32_le (j + 1)). lia. }
  unfold Inv in Hi'. apply Z.ltb_ge in Hex. split; [lia|].
  bind_done H E3. destruct a as [i3 v3].
  apply (for_loop_partial Len) in E3 as [H3 _]; [| |reflexivity].
  2:{ intros j s s' Hj _ Hb. unfold Len in *. bind_done Hb Ex.
      apply vst1q_done in Hb. congruence. }
  bind_done H E4. destruct a as [i4 v4].
  apply (for_loop_partial Len) in E4 as [H4 _]; [| |exact H3].
  2:{ intros j s s' Hj _ Hb. unfold Len in *. bind_done Hb Ex.
      apply store_f32_done in Hb. congruence. }
  inversion H; subst. exact H4.
Qed.

(** ** Loading an arbitrary file *)

Lemma u8_range b : 0 <= u8 b < 2 ^ 8.
Proof. destruct b; vm_compute; split; congruence. Qed.

Lemma load_u8_done buf p b :
  load_u8 buf p = Done b -> 0 <= p < Z.of_nat (length buf) /\ 0 <= b < 2 ^ 8.
Proof.
  unfold load_u8. intros H. destruct (Z.ltb_spec p 0); [discriminate|].
  destruct (buf !! Z.to_nat p) as [x|] eqn:E; [|discriminate].
  apply lookup_lt_Some in E. inversion H. pose proof (u8_range x). lia.
Qed.

Lemma read_u32_done buf p w :
  read_u32 buf p = Done w ->
  0 <= p /\ p + 4 <= Z.of_nat (length buf) /\ 0 <= w < 2 ^ 32.
Proof.
  unfold read_u32. intros H.
  bind_done H E0. bind_done H E1. bind_done H E2. bind_done H E3.
  apply load_u8_done in E0, E1, E2, E3. inversion H. unfold le32. lia.
Qed.

Lemma read_str_done buf p s p' :
  read_str buf p = Done (s, p') ->
  0 <= p /\ p + 4 <= Z.of_nat (length buf) /\ s = p + 4 /\ s <= p'.
Proof.
  unfold read_str. intros H. bind_done H E. apply read_u32_done in E.
  inversion H. lia.
Qed.

Lemma words_of_bound (bs : list byte) : (4 * length (words_of bs) <= length bs)%nat.
Proof.
  remember (length bs) as n eqn:Hn. revert bs Hn.
  induction n as [n IH] using lt_wf_ind. intros bs Hn.
  destruct bs as [|b0 [|b1 [|b2 [|b3 rest]]]]; simpl in *; try lia.
  specialize (IH (length rest) ltac:(lia) rest eq_refl). lia.
Qed.

Lemma f32_view_bound buf p :
  0 <= p <= Z.of_nat (length buf) ->
  p + 4 * Z.of_nat (length (f32_view buf p)) <= Z.of_nat (length buf).
Proof.
  intros Hp. unfold f32_view. rewrite length_fmap.
  pose proof (words_of_bound (drop (Z.to_nat p) buf)) as H.
  rewrite length_drop in H. lia.
Qed.

Lemma write_f32s_length buf p fs :
  0 <= p -> p + 4 * Z.of_nat (length fs) <= Z.of_nat (length buf) ->
  length (write_f32s buf p fs) = length buf.
Proof.
  intros Hp Hb. unfold write_f32s.
  rewrite !length_app, length_take, length_drop.
  fold (bytes_of_f32s fs). rewrite bytes_of_f32s_length. lia.
Qed.

Lemma norm_in_arena_done table buf p d buf' :
  0 <= p <= Z.of_nat (length buf) -> 0 <= d ->
  norm_in_arena table buf p d = Done buf' ->
  length buf' = length buf /\ p + 4 * d <= Z.of_nat (length buf).
Proof.
  intros Hp Hd H. unfold norm_in_arena in H. bind_done H E.
  apply norm_neon_done in E as [Hle Hlen]; [|assumption].
  pose proof (f32_view_bound buf p Hp) as Hv.
  inversion H. split; [|lia].
  apply write_f32s_length; [lia|]. rewrite length_take. lia.
Qed.

Lemma load_record_done table buf p cs buf' p' cs' :
  load_record table (buf, p, cs) = Done (buf', p', cs') ->
  4 <= p ->
  length buf' = length buf /\ p <= p' <= Z.of_nat (length buf) /\
  exists c, cs' = cs ++ [c] /\ chunk_in_bounds (Z.of_nat (length buf)) c /\
    p + 4 = id c /\ p' = emb c + 4 * dim c /\
    0 <= start_ln c < 2 ^ 32 /\ 0 <= end_ln c < 2 ^ 32.
Proof.
  intros H Hp. unfold load_record in H.
  bind_done H E1. destruct a as [c_id p1]. apply read_str_done in E1.
  bind_done H E2. destruct a as [c_parent p2]. apply read_str_done in E2.
  bind_done H E3. destruct a as [c_file p3]. apply read_str_done in E3.
  bind_done H E4. destruct a as [c_ext p4]. apply read_str_done in E4.
  bind_done H E5. apply read_u32_done in E5.
  bind_done H E6. apply read_u32_done in E6.
  bind_done H E7. destruct a1 as [c_text p7]. apply read_str_done in E7.
  bind_done H E8. apply read_u32_done in E8.
  bind_done H E9. apply norm_in_arena_done in E9 as [Hlen Hemb]; [|lia|lia].
  inversion H; subst buf' p' cs'. clear H.
  split; [assumption|]. split; [lia|].
  eexists. split; [reflexivity|]. unfold chunk_in_bounds. cbn. lia.
Qed.

Lemma consecutive_snoc size c : forall cs p,
  consecutive size p cs -> id c = records_end p cs + 4 -> chunk_in_bounds size c ->
  consecutive size p (cs ++ [c]).
Proof.
  induction cs as [|c0 cs IH]; intros p Hcs Hid Hc; simpl in *; [auto|].
  destruct Hcs as (H1 & H2 & H3). auto.
Qed.

Lemma records_end_snoc p cs c :
  records_end p (cs ++ [c]) = emb c + 4 * dim c.
Proof. unfold records_end. rewrite foldl_app. reflexivity. Qed.

Lemma consecutive_Forall size : forall cs p,
  consecutive size p cs -> Forall (chunk_in_bounds size) cs.
Proof.
  induction cs as [|c cs IH]; intros p H; [constructor|].
  destruct H as (_ & Hc & Hcs). constructor; eauto.
Qed.

(** Whatever the file holds, a load that ends without an access outside
    the buffer leaves an arena of the size of the file and a table of [N]
    consecutive records that lie inside it. *)
Lemma ci_load_done table file ci :
  ci_load table (Some file) = Done (Some ci) ->
  length (arena ci) = length file /\ read_u32 file 0 = Done (N ci) /\
  Z.of_nat (length (chunks ci)) = N ci /\ N ci < 2 ^ 32 /\
  consecutive (Z.of_nat (length file)) 4 (chunks ci).
Proof.
  intros H. unfold ci_load in H. bind_done H EN. rename a into n.
  pose proof (read_u32_done _ _ _ EN) as (_ & _ & Hn).
  bind_done H Eloop. destruct a as [i [[buf p] cs]].
  set (Inv := fun (i : Z) (st : list byte * Z * list Chunk) =>
    let '(buf, p, cs) := st in
    0 <= i <= n /\ length buf = length file /\ Z.of_nat (length cs) = i /\
    p = records_end 4 cs /\ 4 <= p /\ consecutive (Z.of_nat (length file)) 4 cs).
  apply (for_loop_partial Inv) in Eloop as [Hinv Hex].
  - unfold Inv in Hinv. destruct Hinv as (Hi & Hlen & Hcs & _ & _ & Hcons).
    apply Z.ltb_ge in Hex. inversion H; subst ci; cbn. clear H.
    repeat split; try assumption; lia.
  - intros j [[b q] l] [[b' q'] l'] Hinv Hc Hb. unfold Inv in *.
    destruct Hinv as (Hj & Hlen & Hl & Hq & Hq4 & Hcons).
    apply Z.ltb_lt in Hc.
    apply load_record_done in Hb as (Hlen' & Hqq & c & -> & Hcb & Hid & Hq' & _);
      [|assumption].
    rewrite Hlen in Hcb. rewrite wrap32_small by lia.
    split; [lia|]. split; [congruence|].
    split; [rewrite length_app; simpl; lia|].
    split; [rewrite records_end_snoc; assumption|]. split; [lia|].
    apply consecutive_snoc; [assumption|lia|assumption].
  - unfold Inv. simpl. unfold records_end. simpl. repeat split; lia.
Qed.

(** An index that [ci_load] returned meets what [ci_search] requires, for
    every query of [dim] floats. *)
Lemma loaded_wf_search table file ci q dim :
  ci_load table (Some file) = Done (Some ci) ->
  0 <= dim < 2 ^ 32 -> dim <= Z.of_nat (length q) ->
  wf_search ci q dim.
Proof.
  intros H Hdim Hq.
  destruct (ci_load_done table file ci H) as (Hlen & _ & HN & HN32 & Hcons).
  split; try assumption; [lia|].
  intros c Hc He. unfold eligible in He. unfold emb_floats, f32_view.
  apply consecutive_Forall in Hcons.
  pose proof (proj1 (Forall_forall _ _) Hcons c Hc) as Hb.
  unfold chunk_in_bounds in Hb.
  rewrite length_fmap.
  pose proof (words_of_length (drop (Z.to_nat (emb c)) (arena ci)) (Z.to_nat dim)) as Hw.
  rewrite length_drop, Hlen in Hw. lia.
Qed.

(** ** Files that are too short or too long *)

Lemma read_u32_short buf p :
  0 <= p -> Z.of_nat (length buf) < p + 4 -> read_u32 buf p = OutOfBounds.
Proof.
  intros Hp Hlen. destruct (read_u32 buf p) as [w| |] eqn:E; [|reflexivity|].
  - apply read_u32_done in E. lia.
  - unfold read_u32, load_u8 in E. unfold mbind, outcome_bind in E.
    repeat match type of E with
    | context [if ?b then _ else _] => destruct b
    | context [match ?l !! ?k with _ => _ end] => destruct (l !! k)
    end; discriminate.
Qed.

Lemma load_step_tail table tail rs i st :
  Forall wf_source rs -> load_inv_tail tail rs i st -> i < Z.of_nat (length rs) ->
  exists st', load_record table st = Done st' /\ load_inv_tail tail rs (i + 1) st'.
Proof.
  intros Hwf (Hi & seen & Hseen & ->) Hlt.
  destruct (lookup_lt_is_Some_2 rs (Z.to_nat i) ltac:(lia)) as [r Hr].
  assert (Hdrop : drop (Z.to_nat i) rs = r :: drop (Z.to_nat (i + 1)) rs).
  { replace (Z.to_nat (i + 1)) with (S (Z.to_nat i)) by lia.
    by apply drop_S. }
  assert (Htake : take (Z.to_nat (i + 1)) rs = take (Z.to_nat i) rs ++ [r]).
  { replace (Z.to_nat (i + 1)) with (S (Z.to_nat i)) by lia. by apply take_S_r. }
  pose proof (proj1 (Forall_lookup _ _) Hwf _ _ Hr) as Hwr.
  set (hdr := bytes_of_u32 (Z.of_nat (length rs))).
  set (post := (drop (Z.to_nat (i + 1)) rs ≫= encode_record) ++ tail).
  destruct (load_record_spec table (hdr ++ (seen ≫= encode_record)) r post
              (layout 4 (take (Z.to_nat i) rs)) Hwr) as (r' & Hsame & Hload).
  assert (Hp : Z.of_nat (length (hdr ++ (seen ≫= encode_record)))
               = 4 + records_size (take (Z.to_nat i) rs)).
  { rewrite length_app, Nat2Z.inj_add, encode_records_length,
      (same_fields_sizes _ _ Hseen). reflexivity. }
  rewrite Hp in Hload.
  rewrite Hdrop, bind_cons.
  replace (hdr ++ (seen ≫= encode_record)
             ++ (encode_record r ++ (drop (Z.to_nat (i + 1)) rs ≫= encode_record)) ++ tail)
    with ((hdr ++ (seen ≫= encode_record)) ++ encode_record r ++ post)
    by (unfold post; by rewrite <- !app_assoc).
  rewrite Hload. eexists. split; [reflexivity|].
  split; [lia|]. exists (seen ++ [r']). split.
  - rewrite Htake. apply Forall2_app; [assumption|]. by apply Forall2_cons.
  - rewrite Htake, bind_app, bind_cons, bind_nil, app_nil_r, layout_app, records_size_app.
    f_equal. f_equal; [unfold hdr, post; by rewrite <- !app_assoc | simpl; lia].
Qed.

Lemma ci_load_tail table rs tail :
  Z.of_nat (length rs) < 2 ^ 32 -> Forall wf_source rs ->
  exists rs', Forall2 same_fields rs rs' /\
    ci_load table (Some (encode_file rs ++ tail))
    = Done (Some {| arena := encode_file rs' ++ tail; N := Z.of_nat (length rs);
                    chunks := layout 4 rs |}).
Proof.
  intros Hn Hwf. unfold ci_load, encode_file.
  rewrite (read_u32_at _ 0 [] (Z.of_nat (length rs)) ((rs ≫= encode_record) ++ tail));
    [| by rewrite <- app_assoc | reflexivity | lia].
  cbn [mbind outcome_bind].
  run_loop (load_inv_tail tail rs) (fun i => Z.to_nat (Z.of_nat (length rs) - i)).
  - intros i st Hinv Hc. apply Z.ltb_lt in Hc.
    destruct (load_step_tail table tail rs i st Hwf Hinv Hc) as (st' & Hst' & Hinv').
    pose proof Hinv as [Hi _].
    exists st'. rewrite wrap32_small by lia.
    split; [assumption|]. split; [assumption|]. lia.
  - split; [lia|]. exists []. split; [constructor|].
    rewrite <- !app_assoc. reflexivity.
  - lia.
  - apply Z.ltb_ge in Hexit. destruct Hinv as (Hi & seen & Hseen & ->).
    assert (iend = Z.of_nat (length rs)) as -> by lia.
    rewrite Nat2Z.id, take_ge in * by lia.
    rewrite drop_ge by lia. rewrite bind_nil, app_nil_l.
    exists seen. split; [assumption|].
    rewrite (Forall2_length _ _ _ Hseen). by rewrite <- !app_assoc.
Qed.

(** ** What the selector holds *)

Section Trace.
Variables (ci : ChunkIndex) (q : list float32) (dim K : Z).
Hypothesis HK : 0 <= K < 2 ^ 32.

Lemma score_and_offer_done i st st' :
  score_and_offer ci q dim K i st = Done st' ->
  exists sc, score_at ci q dim i = Done sc /\ heap_offer K sc i st = Done st'.
Proof.
  unfold score_and_offer, score_at. intros H.
  bind_done H E1. bind_done H E2. exists a0. cbn [mbind outcome_bind]. auto.
Qed.

(** Whatever [heap_offer] does, the entries it keeps are among the old
    ones and the candidate. *)
Lemma heap_offer_sub sc i st st' :
  wf_state K st -> heap_offer K sc i st = Done st' ->
  wf_state K st' /\ retained st' ⊆+ retained st ++ [{| score := sc; idx := i |}].
Proof.
  intros Hwf Hoff.
  destruct (heap_offer_spec K sc i st HK Hwf) as (st1 & Hoff1 & Hwf1 & _ & _ & Hcases).
  rewrite Hoff in Hoff1. injection Hoff1 as <-. split; [assumption|].
  destruct Hcases as [(_ & _ & Hr)|[(Hs1 & Hs2 & Hh & _)|(Hs1 & Hs2 & root & rest & Hh & _ & Hr)]].
  - by rewrite Hr.
  - unfold retained. rewrite Hh, Hs2, <- Hs1. by apply submseteq_inserts_r.
  - rewrite Hr. unfold retained. rewrite Hh.
    destruct Hwf as [Hlen _]. rewrite Hh in Hlen.
    rewrite take_ge by lia.
    change ({| score := sc; idx := i |} :: rest)
      with ([{| score := sc; idx := i |}] ++ rest).
    rewrite (Permutation_app_comm [_] rest).
    apply submseteq_skips_r. by apply submseteq_cons.
Qed.

Lemma iterate_offers : forall l st st',
  wf_state K st -> iterate (score_and_offer ci q dim K) l st = Done st' ->
  wf_state K st' /\
  exists ps, idx <$> ps = l /\ Forall (scored ci q dim) ps /\
    retained st' ⊆+ retained st ++ ps.
Proof.
  induction l as [|i l IH]; intros st st' Hwf Hrun; simpl in Hrun.
  - injection Hrun as <-. split; [assumption|]. exists []. rewrite app_nil_r. auto.
  - bind_done Hrun E. rename a into st1.
    apply score_and_offer_done in E as (sc & Hsc & Hoff).
    apply heap_offer_sub in Hoff as [Hwf1 Hsub]; [|assumption].
    destruct (IH st1 st' Hwf1 Hrun) as (Hwf' & ps & Hps & Hsc' & Hsub').
    split; [assumption|]. exists ({| score := sc; idx := i |} :: ps).
    split; [by rewrite <- Hps|]. split; [constructor; assumption|].
    etrans; [exact Hsub'|].
    change ({| score := sc; idx := i |} :: ps) with ([{| score := sc; idx := i |}] ++ ps).
    rewrite app_assoc. by apply submseteq_skips_r.
Qed.
End Trace.

Lemma eligible_from_lower dim cs : forall i j, j ∈ eligible_from dim i cs -> i <= j.
Proof.
  induction cs as [|c cs IH]; intros i j Hj; simpl in Hj; [by apply elem_of_nil in Hj|].
  destruct (decide (eligible dim c)).
  - apply elem_of_cons in Hj as [->|Hj]; [lia|]. apply IH in Hj. lia.
  - apply IH in Hj. lia.
Qed.

Lemma eligible_from_NoDup dim cs : forall i, NoDup (eligible_from dim i cs).
Proof.
  induction cs as [|c cs IH]; intros i; simpl; [constructor|].
  destruct (decide (eligible dim c)); [|apply IH].
  constructor; [|apply IH]. intros Hin. apply eligible_from_lower in Hin. lia.
Qed.

Lemma submseteq_NoDup {A : Type} (l k : list A) : l ⊆+ k -> NoDup k -> NoDup l.
Proof.
  intros Hsub Hk. apply submseteq_Permutation in Hsub as [k' Hp].
  rewrite Hp in Hk. by apply NoDup_app in Hk as [? _].
Qed.

(** The final state of the scan, with the state reached after the scored
    records were offered one by one. *)
Lemma ci_search_trace ci q dim K past_end :
  0 <= K < 2 ^ 32 -> wf_search ci q dim ->
  exists st, scan_inv ci dim K (N ci) st /\
    iterate (score_and_offer ci q dim K) (eligible_indices ci dim)
      (search_start K past_end) = Done st /\
    ci_search ci q dim K past_end
    = Done {| count := sz st; out_i := idx <$> retained st;
              out_s := score <$> retained st; heap_oob := stray st |}.
Proof.
  intros HK Hwf.
  destruct (ci_search_spec ci q dim K HK Hwf past_end) as (st & Hinv & Hscan & Hrun).
  exists st. split; [assumption|]. split; [|assumption].
  rewrite scan_skips in Hscan by apply Hwf.
  bind_done Hscan E. by injection Hscan as ->.
Qed.

Lemma search_start_wf K past_end : 0 <= K -> wf_state K (search_start K past_end).
Proof. intros. split; simpl; [rewrite length_replicate|]; lia. Qed.

Lemma ci_search_scored ci q dim K past_end :
  0 <= K < 2 ^ 32 -> wf_search ci q dim ->
  exists r, ci_search ci q dim K past_end = Done r /\
    NoDup (out_i r) /\
    Forall2 (fun i s => score_at ci q dim i = Done s) (out_i r) (out_s r).
Proof.
  intros HK Hwf.
  destruct (ci_search_trace ci q dim K past_end HK Hwf) as (st & _ & Hit & Hrun).
  eexists. split; [exact Hrun|]. cbn [out_i out_s].
  apply iterate_offers in Hit as (_ & ps & Hps & Hsc & Hsub);
    [|assumption|apply search_start_wf; lia].
  cbn in Hsub.
  split.
  - apply (submseteq_NoDup _ (idx <$> ps)); [by apply fmap_submseteq|].
    rewrite Hps. apply eligible_from_NoDup.
  - apply Forall2_fmap, Forall_Forall2_diag.
    apply Forall_forall. intros p Hp.
    apply (elem_of_submseteq _ _ _ Hp) in Hsub.
    by apply (proj1 (Forall_forall _ _) Hsc).
Qed.

(** ** The selector before it is full, and with a NaN at the root *)

Lemma ltb_nan_r x : F64.ltb x S754_nan = false.
Proof. by destruct x. Qed.

Lemma ltb_nan_l x : F64.ltb S754_nan x = false.
Proof. reflexivity. Qed.

(** While room is left after the candidate, it is stored behind the
    entries held so far. *)
Lemma heap_offer_room K sc i st :
  0 <= K < 2 ^ 32 -> wf_state K st -> sz st + 1 < K ->
  heap_offer K sc i st
  = Done {| heap := <[Z.to_nat (sz st) := {| score := sc; idx := i |}]> (heap st);
            sz := sz st + 1; beyond := beyond st; stray := stray st |}.
Proof.
  intros HK [Hlen Hsz] Hroom. unfold heap_offer.
  destruct (Z.ltb_spec (sz st) K); [|lia].
  rewrite heap_set_lookup by lia. cbn [mbind outcome_bind].
  rewrite wrap32_small by lia.
  destruct (Z.eqb_spec (sz st + 1) K); [lia|reflexivity].
Qed.

Lemma retained_room K sc i st :
  wf_state K st -> sz st < K ->
  retained {| heap := <[Z.to_nat (sz st) := {| score := sc; idx := i |}]> (heap st);
              sz := sz st + 1; beyond := beyond st; stray := stray st |}
  = retained st ++ [{| score := sc; idx := i |}].
Proof.
  intros [Hlen Hsz] Hlt. unfold retained. cbn [heap sz].
  replace (Z.to_nat (sz st + 1)) with (S (Z.to_nat (sz st))) by lia.
  apply take_S_insert. lia.
Qed.

Section Fill.
Variables (ci : ChunkIndex) (q : list float32) (dim K : Z).
Hypothesis HK : 0 <= K < 2 ^ 32.

Lemma iterate_fill : forall l st st',
  wf_state K st -> sz st + Z.of_nat (length l) < K ->
  iterate (score_and_offer ci q dim K) l st = Done st' ->
  idx <$> retained st' = (idx <$> retained st) ++ l.
Proof.
  induction l as [|i l IH]; intros st st' Hwf Hroom Hrun; simpl in Hrun.
  - injection Hrun as <-. by rewrite app_nil_r.
  - bind_done Hrun E. rename a into st1. simpl in Hroom.
    apply (score_and_offer_done ci q dim K) in E as (sc & _ & Hoff).
    rewrite heap_offer_room in Hoff by (first [assumption | lia]).
    injection Hoff as <-.
    apply IH in Hrun.
    + rewrite Hrun, (retained_room K) by (first [assumption | lia]).
      rewrite fmap_app. cbn [fmap list_fmap idx]. by rewrite <- app_assoc.
    + destruct Hwf as [Hlen Hsz]. split; cbn; [rewrite length_insert|]; lia.
    + cbn. lia.
Qed.
End Fill.

(** With a NaN score at the root, [sift_down] leaves the array as it
    is ... *)
Lemma sift_down_nan_root root rest K :
  score root = S754_nan -> K <= Z.of_nat (length (root :: rest)) ->
  sift_down (root :: rest) K = Done (root :: rest).
Proof.
  intros Hnan HK. unfold sift_down. set (h := root :: rest) in *.
  cbn [sift_loop]. change (2 * 0 + 1) with 1.
  destruct (Z.geb_spec 1 K) as [|Hc]; [reflexivity|].
  assert (exists c, 0 < c < K /\
            (if 1 + 1 <? K
             then r ← heap_at h (1 + 1);
                  l ← heap_at h 1;
                  Done (if F64.ltb (score r) (score l) then 1 + 1 else 1)
             else Done 1) = Done c) as (c & HcK & ->).
  { destruct (Z.ltb_spec (1 + 1) K).
    - destruct (heap_lookup_lt h (1 + 1) ltac:(lia)) as [r Hr].
      destruct (heap_lookup_lt h 1 ltac:(lia)) as [l Hl].
      rewrite (heap_at_lookup h (1 + 1) r ltac:(lia) Hr),
        (heap_at_lookup h 1 l ltac:(lia) Hl).
      cbn [mbind outcome_bind]. destruct (F64.ltb _ _); eexists; (split; [|reflexivity]); lia.
    - exists 1. split; [lia|reflexivity]. }
  destruct (heap_lookup_lt h c ltac:(lia)) as [hc Hhc].
  cbn [mbind outcome_bind].
  rewrite (heap_at_lookup h c hc ltac:(lia) Hhc). cbn [mbind outcome_bind].
  change (heap_at h 0) with (Done (A := Pair) root). cbn [mbind outcome_bind].
  rewrite Hnan, ltb_nan_r. reflexivity.
Qed.

(** ... and so does the loop that builds the heap. *)
Lemma build_heap_fixed h K :
  0 <= K < 2 ^ 32 -> sift_down h (to_int K) = Done h -> build_heap h K = Done h.
Proof.
  intros HK Hs. unfold build_heap.
  set (p0 := to_int (wrap32 (K - 2) / 2)).
  destruct (for_loop_inv (fun p h' => -1 <= p /\ h' = h)
              (fun p => Z.to_nat (p + 1))
              (fun p => 0 <=? p) (fun p => p - 1)
              (fun _ h => sift_down h (to_int K))) with
    (fuel := S (Z.to_nat (p0 + 1))) (i := p0) (s := h) as (p' & h' & Hrun & [_ Hp] & _).
  - intros p s [Hp ->] Hc. apply Z.leb_le in Hc.
    exists h. repeat split; [assumption|lia|lia].
  - split; [|reflexivity]. unfold p0, to_int, wrap32.
    pose proof (Z.mod_pos_bound (K - 2) (2 ^ 32) ltac:(lia)).
    assert (0 <= (K - 2) mod 2 ^ 32 / 2) by (apply Z.div_pos; lia).
    destruct (Z.ltb_spec ((K - 2) mod 2 ^ 32 / 2) (2 ^ 31)); [lia|].
    assert ((K - 2) mod 2 ^ 32 / 2 < 2 ^ 31) by (apply Z.div_lt_upper_bound; lia).
    lia.
  - lia.
  - rewrite Hrun. cbn [fmap outcome_fmap]. by rewrite Hp.
Qed.

(** A selector whose first slot holds a NaN score. *)
Lemma heap_offer_frozen K sc i st root rest :
  0 <= K < 2 ^ 32 -> wf_state K st -> 0 < sz st ->
  heap st = root :: rest -> score root = S754_nan ->
  exists st', heap_offer K sc i st = Done st' /\ wf_state K st' /\ 0 < sz st' /\
    (exists rest', heap st' = root :: rest') /\
    retained st' = take (Z.to_nat K) (retained st ++ [{| score := sc; idx := i |}]).
Proof.
  intros HK [Hlen Hsz] Hpos Hh Hnan. unfold heap_offer.
  destruct (Z.ltb_spec (sz st) K) as [Hlt|Hge].
  - rewrite heap_set_lookup by lia. cbn [mbind outcome_bind].
    rewrite wrap32_small by lia.
    set (h1 := <[Z.to_nat (sz st) := {| score := sc; idx := i |}]> (heap st)).
    assert (Hh1 : h1 = root :: <[Nat.pred (Z.to_nat (sz st)) := {| score := sc; idx := i |}]> rest).
    { unfold h1. rewrite Hh. destruct (Z.to_nat (sz st)) eqn:E; [lia|]. reflexivity. }
    assert (Hlen1 : Z.of_nat (length h1) = K) by (unfold h1; rewrite length_insert; lia).
    assert (Hret : forall b s,
              retained {| heap := h1; sz := sz st + 1; beyond := b; stray := s |}
              = take (Z.to_nat K) (retained st ++ [{| score := sc; idx := i |}])).
    { intros b s. rewrite <- (retained_room K sc i st) by (first [split; lia | lia]).
      unfold retained. cbn [heap sz]. fold h1.
      rewrite take_take. f_equal. lia. }
    destruct (Z.eqb_spec (sz st + 1) K) as [Hfull|Hnot].
    + rewrite build_heap_fixed; [|assumption|].
      2:{ rewrite Hh1. apply sift_down_nan_root; [assumption|].
          rewrite <- Hh1. pose proof (to_int_le K). lia. }
      cbn [mbind outcome_bind]. eexists. split; [reflexivity|].
      split; [split; cbn; lia|]. split; [cbn; lia|].
      split; [cbn; rewrite Hh1; eauto|]. apply Hret.
    + eexists. split; [reflexivity|].
      split; [split; cbn; lia|]. split; [cbn; lia|].
      split; [cbn; rewrite Hh1; eauto|]. apply Hret.
  - rewrite Hh. rewrite Hnan, ltb_nan_l.
    exists st. split; [reflexivity|]. split; [split; lia|]. split; [assumption|].
    split; [eauto|].
    assert (Hr : length (retained st) = Z.to_nat K).
    { unfold retained. rewrite length_take. lia. }
    rewrite take_app_le by lia. rewrite take_ge by lia. reflexivity.
Qed.

Lemma take_take_app {A : Type} (n : nat) (a b : list A) :
  take n (take n a ++ b) = take n (a ++ b).
Proof.
  destruct (decide (n <= length a)%nat).
  - rewrite !take_app_le by (rewrite ?length_take; lia). by rewrite take_take, Nat.min_id.
  - by rewrite (take_ge a) by lia.
Qed.

Section Frozen.
Variables (ci : ChunkIndex) (q : list float32) (dim K : Z).
Hypothesis HK : 0 <= K < 2 ^ 32.

Lemma iterate_frozen : forall l st st' root rest,
  wf_state K st -> 0 < sz st -> heap st = root :: rest -> score root = S754_nan ->
  iterate (score_and_offer ci q dim K) l st = Done st' ->
  idx <$> retained st' = take (Z.to_nat K) ((idx <$> retained st) ++ l).
Proof.
  induction l as [|i l IH]; intros st st' root rest Hwf Hpos Hh Hnan Hrun;
    simpl in Hrun.
  - injection Hrun as <-. rewrite app_nil_r, take_ge; [reflexivity|].
    rewrite length_fmap. unfold retained. rewrite length_take. destruct Hwf. lia.
  - bind_done Hrun E. rename a into st1.
    apply (score_and_offer_done ci q dim K) in E as (sc & _ & Hoff).
    destruct (heap_offer_frozen K sc i st root rest HK Hwf Hpos Hh Hnan)
      as (st2 & Hoff2 & Hwf2 & Hpos2 & [rest2 Hh2] & Hret).
    rewrite Hoff in Hoff2. injection Hoff2 as <-.
    rewrite (IH st1 st' root rest2 Hwf2 Hpos2 Hh2 Hnan Hrun).
    rewrite Hret, fmap_take, fmap_app. cbn [fmap list_fmap idx].
    rewrite take_take_app. by rewrite <- app_assoc.
Qed.
End Frozen.

Lemma heap_offer_first_nan K i past_end :
  0 < K < 2 ^ 32 ->
  heap_offer K S754_nan i (search_start K past_end)
  = Done {| heap := {| score := S754_nan; idx := i |}
                      :: replicate (Nat.pred (Z.to_nat K)) zero_pair;
            sz := 1; beyond := past_end; stray := false |}.
Proof.
  intros HK. unfold heap_offer, search_start. cbn [sz heap beyond stray].
  destruct (Z.ltb_spec 0 K); [|lia].
  rewrite heap_set_lookup by (rewrite ?length_replicate; lia).
  cbn [mbind outcome_bind]. change (wrap32 (0 + 1)) with 1.
  assert (Hh : <[Z.to_nat 0 := {| score := S754_nan; idx := i |}]>
                 (replicate (Z.to_nat K) zero_pair)
               = {| score := S754_nan; idx := i |}
                   :: replicate (Nat.pred (Z.to_nat K)) zero_pair).
  { destruct (Z.to_nat K) eqn:E; [lia|]. reflexivity. }
  rewrite Hh.
  destruct (Z.eqb_spec 1 K) as [<-|]; [|reflexivity].
  rewrite build_heap_fixed; [reflexivity|lia|].
  apply sift_down_nan_root; [reflexivity|]. vm_compute. discriminate.
Qed.

(** Fewer eligible records than [K]: the hits are all of them, in the
    order of the corpus. *)
Lemma ci_search_underfull ci q dim K past_end :
  0 <= K < 2 ^ 32 -> wf_search ci q dim ->
  Z.of_nat (length (eligible_indices ci dim)) < K ->
  exists r, ci_search ci q dim K past_end = Done r /\
    out_i r = eligible_indices ci dim.
Proof.
  intros HK Hwf Hfew.
  destruct (ci_search_trace ci q dim K past_end HK Hwf) as (st & _ & Hit & Hrun).
  eexists. split; [exact Hrun|]. cbn [out_i].
  apply (iterate_fill ci q dim K HK) in Hit;
    [exact Hit | apply search_start_wf; lia | cbn; lia].
Qed.

(** The first eligible record scores NaN: the hits are the first [K]
    eligible records, whatever the scores of the others. *)
Lemma ci_search_nan_first ci q dim K past_end i0 rest :
  0 < K < 2 ^ 32 -> wf_search ci q dim ->
  eligible_indices ci dim = i0 :: rest -> score_at ci q dim i0 = Done S754_nan ->
  exists r, ci_search ci q dim K past_end = Done r /\
    out_i r = take (Z.to_nat K) (eligible_indices ci dim).
Proof.
  intros HK Hwf Hel Hnan.
  destruct (ci_search_trace ci q dim K past_end ltac:(lia) Hwf) as (st & _ & Hit & Hrun).
  eexists. split; [exact Hrun|]. cbn [out_i].
  rewrite Hel in Hit |- *. cbn [iterate] in Hit. bind_done Hit E. rename a into st1.
  apply (score_and_offer_done ci q dim K) in E as (sc & Hsc & Hoff).
  rewrite Hnan in Hsc. injection Hsc as <-.
  rewrite heap_offer_first_nan in Hoff by lia. injection Hoff as <-.
  eapply (iterate_frozen ci q dim K ltac:(lia)) in Hit;
    [ | split; cbn; [rewrite length_replicate|]; lia | cbn; lia | reflexivity | reflexivity ].
  exact Hit.
Qed.

(** ** The order of scores *)

Lemma ltb_asym a b : F64.ltb a b = true -> F64.ltb b a = false.
Proof.
  unfold F64.ltb, SFltb. intros H.
  destruct (SFcompare a b) as [[]|] eqn:E; try discriminate.
  by rewrite (SFcompare_antisym_Lt a b E).
Qed.

Ltac cmp_cases :=
  repeat match goal with
  | |- context [(?a ?= ?b)%Z] => destruct (Z.compare_spec a b)
  | H : context [(?a ?= ?b)%Z] |- _ => destruct (Z.compare_spec a b)
  | |- context [(?a ?= ?b)%positive] => destruct (Pos.compare_spec a b)
  | H : context [(?a ?= ?b)%positive] |- _ => destruct (Pos.compare_spec a b)
  end.

(** [a <= b] and [b <= c] give [a <= c], written with the strict test the
    code uses; only the middle score must not be NaN. *)
Lemma ltb_neg_trans a b c :
  b <> S754_nan ->
  F64.ltb b a = false -> F64.ltb c b = false -> F64.ltb c a = false.
Proof.
  unfold F64.ltb, SFltb, SFcompare. intros Hb H1 H2.
  change PosDef.Pos.compare_cont with Pos.compare_cont in *.
  change (Pos.compare_cont Eq) with Pos.compare in *.
  destruct a as [sa|sa| |sa ma ea], b as [sb|sb| |sb mb eb], c as [sc|sc| |sc mc ec];
    try congruence; try reflexivity;
    repeat match goal with s : bool |- _ => destruct s end;
    try reflexivity; try discriminate;
    cmp_cases; simpl in *; try reflexivity; try discriminate; try lia.
Qed.

Lemma ltb_irrefl a : F64.ltb a a = false.
Proof.
  unfold F64.ltb, SFltb, SFcompare.
  change PosDef.Pos.compare_cont with Pos.compare_cont.
  change (Pos.compare_cont Eq) with Pos.compare.
  destruct a as [s|s| |s m e]; try reflexivity; destruct s; try reflexivity;
    rewrite Z.compare_refl, Pos.compare_refl; reflexivity.
Qed.

(** ** [sift_down] on an array that is a heap but for its root *)

Lemma swap_lookup {A : Type} (h : list A) (i c k : nat) hi hc :
  i <> c -> (i < length h)%nat -> (c < length h)%nat ->
  <[c := hi]> (<[i := hc]> h) !! k
  = if decide (k = c) then Some hi else if decide (k = i) then Some hc else h !! k.
Proof.
  intros Hne Hi Hc. destruct (decide (k = c)) as [->|].
  - apply list_lookup_insert_eq. by rewrite length_insert.
  - rewrite list_lookup_insert_ne by done. destruct (decide (k = i)) as [->|].
    + by apply list_lookup_insert_eq.
    + by rewrite list_lookup_insert_ne.
Qed.

Lemma sift_loop_heap fuel : forall h K i,
  K <= Z.of_nat (length h) -> 0 <= i -> (Z.to_nat (K - i) < fuel)%nat ->
  nan_free h ->
  (forall j, 0 <= j -> j <> i -> heap_ok_at h K j) ->
  (forall p c pp pc, 0 <= p -> (i = 2 * p + 1 \/ i = 2 * p + 2) ->
     (c = 2 * i + 1 \/ c = 2 * i + 2) -> c < K ->
     h !! Z.to_nat p = Some pp -> h !! Z.to_nat c = Some pc ->
     F64.ltb (score pc) (score pp) = false) ->
  exists h', sift_loop fuel h K i = Done h' /\ h' ≡ₚ h /\ is_min_heap h' K.
Proof.
  induction fuel as [|fuel IH]; intros h K i HK Hi Hf Hnan Hok Hgp; [lia|].
  simpl. destruct (Z.geb_spec (2 * i + 1) K) as [Hleaf|Hc].
  { exists h. split; [reflexivity|]. split; [reflexivity|].
    intros j Hj. destruct (decide (j = i)) as [->|Hne]; [|by apply Hok].
    intros c pi pc Hcc HcK. lia. }
  destruct (heap_lookup_lt h i ltac:(lia)) as [hi Hhi].
  assert (exists c hc, (c = 2 * i + 1 \/ c = 2 * i + 2) /\ c < K /\
            h !! Z.to_nat c = Some hc /\
            (forall s ps, (s = 2 * i + 1 \/ s = 2 * i + 2) -> s < K ->
               h !! Z.to_nat s = Some ps -> F64.ltb (score ps) (score hc) = false) /\
            (if 2 * i + 1 + 1 <? K
             then r ← heap_at h (2 * i + 1 + 1);
                  l ← heap_at h (2 * i + 1);
                  Done (if F64.ltb (score r) (score l) then 2 * i + 1 + 1 else 2 * i + 1)
             else Done (2 * i + 1)) = Done c) as (c & hc & Hcv & HcK & Hhc & Hmin & ->).
  { destruct (heap_lookup_lt h (2 * i + 1) ltac:(lia)) as [l Hl].
    destruct (Z.ltb_spec (2 * i + 1 + 1) K).
    - destruct (heap_lookup_lt h (2 * i + 1 + 1) ltac:(lia)) as [r Hr].
      rewrite (heap_at_lookup h (2 * i + 1 + 1) r ltac:(lia) Hr),
        (heap_at_lookup h (2 * i + 1) l ltac:(lia) Hl).
      cbn [mbind outcome_bind]. destruct (F64.ltb (score r) (score l)) eqn:Hrl.
      + exists (2 * i + 1 + 1), r. split; [lia|]. split; [lia|]. split; [exact Hr|].
        split; [|reflexivity]. intros s ps [->| ->] _ Hs.
        * rewrite Hl in Hs. injection Hs as <-. by apply ltb_asym.
        * replace (2 * i + 2) with (2 * i + 1 + 1) in Hs by lia.
          rewrite Hr in Hs. injection Hs as <-. apply ltb_irrefl.
      + exists (2 * i + 1), l. split; [lia|]. split; [lia|]. split; [exact Hl|].
        split; [|reflexivity]. intros s ps [->| ->] _ Hs.
        * rewrite Hl in Hs. injection Hs as <-. apply ltb_irrefl.
        * replace (2 * i + 2) with (2 * i + 1 + 1) in Hs by lia.
          rewrite Hr in Hs. injection Hs as <-. exact Hrl.
    - exists (2 * i + 1), l. split; [lia|]. split; [lia|]. split; [exact Hl|].
      split; [|reflexivity]. intros s ps [->| ->] HsK Hs; [|lia].
      rewrite Hl in Hs. injection Hs as <-. apply ltb_irrefl. }
  cbn [mbind outcome_bind].
  rewrite (heap_at_lookup h c hc ltac:(lia) Hhc), (heap_at_lookup h i hi ltac:(lia) Hhi).
  cbn [mbind outcome_bind].
  destruct (F64.ltb (score hc) (score hi)) eqn:Hlt.
  - rewrite heap_set_lookup by lia. cbn [mbind outcome_bind].
    rewrite heap_set_lookup by (rewrite ?length_insert; lia).
    set (h' := <[Z.to_nat c := hi]> (<[Z.to_nat i := hc]> h)).
    assert (Hperm' : h' ≡ₚ h) by (by apply Permutation_insert_swap).
    assert (Hlook : forall k, 0 <= k ->
              h' !! Z.to_nat k = if decide (k = c) then Some hi
                                 else if decide (k = i) then Some hc
                                 else h !! Z.to_nat k).
    { intros k Hk. unfold h'. rewrite swap_lookup by lia.
      repeat destruct (decide _); try lia; reflexivity. }
    destruct (IH h' K c) as (h2 & Hrun & Hperm & Hheap).
    + rewrite (Permutation_length Hperm'). lia.
    + lia.
    + lia.
    + unfold nan_free. by rewrite Hperm'.
    + intros j Hj Hjc c1 pj pc1 Hc1 Hc1K Hpj Hpc1.
      rewrite Hlook in Hpj, Hpc1 by lia.
      destruct (decide (j = c)); [lia|].
      destruct (decide (j = i)) as [->|Hji].
      * injection Hpj as <-. destruct (decide (c1 = c)) as [->|].
        -- injection Hpc1 as <-. by apply ltb_asym.
        -- destruct (decide (c1 = i)); [lia|]. eapply Hmin; eauto.
      * destruct (decide (c1 = c)); [lia|]. destruct (decide (c1 = i)) as [->|].
        -- injection Hpc1 as <-. eapply (Hgp j c pj hc); eauto.
        -- eapply Hok; eauto.
    + intros p gc pp pgc Hp Hpc Hgc HgcK Hpp Hpgc.
      assert (p = i) by lia. subst p.
      rewrite Hlook in Hpp, Hpgc by lia.
      destruct (decide (i = c)); [lia|]. destruct (decide (i = i)); [|lia].
      destruct (decide (gc = c)); [lia|]. destruct (decide (gc = i)); [lia|].
      injection Hpp as <-. eapply (Hok c); eauto; lia.
    + exists h2. split; [exact Hrun|]. split; [by rewrite Hperm|exact Hheap].
  - exists h. split; [reflexivity|]. split; [reflexivity|].
    intros j Hj. destruct (decide (j = i)) as [->|]; [|by apply Hok].
    intros c1 pi pc1 Hc1 Hc1K Hpi Hpc1. rewrite Hhi in Hpi. injection Hpi as <-.
    apply (ltb_neg_trans _ (score hc)); [|exact Hlt|eapply Hmin; eauto].
    apply (proj1 (Forall_forall _ _) Hnan). by eapply list_elem_of_lookup_2.
Qed.

Lemma sift_down_heap h K :
  K <= Z.of_nat (length h) -> nan_free h -> heap_below_root h K ->
  exists h', sift_down h K = Done h' /\ h' ≡ₚ h /\ is_min_heap h' K.
Proof.
  intros HK Hnan Hbelow. unfold sift_down.
  apply sift_loop_heap; try assumption; try lia.
  intros j Hj Hj0. apply Hbelow. lia.
Qed.

(** ** Selection of the best [K], for [K] up to 3 *)









Section TopKScan.
Variables (ci : ChunkIndex) (q : list float32) (dim K : Z).
Hypothesis HK : 1 <= K <= 3.

End TopKScan.


(** ** The scalar fallback of [src/C/cosine_simd.c] *)

Lemma scale_loop (v : list float32) (d : Z) (c : float32) j :
  0 <= j <= d -> d < 2 ^ 32 -> d <= Z.of_nat (length v) ->
  for_loop (S (Z.to_nat d))
    (fun i => i <? d) (fun i => wrap32 (i + 1))
    (fun i w => vi ← load_f32 w i; store_f32 w i (F32.mul vi c))
    j (scaled v (fun x => F32.mul x c) j)
  = Done (d, scaled v (fun x => F32.mul x c) d).
Proof.
  intros Hj Hd Hlen. set (f := fun x => F32.mul x c).
  run_loop (fun (j : Z) (w : list float32) => 0 <= j <= d /\ w = scaled v f j)
           (fun j => Z.to_nat (d - j)).
  { intros k w [Hk ->] Hc. apply Z.ltb_lt in Hc. rewrite wrap32_small by lia.
    destruct (scaled_load v f k 0 ltac:(lia) ltac:(lia)) as (a & Ha & La).
    rewrite Z.add_0_r in La. rewrite Nat.add_0_r in Ha. rewrite La.
    cbn [mbind outcome_bind].
    change (store_f32 (scaled v f k) k (F32.mul a c))
      with (store_f32 (scaled v f k) k (f a)).
    rewrite (scaled_store v f k a ltac:(lia) Ha).
    eexists. split; [reflexivity|]. split; [split; [lia|reflexivity]|lia]. }
  { auto. }
  { lia. }
  match goal with
  | Hi : _ /\ _ = scaled v f ?j, He : (?j <? d) = false |- _ =>
      destruct Hi as [? ->]; apply Z.ltb_ge in He; by replace j with d by lia
  end.
Qed.

(** The scalar [norm_simd]: nothing is written when the sum of squares
    compares equal to zero; otherwise each of the first [d] elements is
    multiplied by [1 / sqrt(sum)]. *)
Lemma norm_simd_scalar_closed_form (v : list float32) d :
  0 <= d -> d + 4 < 2 ^ 32 -> d <= Z.of_nat (length v) ->
  CosineSimdScalar.norm_simd v d
  = Done (let sum := mac_tail F32.zero (operands v v d) in
          if SFeqb sum F32.zero then v
          else scaled v (fun x => F32.mul x (F32.div F32.one (F32.sqrt sum))) d).
Proof.
  intros Hd Hd32 Hlen. unfold CosineSimdScalar.norm_simd.
  assert (Hw : forall z, 0 <= z <= d + 4 -> wrap32 z = z)
    by (intros; apply wrap32_small; lia).
  pose proof (operands_length v v d Hd Hlen Hlen) as Hol.
  rewrite (for_loop_ext _ _
             (fun i sum => vi ← load_f32 v i; Done (F32.add sum (F32.mul vi vi)))
             (fun i sum => xi ← load_f32 v i; yi ← load_f32 v i;
                           Done (F32.add sum (F32.mul xi yi))))
    by (intros i s; osimpl; destruct (load_f32 v i); reflexivity).
  rewrite (dot_tail_loop v v d wrap32 Hw (operands v v d));
    [|lia|lia|apply covers_operands; lia|lia].
  cbn [mbind outcome_bind]. cbv zeta.
  destruct (SFeqb _ _); [reflexivity|].
  pose proof (scale_loop v d
    (F32.div F32.one (F32.sqrt (mac_tail F32.zero (operands v v d)))) 0
    ltac:(lia) ltac:(lia) Hlen) as Hs.
  change (scaled v _ 0) with v in Hs. rewrite Hs. reflexivity.
Qed.

Section PairLoop.
Context {S : Type}.
Variables (x y : list float32) (size : Z) (wrap : Z -> Z) (f : S -> float32 -> float32 -> S).
Hypothesis wrap_id : forall z, 0 <= z <= size + 4 -> wrap z = z.

Lemma pair_loop : forall rest fuel i s,
  0 <= i -> i + Z.of_nat (length rest) = size -> covers x y i rest ->
  (length rest < fuel)%nat ->
  for_loop fuel
    (fun i => i <? size) (fun i => wrap (i + 1))
    (fun i s =>
       xi ← load_f32 x i;
       yi ← load_f32 y i;
       Done (f s xi yi))
    i s
  = Done (size, foldl (fun s p => f s p.1 p.2) s rest).
Proof.
  induction rest as [|[a b] rest IH]; intros fuel i s Hi Hlen Hc Hf;
    (destruct fuel as [|fuel]; [lia|]); simpl in Hlen; simpl for_loop.
  - destruct (Z.ltb_spec i size); [lia|]. simpl. f_equal. f_equal. lia.
  - destruct (Z.ltb_spec i size); [|lia].
    destruct (covers_load x y i _ 0 _ _ Hi Hc eq_refl) as [Hx0 Hy0].
    rewrite Z.add_0_r in Hx0, Hy0. unfold mbind, outcome_bind. rewrite Hx0, Hy0.
    rewrite wrap_id by lia.
    rewrite IH; simpl in *; try lia; [reflexivity|].
    apply (covers_drop x y i _ 1 Hi Hc).
Qed.
End PairLoop.

(** The scalar dot product adds the products one by one, in double
    precision. *)
Lemma dot_scalar_closed_form x y size :
  0 <= size -> size + 4 < 2 ^ 64 ->
  size <= Z.of_nat (length x) -> size <= Z.of_nat (length y) ->
  CosineSimdScalar.f32_dot_product_simd x y size
  = Done (foldl (fun s p => F64.add s (F64.mul (f32_to_f64 p.1) (f32_to_f64 p.2)))
                F64.zero (operands x y size)).
Proof.
  intros H0 Hb Hx Hy. unfold CosineSimdScalar.f32_dot_product_simd.
  assert (Hw : forall z, 0 <= z <= size + 4 -> wrap64 z = z)
    by (intros; apply wrap64_small; lia).
  pose proof (operands_length x y size H0 Hx Hy) as Hlen.
  rewrite (pair_loop x y size wrap64
             (fun s xi yi => F64.add s (F64.mul (f32_to_f64 xi) (f32_to_f64 yi)))
             Hw (operands x y size));
    [reflexivity | lia | lia | apply covers_operands; lia | lia].
Qed.

(** ** NaN operands *)

Lemma add_nan_l x : F32.add S754_nan x = S754_nan.
Proof. reflexivity. Qed.

Lemma add_nan_r x : F32.add x S754_nan = S754_nan.
Proof. by destruct x. Qed.

Lemma mul_nan_l x : F32.mul S754_nan x = S754_nan.
Proof. reflexivity. Qed.

Lemma mul_nan_pair a b : nan_pair (a, b) -> F32.mul a b = S754_nan.
Proof. intros [H|H]; simpl in H; subst; [apply mul_nan_l|apply mul_nan]. Qed.

Lemma mac_tail_nan rest : mac_tail S754_nan rest = S754_nan.
Proof. unfold mac_tail. induction rest as [|p rest IH]; [reflexivity|]. simpl. exact IH. Qed.

Lemma mac_tail_poisoned : forall rest s,
  Exists nan_pair rest -> mac_tail s rest = S754_nan.
Proof.
  induction rest as [|[a b] rest IH]; intros s H; [by apply Exists_nil in H|].
  apply Exists_cons in H as [H|H].
  - unfold mac_tail. simpl. rewrite (mul_nan_pair a b H), add_nan_r. apply mac_tail_nan.
  - unfold mac_tail. simpl. apply IH. exact H.
Qed.

Lemma vaddvq_nan a : nan_lane a -> vaddvq_f32 a = S754_nan.
Proof.
  unfold vaddvq_f32. intros [H|[H|[H|H]]]; rewrite H;
    rewrite ?add_nan_l, ?add_nan_r; reflexivity.
Qed.

Lemma vmlaq_nan_acc a b c : nan_lane a -> nan_lane (vmlaq_f32 a b c).
Proof.
  unfold nan_lane, vmlaq_f32, map2. cbn [l0 l1 l2 l3].
  intros [H|[H|[H|H]]]; rewrite H; auto.
Qed.

Lemma mac_blocks_poisoned xy : forall acc,
  nan_lane acc \/ Exists nan_pair xy ->
  nan_lane (mac_blocks acc xy).1 \/ Exists nan_pair (mac_blocks acc xy).2.
Proof.
  remember (length xy) as n eqn:Hn. revert xy Hn.
  induction n as [n IH] using lt_wf_ind. intros xy Hn acc H.
  destruct xy as [|[x0 y0] [|[x1 y1] [|[x2 y2] [|[x3 y3] rest]]]]; try exact H.
  change (mac_blocks acc ((x0, y0) :: (x1, y1) :: (x2, y2) :: (x3, y3) :: rest))
    with (mac_blocks (vmlaq_f32 acc (F32x4 x0 x1 x2 x3) (F32x4 y0 y1 y2 y3)) rest).
  apply (IH (length rest)); [simpl in Hn; lia | reflexivity |].
  destruct H as [H|H]; [left; by apply vmlaq_nan_acc|].
  unfold nan_lane, vmlaq_f32, map2. cbn [l0 l1 l2 l3].
  repeat (apply Exists_cons in H as [H|H];
          [left; rewrite (mul_nan_pair _ _ H), add_nan_r; auto 6|]).
  by right.
Qed.

Lemma dot_single_poisoned xy : Exists nan_pair xy -> dot_single xy = S754_nan.
Proof.
  intros H. unfold dot_single.
  pose proof (mac_blocks_poisoned xy (vmovq_n_f32 F32.zero) (or_intror H)) as Hp.
  destruct (mac_blocks (vmovq_n_f32 F32.zero) xy) as [acc rest]. cbn [fst snd] in Hp.
  destruct Hp as [Hp|Hp].
  - rewrite (vaddvq_nan acc Hp). apply mac_tail_nan.
  - by apply mac_tail_poisoned.
Qed.

Lemma operands_lookup x y size (j : nat) a b :
  Z.of_nat j < size -> x !! j = Some a -> y !! j = Some b ->
  operands x y size !! j = Some (a, b).
Proof.
  intros Hj Hx Hy. unfold operands. apply lookup_zip_with_Some.
  exists a, b. split; [reflexivity|].
  split; apply lookup_take_Some; (split; [assumption|lia]).
Qed.

(** A NaN among the first [size] elements of either array makes the dot
    product NaN. *)
Lemma dot_nan_operand x y size (j : nat) :
  0 <= size -> size + 4 < 2 ^ 64 ->
  size <= Z.of_nat (length x) -> size <= Z.of_nat (length y) ->
  Z.of_nat j < size -> x !! j = Some S754_nan \/ y !! j = Some S754_nan ->
  CosineNeon.f32_dot_product_neon x y size = Done S754_nan.
Proof.
  intros H0 Hb Hx Hy Hj Hnan.
  rewrite dot_kernel_closed_form by assumption.
  destruct (lookup_lt_is_Some_2 x j ltac:(lia)) as [a Ha].
  destruct (lookup_lt_is_Some_2 y j ltac:(lia)) as [b Hb'].
  rewrite dot_single_poisoned; [reflexivity|].
  apply Exists_exists. exists (a, b).
  split; [eapply list_elem_of_lookup_2, operands_lookup; eauto|].
  destruct Hnan as [Hn|Hn].
  - left. simpl. apply (inj Some). etrans; [symmetry; exact Ha|exact Hn].
  - right. simpl. apply (inj Some). etrans; [symmetry; exact Hb'|exact Hn].
Qed.

(** ** What the loader writes *)

Lemma words_of_u32 w rest :
  0 <= w < 2 ^ 32 -> words_of (bytes_of_u32 w ++ rest) = w :: words_of rest.
Proof.
  intros Hw. unfold bytes_of_u32. cbn [app words_of].
  by rewrite !u8_byte_of, le32_bytes.
Qed.

Lemma f32_view_floats fs post :
  Forall is_binary32 fs ->
  f32_of_bits <$> words_of (bytes_of_f32s fs ++ post)
  = fs ++ (f32_of_bits <$> words_of post).
Proof.
  induction 1 as [|f fs [Hr Hf] _ IH]; [reflexivity|].
  unfold bytes_of_f32s in *. rewrite bind_cons, <- app_assoc.
  rewrite words_of_u32 by assumption.
  rewrite fmap_cons, Hf, IH. reflexivity.
Qed.

Lemma normalised_length table fs : length (normalised table fs) = length fs.
Proof. unfold normalised. apply length_fmap. Qed.

Lemma norm_in_arena_exact table pre fs post :
  Forall is_binary32 fs -> Z.of_nat (length fs) + 4 < 2 ^ 32 ->
  norm_in_arena table (pre ++ bytes_of_f32s fs ++ post)
    (Z.of_nat (length pre)) (Z.of_nat (length fs))
  = Done (pre ++ bytes_of_f32s (normalised table fs) ++ post).
Proof.
  intros Hfs Hb. unfold norm_in_arena.
  assert (Hview : f32_view (pre ++ bytes_of_f32s fs ++ post) (Z.of_nat (length pre))
                  = fs ++ (f32_of_bits <$> words_of post)).
  { unfold f32_view. rewrite Nat2Z.id, drop_app_length. by apply f32_view_floats. }
  rewrite Hview.
  rewrite norm_neon_closed_form by (rewrite ?length_app; lia).
  cbn [mbind outcome_bind]. f_equal.
  rewrite Nat2Z.id.
  assert (Htake : take (length fs) (fs ++ (f32_of_bits <$> words_of post)) = fs)
    by (by rewrite take_app_length).
  assert (Hops : operands (fs ++ (f32_of_bits <$> words_of post))
                   (fs ++ (f32_of_bits <$> words_of post)) (Z.of_nat (length fs))
                 = operands fs fs (Z.of_nat (length fs))).
  { unfold operands. rewrite Nat2Z.id, Htake. by rewrite take_ge by lia. }
  rewrite Hops. unfold scaled. rewrite Nat2Z.id, Htake.
  rewrite take_app_length' by (symmetry; apply length_fmap).
  apply (write_f32s_replaces pre fs (normalised table fs) post), normalised_length.
Qed.

Lemma load_record_exact table pre r post cs :
  wf_source r -> Forall is_binary32 (s_emb r) ->
  load_record table (pre ++ encode_record r ++ post, Z.of_nat (length pre), cs)
  = Done (pre ++ encode_record (normalise_source table r) ++ post,
          Z.of_nat (length pre) + record_size r,
          cs ++ [chunk_of (Z.of_nat (length pre)) r]).
Proof.
  intros [Wid Wpar Wfile Wext Wtext Wstart Wend Wemb] Hbin.
  set (p := Z.of_nat (length pre)).
  set (A := lpstr (s_id r)). set (B := lpstr (s_parent r)).
  set (C := lpstr (s_file r)). set (D := lpstr (s_ext r)).
  set (E := bytes_of_u32 (s_start r)). set (F := bytes_of_u32 (s_end r)).
  set (G := lpstr (s_text r)).
  set (H := bytes_of_u32 (Z.of_nat (length (s_emb r)))).
  pose proof (norm_in_arena_exact table (pre ++ A ++ B ++ C ++ D ++ E ++ F ++ G ++ H)
                (s_emb r) post Hbin Wemb) as Hnorm.
  pose proof (normalised_length table (s_emb r)) as Hfs.
  unfold load_record, encode_record. fold A B C D E F G H.
  set (buf := pre ++ (A ++ B ++ C ++ D ++ E ++ F ++ G ++ H ++ bytes_of_f32s (s_emb r)) ++ post).
  rewrite (read_str_at buf p pre (s_id r)
             (B ++ C ++ D ++ E ++ F ++ G ++ H ++ bytes_of_f32s (s_emb r) ++ post));
    [| subst buf A; norm_app | reflexivity | assumption].
  cbn [mbind outcome_bind].
  set (q1 := p + 4 + len (s_id r)).
  rewrite (read_str_at buf q1 (pre ++ A) (s_parent r)
             (C ++ D ++ E ++ F ++ G ++ H ++ bytes_of_f32s (s_emb r) ++ post));
    [| subst buf B; norm_app | subst q1 p A; norm_len | assumption].
  cbn [mbind outcome_bind].
  set (q2 := q1 + 4 + len (s_parent r)).
  rewrite (read_str_at buf q2 (pre ++ A ++ B) (s_file r)
             (D ++ E ++ F ++ G ++ H ++ bytes_of_f32s (s_emb r) ++ post));
    [| subst buf C; norm_app | subst q2 q1 p A B; norm_len | assumption].
  cbn [mbind outcome_bind].
  set (q3 := q2 + 4 + len (s_file r)).
  rewrite (read_str_at buf q3 (pre ++ A ++ B ++ C) (s_ext r)
             (E ++ F ++ G ++ H ++ bytes_of_f32s (s_emb r) ++ post));
    [| subst buf D; norm_app | subst q3 q2 q1 p A B C; norm_len | assumption].
  cbn [mbind outcome_bind].
  set (q4 := q3 + 4 + len (s_ext r)).
  rewrite (read_u32_at buf q4 (pre ++ A ++ B ++ C ++ D) (s_start r)
             (F ++ G ++ H ++ bytes_of_f32s (s_emb r) ++ post));
    [| subst buf E; norm_app | subst q4 q3 q2 q1 p A B C D; norm_len | assumption].
  cbn [mbind outcome_bind].
  rewrite (read_u32_at buf (q4 + 4) (pre ++ A ++ B ++ C ++ D ++ E) (s_end r)
             (G ++ H ++ bytes_of_f32s (s_emb r) ++ post));
    [| subst buf F; norm_app | subst q4 q3 q2 q1 p A B C D E; norm_len | assumption].
  cbn [mbind outcome_bind].
  rewrite (read_str_at buf (q4 + 4 + 4) (pre ++ A ++ B ++ C ++ D ++ E ++ F) (s_text r)
             (H ++ bytes_of_f32s (s_emb r) ++ post));
    [| subst buf G; norm_app | subst q4 q3 q2 q1 p A B C D E F; norm_len | assumption].
  cbn [mbind outcome_bind].
  set (q5 := q4 + 4 + 4 + 4 + len (s_text r)).
  rewrite (read_u32_at buf q5 (pre ++ A ++ B ++ C ++ D ++ E ++ F ++ G)
             (Z.of_nat (length (s_emb r))) (bytes_of_f32s (s_emb r) ++ post));
    [| subst buf H; norm_app | subst q5 q4 q3 q2 q1 p A B C D E F G; norm_len | lia].
  cbn [mbind outcome_bind].
  replace buf with ((pre ++ A ++ B ++ C ++ D ++ E ++ F ++ G ++ H)
                      ++ bytes_of_f32s (s_emb r) ++ post)
    by (subst buf; norm_app).
  match goal with
  | |- context [norm_in_arena table _ ?q _] =>
      replace q with
        (Z.of_nat (length (pre ++ A ++ B ++ C ++ D ++ E ++ F ++ G ++ H)))
        by (subst q5 q4 q3 q2 q1 p A B C D E F G H; norm_len)
  end.
  rewrite Hnorm. cbn [mbind outcome_bind]. f_equal. f_equal; [f_equal|].
  - cbn [normalise_source s_id s_parent s_file s_ext s_start s_end s_text s_emb].
    fold A B C D E F G. rewrite Hfs. fold H. norm_app.
  - unfold record_size. subst q5 q4 q3 q2 q1 p A B C D E F G H. norm_len.
  - unfold chunk_of. subst q5 q4 q3 q2 q1 p A B C D E F G H.
    do 3 f_equal. norm_len.
Qed.

Lemma normalise_same_fields table r : same_fields r (normalise_source table r).
Proof.
  unfold same_fields, normalise_source. cbn. rewrite normalised_length. auto 10.
Qed.

Lemma normalise_sizes table rs :
  records_size (normalise_source table <$> rs) = records_size rs.
Proof.
  apply same_fields_sizes. apply Forall2_fmap_r, Forall_Forall2_diag, Forall_forall.
  intros r _. apply normalise_same_fields.
Qed.

Lemma load_step_exact table tail rs i st :
  Forall wf_source rs -> Forall (fun r => Forall is_binary32 (s_emb r)) rs ->
  load_inv_exact table tail rs i st -> i < Z.of_nat (length rs) ->
  exists st', load_record table st = Done st' /\ load_inv_exact table tail rs (i + 1) st'.
Proof.
  intros Hwf Hbin (Hi & ->) Hlt.
  destruct (lookup_lt_is_Some_2 rs (Z.to_nat i) ltac:(lia)) as [r Hr].
  assert (Hdrop : drop (Z.to_nat i) rs = r :: drop (Z.to_nat (i + 1)) rs).
  { replace (Z.to_nat (i + 1)) with (S (Z.to_nat i)) by lia.
    by apply drop_S. }
  assert (Htake : take (Z.to_nat (i + 1)) rs = take (Z.to_nat i) rs ++ [r]).
  { replace (Z.to_nat (i + 1)) with (S (Z.to_nat i)) by lia. by apply take_S_r. }
  pose proof (proj1 (Forall_lookup _ _) Hwf _ _ Hr) as Hwr.
  pose proof (proj1 (Forall_lookup _ _) Hbin _ _ Hr) as Hbr.
  set (hdr := bytes_of_u32 (Z.of_nat (length rs))).
  set (seen := (normalise_source table <$> take (Z.to_nat i) rs) ≫= encode_record).
  set (post := (drop (Z.to_nat (i + 1)) rs ≫= encode_record) ++ tail).
  pose proof (load_record_exact table (hdr ++ seen) r post
                (layout 4 (take (Z.to_nat i) rs)) Hwr Hbr) as Hload.
  assert (Hp : Z.of_nat (length (hdr ++ seen))
               = 4 + records_size (take (Z.to_nat i) rs)).
  { unfold seen. rewrite length_app, Nat2Z.inj_add, encode_records_length,
      normalise_sizes. reflexivity. }
  rewrite Hp in Hload.
  rewrite Hdrop, bind_cons.
  replace (hdr ++ seen
             ++ (encode_record r ++ (drop (Z.to_nat (i + 1)) rs ≫= encode_record)) ++ tail)
    with ((hdr ++ seen) ++ encode_record r ++ post)
    by (unfold post; by rewrite <- !app_assoc).
  rewrite Hload. eexists. split; [reflexivity|].
  split; [lia|].
  rewrite Htake, fmap_app, bind_app, layout_app, records_size_app.
  cbn [fmap list_fmap]. rewrite bind_cons, bind_nil, app_nil_r.
  f_equal. f_equal; [unfold hdr, seen, post; by rewrite <- !app_assoc | simpl; lia].
Qed.

(** Loading the file of [rs] (followed by any bytes): the arena is the
    file of the records with their embeddings normalised, the table is
    the layout of the records. *)
Lemma ci_load_exact table rs tail :
  Z.of_nat (length rs) < 2 ^ 32 -> Forall wf_source rs ->
  Forall (fun r => Forall is_binary32 (s_emb r)) rs ->
  ci_load table (Some (encode_file rs ++ tail))
  = Done (Some {| arena := encode_file (normalise_source table <$> rs) ++ tail;
                  N := Z.of_nat (length rs); chunks := layout 4 rs |}).
Proof.
  intros Hn Hwf Hbin. unfold ci_load, encode_file.
  rewrite (read_u32_at _ 0 [] (Z.of_nat (length rs)) ((rs ≫= encode_record) ++ tail));
    [| by rewrite <- app_assoc | reflexivity | lia].
  cbn [mbind outcome_bind].
  run_loop (load_inv_exact table tail rs) (fun i => Z.to_nat (Z.of_nat (length rs) - i)).
  - intros i st Hinv Hc. apply Z.ltb_lt in Hc.
    destruct (load_step_exact table tail rs i st Hwf Hbin Hinv Hc) as (st' & Hst' & Hinv').
    pose proof Hinv as [Hi _].
    exists st'. rewrite wrap32_small by lia.
    split; [assumption|]. split; [assumption|]. lia.
  - split; [lia|]. rewrite <- !app_assoc. reflexivity.
  - lia.
  - apply Z.ltb_ge in Hexit. destruct Hinv as (Hi & ->).
    assert (iend = Z.of_nat (length rs)) as -> by lia.
    rewrite Nat2Z.id, take_ge in * by lia.
    rewrite drop_ge by lia. rewrite bind_nil, app_nil_l.
    rewrite length_fmap. by rewrite <- !app_assoc.
Qed.

(** ** The AVX kernels *)

Import Avx.

Section BlockLoop.
Context {V : Type}.
Variables (x y : list float32) (size W : Z) (wrap : Z -> Z).
Variables (takeW : list (float32 * float32)
                   -> option (V * V * list (float32 * float32)))
          (loadW : list float32 -> Z -> outcome V) (fmaddW : V -> V -> V -> V).
Hypothesis HW : 0 < W.
Hypothesis wrap_id : forall z, 0 <= z <= size + W -> wrap z = z.
Hypothesis take_some : forall rest vx vy r i,
  takeW rest = Some (vx, vy, r) -> 0 <= i -> covers x y i rest ->
  loadW x i = Done vx /\ loadW y i = Done vy /\ covers x y (i + W) r /\
  Z.of_nat (length rest) = Z.of_nat (length r) + W.
Hypothesis take_none : forall rest, takeW rest = None -> Z.of_nat (length rest) < W.

Lemma block_loop : forall n fuel rest i acc,
  0 <= i -> i + Z.of_nat (length rest) = size -> covers x y i rest ->
  (length rest <= n)%nat -> (length rest < fuel)%nat ->
  for_loop fuel
    (fun i => wrap (i + W) <=? size) (fun i => wrap (i + W))
    (fun i acc =>
       vx ← loadW x i;
       vy ← loadW y i;
       Done (fmaddW vx vy acc))
    i acc
  = Done (size - Z.of_nat (length (fma_blocks takeW fmaddW n acc rest).2),
          (fma_blocks takeW fmaddW n acc rest).1)
  /\ covers x y (size - Z.of_nat (length (fma_blocks takeW fmaddW n acc rest).2))
       (fma_blocks takeW fmaddW n acc rest).2
  /\ (length (fma_blocks takeW fmaddW n acc rest).2 <= length rest)%nat.
Proof.
  induction n as [|n IH]; intros fuel rest i acc Hi Hlen Hc Hn Hf;
    (destruct fuel as [|fuel]; [lia|]); simpl for_loop; rewrite wrap_id by lia.
  - destruct (Z.leb_spec (i + W) size); [lia|]. cbn [fma_blocks fst snd].
    split; [f_equal; f_equal; lia|]. split; [|lia].
    replace (size - Z.of_nat (length rest)) with i by lia. exact Hc.
  - cbn [fma_blocks]. destruct (takeW rest) as [[[vx vy] r]|] eqn:E.
    + destruct (take_some rest vx vy r i E Hi Hc) as (Hx & Hy & Hc' & Hl).
      destruct (Z.leb_spec (i + W) size); [|lia].
      rewrite Hx, Hy. cbn [mbind outcome_bind].
      destruct (IH fuel r (i + W) (fmaddW vx vy acc)) as (Hrun & Hcov & Hle);
        try assumption; try lia.
      split; [exact Hrun|]. split; [exact Hcov|]. lia.
    + pose proof (take_none rest E).
      destruct (Z.leb_spec (i + W) size); [lia|]. cbn [fst snd].
      split; [f_equal; f_equal; lia|]. split; [|lia].
      replace (size - Z.of_nat (length rest)) with i by lia. exact Hc.
Qed.
End BlockLoop.

Lemma take4_length rest vx vy r :
  take4 rest = Some (vx, vy, r) -> length rest = (length r + 4)%nat.
Proof.
  destruct rest as [|[x0 y0] [|[x1 y1] [|[x2 y2] [|[x3 y3] rest]]]]; try discriminate.
  intros [= _ _ <-]. simpl. lia.
Qed.

Lemma take4_none rest : take4 rest = None -> Z.of_nat (length rest) < 4.
Proof.
  destruct rest as [|[x0 y0] [|[x1 y1] [|[x2 y2] [|[x3 y3] rest]]]]; try discriminate;
    simpl; lia.
Qed.

Lemma take4_load x y rest vx vy r i :
  take4 rest = Some (vx, vy, r) -> 0 <= i -> covers x y i rest ->
  load4 x i = Done vx /\ load4 y i = Done vy /\ covers x y (i + 4) r /\
  Z.of_nat (length rest) = Z.of_nat (length r) + 4.
Proof.
  intros E Hi Hc. pose proof (take4_length _ _ _ _ E) as Hl.
  destruct rest as [|[x0 y0] [|[x1 y1] [|[x2 y2] [|[x3 y3] rest]]]]; try discriminate.
  injection E as <- <- <-.
  destruct (covers_load x y i _ 0 _ _ Hi Hc eq_refl) as [Hx0 Hy0].
  destruct (covers_load x y i _ 1 _ _ Hi Hc eq_refl) as [Hx1 Hy1].
  destruct (covers_load x y i _ 2 _ _ Hi Hc eq_refl) as [Hx2 Hy2].
  destruct (covers_load x y i _ 3 _ _ Hi Hc eq_refl) as [Hx3 Hy3].
  rewrite Z.add_0_r in Hx0, Hy0.
  change (Z.of_nat 1) with 1 in *. change (Z.of_nat 2) with 2 in *.
  change (Z.of_nat 3) with 3 in *.
  unfold load4. rewrite Hx0, Hx1, Hx2, Hx3, Hy0, Hy1, Hy2, Hy3.
  split; [reflexivity|]. split; [reflexivity|].
  split; [apply (covers_drop x y i _ 4 Hi Hc)|lia].
Qed.

Lemma take8_none rest : take8 rest = None -> Z.of_nat (length rest) < 8.
Proof.
  unfold take8. destruct (take4 rest) as [[[xl yl] r]|] eqn:E1.
  - pose proof (take4_length _ _ _ _ E1).
    destruct (take4 r) as [[[xh yh] r']|] eqn:E2; [discriminate|].
    intros _. apply take4_none in E2. lia.
  - intros _. apply take4_none in E1. lia.
Qed.

Lemma take8_load x y rest vx vy r i :
  take8 rest = Some (vx, vy, r) -> 0 <= i -> covers x y i rest ->
  _mm256_loadu_ps x i = Done vx /\ _mm256_loadu_ps y i = Done vy /\
  covers x y (i + 8) r /\ Z.of_nat (length rest) = Z.of_nat (length r) + 8.
Proof.
  unfold take8. intros E Hi Hc.
  destruct (take4 rest) as [[[xl yl] r1]|] eqn:E1; [|discriminate].
  destruct (take4 r1) as [[[xh yh] r2]|] eqn:E2; [|discriminate].
  injection E as <- <- <-.
  destruct (take4_load x y rest xl yl r1 i E1 Hi Hc) as (Hx1 & Hy1 & Hc1 & Hl1).
  destruct (take4_load x y r1 xh yh r2 (i + 4) E2 ltac:(lia) Hc1) as (Hx2 & Hy2 & Hc2 & Hl2).
  unfold _mm256_loadu_ps. rewrite Hx1, Hx2, Hy1, Hy2.
  split; [reflexivity|]. split; [reflexivity|].
  split; [|lia]. by replace (i + 8) with (i + 4 + 4) by lia.
Qed.

Lemma take16_none rest : take16 rest = None -> Z.of_nat (length rest) < 16.
Proof.
  unfold take16. destruct (take8 rest) as [[[xl yl] r]|] eqn:E1.
  - assert (Z.of_nat (length rest) = Z.of_nat (length r) + 8).
    { unfold take8 in E1.
      destruct (take4 rest) as [[[a b] r1]|] eqn:F1; [|discriminate].
      destruct (take4 r1) as [[[c d] r2]|] eqn:F2; [|discriminate].
      injection E1 as <- <- <-.
      apply take4_length in F1, F2. lia. }
    destruct (take8 r) as [[[xh yh] r']|] eqn:E2; [discriminate|].
    intros _. apply take8_none in E2. lia.
  - intros _. apply take8_none in E1. lia.
Qed.

Lemma take16_load x y rest vx vy r i :
  take16 rest = Some (vx, vy, r) -> 0 <= i -> covers x y i rest ->
  _mm512_loadu_ps x i = Done vx /\ _mm512_loadu_ps y i = Done vy /\
  covers x y (i + 16) r /\ Z.of_nat (length rest) = Z.of_nat (length r) + 16.
Proof.
  unfold take16. intros E Hi Hc.
  destruct (take8 rest) as [[[xl yl] r1]|] eqn:E1; [|discriminate].
  destruct (take8 r1) as [[[xh yh] r2]|] eqn:E2; [|discriminate].
  injection E as <- <- <-.
  destruct (take8_load x y rest xl yl r1 i E1 Hi Hc) as (Hx1 & Hy1 & Hc1 & Hl1).
  destruct (take8_load x y r1 xh yh r2 (i + 8) E2 ltac:(lia) Hc1) as (Hx2 & Hy2 & Hc2 & Hl2).
  unfold _mm512_loadu_ps. rewrite Hx1, Hx2, Hy1, Hy2.
  split; [reflexivity|]. split; [reflexivity|].
  split; [|lia]. by replace (i + 16) with (i + 8 + 8) by lia.
Qed.



Lemma elt_lookup (v : list float32) i :
  0 <= i < Z.of_nat (length v) -> v !! Z.to_nat i = Some (elt v i).
Proof.
  intros Hi. unfold elt.
  destruct (lookup_lt_is_Some_2 v (Z.to_nat i) ltac:(lia)) as [a Ha].
  by rewrite Ha.
Qed.

Section ScaleBlocks.
Variables (v : list float32) (f : float32 -> float32).

Lemma load_scaled j k :
  0 <= j -> 0 <= k -> j + k < Z.of_nat (length v) ->
  load_f32 (scaled v f j) (j + k) = Done (elt v (j + k)).
Proof.
  intros Hj Hk Hlt.
  destruct (scaled_load v f j (Z.to_nat k) Hj ltac:(lia)) as (a & Ha & La).
  rewrite Z2Nat.id in La by lia. rewrite La. f_equal.
  unfold elt. replace (Z.to_nat (j + k)) with (Z.to_nat j + Z.to_nat k)%nat by lia.
  by rewrite Ha.
Qed.

Lemma load4_scaled j k :
  0 <= j -> 0 <= k -> j + k + 4 <= Z.of_nat (length v) ->
  load4 (scaled v f j) (j + k) = Done (vec4 v (j + k)).
Proof.
  intros Hj Hk Hlt. unfold load4, vec4.
  rewrite (load_scaled j k) by lia.
  replace (j + k + 1) with (j + (k + 1)) by lia.
  replace (j + k + 2) with (j + (k + 2)) by lia.
  replace (j + k + 3) with (j + (k + 3)) by lia.
  rewrite !load_scaled by lia. reflexivity.
Qed.

Lemma store4_scaled j :
  0 <= j -> j + 4 <= Z.of_nat (length v) ->
  store4 (scaled v f j) j (map1_128 f (vec4 v j)) = Done (scaled v f (j + 4)).
Proof.
  intros Hj Hlt. unfold store4, map1_128, vec4. cbn [e0 e1 e2 e3].
  rewrite (scaled_store v f j) by (first [lia | apply elt_lookup; lia]).
  cbn [mbind outcome_bind].
  rewrite (scaled_store v f (j + 1)) by (first [lia | apply elt_lookup; lia]).
  cbn [mbind outcome_bind]. replace (j + 1 + 1) with (j + 2) by lia.
  rewrite (scaled_store v f (j + 2)) by (first [lia | apply elt_lookup; lia]).
  cbn [mbind outcome_bind]. replace (j + 2 + 1) with (j + 3) by lia.
  rewrite (scaled_store v f (j + 3)) by (first [lia | apply elt_lookup; lia]).
  by replace (j + 3 + 1) with (j + 4) by lia.
Qed.

Lemma load8_scaled j k :
  0 <= j -> 0 <= k -> j + k + 8 <= Z.of_nat (length v) ->
  _mm256_loadu_ps (scaled v f j) (j + k) = Done (vec8 v (j + k)).
Proof.
  intros Hj Hk Hlt. unfold _mm256_loadu_ps, vec8.
  rewrite (load4_scaled j k) by lia. cbn [mbind outcome_bind].
  replace (j + k + 4) with (j + (k + 4)) by lia.
  rewrite (load4_scaled j (k + 4)) by lia. reflexivity.
Qed.

Lemma store8_scaled j :
  0 <= j -> j + 8 <= Z.of_nat (length v) ->
  _mm256_storeu_ps (scaled v f j) j (map1_256 f (vec8 v j)) = Done (scaled v f (j + 8)).
Proof.
  intros Hj Hlt. unfold _mm256_storeu_ps, map1_256, vec8. cbn [fst snd].
  rewrite store4_scaled by lia. cbn [mbind outcome_bind].
  rewrite store4_scaled by lia. by replace (j + 4 + 4) with (j + 8) by lia.
Qed.

Lemma load16_scaled j :
  0 <= j -> j + 16 <= Z.of_nat (length v) ->
  _mm512_loadu_ps (scaled v f j) j = Done (vec16 v j).
Proof.
  intros Hj Hlt. unfold _mm512_loadu_ps, vec16.
  pose proof (load8_scaled j 0 Hj ltac:(lia) ltac:(lia)) as H0.
  rewrite Z.add_0_r in H0. rewrite H0. cbn [mbind outcome_bind].
  rewrite (load8_scaled j 8) by lia. reflexivity.
Qed.

Lemma store16_scaled j :
  0 <= j -> j + 16 <= Z.of_nat (length v) ->
  _mm512_storeu_ps (scaled v f j) j (map1_512 f (vec16 v j)) = Done (scaled v f (j + 16)).
Proof.
  intros Hj Hlt. unfold _mm512_storeu_ps, map1_512, vec16. cbn [fst snd].
  rewrite store8_scaled by lia. cbn [mbind outcome_bind].
  rewrite store8_scaled by lia. by replace (j + 8 + 8) with (j + 16) by lia.
Qed.
End ScaleBlocks.

(** The two scaling loops of the AVX [norm_simd]. *)
Lemma scale_loops_avx2 (v : list float32) d c :
  0 <= d -> d + 8 < 2 ^ 32 -> d <= Z.of_nat (length v) ->
  ('(i, w) ← for_loop (S (Z.to_nat d))
      (fun i => wrap32 (i + 8) <=? d) (fun i => wrap32 (i + 8))
      (fun i w =>
         x ← _mm256_loadu_ps w i;
         _mm256_storeu_ps w i (_mm256_mul_ps x (_mm256_set1_ps c)))
      0 v;
   '(_, w) ← for_loop (S (Z.to_nat d))
      (fun i => i <? d) (fun i => wrap32 (i + 1))
      (fun i w =>
         vi ← load_f32 w i;
         store_f32 w i (F32.mul vi c))
      i w;
   Done w)
  = Done (scaled v (fun x => F32.mul x c) d).
Proof.
  intros Hd Hd32 Hlen. set (f := fun x => F32.mul x c).
  run_loop (fun (j : Z) (w : list float32) => 0 <= j <= d /\ w = scaled v f j)
           (fun j => Z.to_nat (d - j)).
  { intros j w [Hj ->] Hc. rewrite wrap32_small in * by lia. apply Z.leb_le in Hc.
    exists (scaled v f (j + 8)). split; [|split; [split; [lia|reflexivity]|lia]].
    pose proof (load8_scaled v f j 0 ltac:(lia) ltac:(lia) ltac:(lia)) as Hl.
    rewrite Z.add_0_r in Hl. rewrite Hl. cbn [mbind outcome_bind].
    apply (store8_scaled v f j); lia. }
  { split; [lia|]. reflexivity. }
  { lia. }
  match goal with
  | Hi : _ /\ _ = scaled v f _ |- _ => destruct Hi as [? ->]
  end.
  fold f. rewrite scale_loop by lia. reflexivity.
Qed.

Lemma scale_loops_avx512 (v : list float32) d c :
  0 <= d -> d + 16 < 2 ^ 32 -> d <= Z.of_nat (length v) ->
  ('(i, w) ← for_loop (S (Z.to_nat d))
      (fun i => wrap32 (i + 16) <=? d) (fun i => wrap32 (i + 16))
      (fun i w =>
         x ← _mm512_loadu_ps w i;
         _mm512_storeu_ps w i (_mm512_mul_ps x (_mm512_set1_ps c)))
      0 v;
   '(_, w) ← for_loop (S (Z.to_nat d))
      (fun i => i <? d) (fun i => wrap32 (i + 1))
      (fun i w =>
         vi ← load_f32 w i;
         store_f32 w i (F32.mul vi c))
      i w;
   Done w)
  = Done (scaled v (fun x => F32.mul x c) d).
Proof.
  intros Hd Hd32 Hlen. set (f := fun x => F32.mul x c).
  run_loop (fun (j : Z) (w : list float32) => 0 <= j <= d /\ w = scaled v f j)
           (fun j => Z.to_nat (d - j)).
  { intros j w [Hj ->] Hc. rewrite wrap32_small in * by lia. apply Z.leb_le in Hc.
    exists (scaled v f (j + 16)). split; [|split; [split; [lia|reflexivity]|lia]].
    rewrite (load16_scaled v f j) by lia. cbn [mbind outcome_bind].
    apply (store16_scaled v f j); lia. }
  { split; [lia|]. reflexivity. }
  { lia. }
  match goal with
  | Hi : _ /\ _ = scaled v f _ |- _ => destruct Hi as [? ->]
  end.
  fold f. rewrite scale_loop by lia. reflexivity.
Qed.

(** The AVX2 [norm_simd]: nothing is written when the sum of squares
    compares equal to zero; otherwise each of the first [d] elements is
    multiplied by [avx_inv_norm] of that sum. *)
Lemma norm_avx2_closed_form table (v : list float32) d :
  0 <= d -> d + 8 < 2 ^ 32 -> d <= Z.of_nat (length v) ->
  CosineSimdAvx2.norm_simd table v d
  = Done (let sum := dot_single_avx2 (operands v v d) in
          if SFeqb sum F32.zero then v
          else scaled v (fun x => F32.mul x (avx_inv_norm table sum)) d).
Proof.
  intros Hd Hd32 Hlen. unfold CosineSimdAvx2.norm_simd.
  pose proof (operands_length v v d Hd Hlen Hlen) as Hol.
  assert (Hw : forall z, 0 <= z <= d + 8 -> wrap32 z = z)
    by (intros; apply wrap32_small; lia).
  destruct (block_loop v v d 8 wrap32 take8 _mm256_loadu_ps _mm256_fmadd_ps
              ltac:(lia) Hw (take8_load v v) take8_none
              (length (operands v v d)) (S (Z.to_nat d)) (operands v v d) 0
              _mm256_setzero_ps) as (Hmain & Hcov & Hle);
    [lia | lia | apply covers_operands; lia | lia | lia |].
  unfold dot_single_avx2.
  destruct (fma_blocks take8 _mm256_fmadd_ps (length (operands v v d))
              _mm256_setzero_ps (operands v v d)) as [acc rest].
  cbn [fst snd] in *. cbv zeta.
  rewrite (for_loop_ext _ _
             (fun i acc => x ← _mm256_loadu_ps v i; Done (_mm256_fmadd_ps x x acc))
             (fun i acc => vx ← _mm256_loadu_ps v i; vy ← _mm256_loadu_ps v i;
                           Done (_mm256_fmadd_ps vx vy acc)))
    by (intros i s; unfold mbind, outcome_bind;
        destruct (_mm256_loadu_ps v i); reflexivity).
  rewrite Hmain. unfold mbind at 1, outcome_bind at 1. cbv beta match.
  rewrite (for_loop_ext _ _
             (fun i sum => vi ← load_f32 v i; Done (F32.add sum (F32.mul vi vi)))
             (fun i sum => xi ← load_f32 v i; yi ← load_f32 v i;
                           Done (F32.add sum (F32.mul xi yi))))
    by (intros i s; unfold mbind, outcome_bind; destruct (load_f32 v i); reflexivity).
  assert (Hw4 : forall z, 0 <= z <= d + 4 -> wrap32 z = z)
    by (intros; apply wrap32_small; lia).
  rewrite (dot_tail_loop v v d wrap32 Hw4 rest); [|lia|lia|assumption|lia].
  unfold mbind at 1, outcome_bind at 1. cbv beta match.
  destruct (SFeqb _ _); [reflexivity|].
  apply (scale_loops_avx2 v d); assumption.
Qed.

Lemma norm_avx512_closed_form table (v : list float32) d :
  0 <= d -> d + 16 < 2 ^ 32 -> d <= Z.of_nat (length v) ->
  CosineSimdAvx512.norm_simd table v d
  = Done (let sum := dot_single_avx512 (operands v v d) in
          if SFeqb sum F32.zero then v
          else scaled v (fun x => F32.mul x (avx_inv_norm table sum)) d).
Proof.
  intros Hd Hd32 Hlen. unfold CosineSimdAvx512.norm_simd.
  pose proof (operands_length v v d Hd Hlen Hlen) as Hol.
  assert (Hw : forall z, 0 <= z <= d + 16 -> wrap32 z = z)
    by (intros; apply wrap32_small; lia).
  destruct (block_loop v v d 16 wrap32 take16 _mm512_loadu_ps _mm512_fmadd_ps
              ltac:(lia) Hw (take16_load v v) take16_none
              (length (operands v v d)) (S (Z.to_nat d)) (operands v v d) 0
              _mm512_setzero_ps) as (Hmain & Hcov & Hle);
    [lia | lia | apply covers_operands; lia | lia | lia |].
  unfold dot_single_avx512.
  destruct (fma_blocks take16 _mm512_fmadd_ps (length (operands v v d))
              _mm512_setzero_ps (operands v v d)) as [acc rest].
  cbn [fst snd] in *. cbv zeta.
  rewrite (for_loop_ext _ _
             (fun i acc => x ← _mm512_loadu_ps v i; Done (_mm512_fmadd_ps x x acc))
             (fun i acc => vx ← _mm512_loadu_ps v i; vy ← _mm512_loadu_ps v i;
                           Done (_mm512_fmadd_ps vx vy acc)))
    by (intros i s; unfold mbind, outcome_bind;
        destruct (_mm512_loadu_ps v i); reflexivity).
  rewrite Hmain. unfold mbind at 1, outcome_bind at 1. cbv beta match.
  rewrite (for_loop_ext _ _
             (fun i sum => vi ← load_f32 v i; Done (F32.add sum (F32.mul vi vi)))
             (fun i sum => xi ← load_f32 v i; yi ← load_f32 v i;
                           Done (F32.add sum (F32.mul xi yi))))
    by (intros i s; unfold mbind, outcome_bind; destruct (load_f32 v i); reflexivity).
  assert (Hw4 : forall z, 0 <= z <= d + 4 -> wrap32 z = z)
    by (intros; apply wrap32_small; lia).
  rewrite (dot_tail_loop v v d wrap32 Hw4 rest); [|lia|lia|assumption|lia].
  unfold mbind at 1, outcome_bind at 1. cbv beta match.
  destruct (SFeqb _ _); [reflexivity|].
  apply (scale_loops_avx512 v d); assumption.
Qed.

(** ** Unit vectors *)

Import MoreInputs.

Lemma avx_stretch_below :
  forallb (fun m =>
      let c := avx_refine F32.one
                 (avx_refine F32.one (S754_finite false (Z.to_pos (2 ^ 24 - m)) (-24))) in
      SFleb stretch_lo c && SFleb c stretch_hi) (seqZ 1 6144) = true.
Proof. vm_compute. reflexivity. Qed.

Lemma avx_stretch_above :
  forallb (fun m =>
      let c := avx_refine F32.one
                 (avx_refine F32.one (S754_finite false (Z.to_pos (2 ^ 23 + m)) (-23))) in
      SFleb stretch_lo c && SFleb c stretch_hi) (seqZ 0 3073) = true.
Proof. vm_compute. reflexivity. Qed.

(** Two refinement steps of the AVX [norm_simd] take every estimate of
    [1 / sqrt 1] that is as accurate as [rsqrtps] is stated to be to a
    factor between 1.386 and 1.3875. *)
Lemma avx_stretch table :
  near_one (table F32.one) ->
  SFleb stretch_lo (avx_inv_norm table F32.one) = true /\
  SFleb (avx_inv_norm table F32.one) stretch_hi = true.
Proof.
  intros [m [[Hm Hy]|[Hm Hy]]]; unfold avx_inv_norm;
    change (rsqrt table F32.one) with (table F32.one); rewrite Hy.
  - pose proof (proj1 (forallb_forall _ _) avx_stretch_below m) as H.
    cbv zeta in H. apply andb_prop, H.
    apply list_elem_of_In, elem_of_seqZ. lia.
  - pose proof (proj1 (forallb_forall _ _) avx_stretch_above m) as H.
    cbv zeta in H. apply andb_prop, H.
    apply list_elem_of_In, elem_of_seqZ. lia.
Qed.

Lemma neon_unit_factor table :
  table F32.one = estimate_of_one ->
  inv_norm table F32.one = S754_finite false 16769073 (-24).
Proof.
  intros H. unfold inv_norm. cbv zeta.
  change (frsqrte table F32.one) with (table F32.one). rewrite H.
  vm_compute. reflexivity.
Qed.

(** ** The getters *)

Lemma chunk_at_range ci i :
  Z.of_nat (length (chunks ci)) = N ci ->
  (0 <= i < N ci -> exists c, chunks ci !! Z.to_nat i = Some c /\ chunk_at ci i = Done c) /\
  (~ 0 <= i < N ci -> chunk_at ci i = OutOfBounds).
Proof.
  intros HN. unfold chunk_at. split.
  - intros Hi. destruct (Z.ltb_spec i 0); [lia|].
    destruct (lookup_lt_is_Some_2 (chunks ci) (Z.to_nat i) ltac:(lia)) as [c Hc].
    rewrite Hc. eauto.
  - intros Hi. destruct (Z.ltb_spec i 0); [reflexivity|].
    rewrite lookup_ge_None_2; [reflexivity|lia].
Qed.

(** * Further properties *)

(** ** The vector kernels *)

(** X1: on arrays of at least [size] elements [f32_cosine_distance_neon]
    returns the single-precision dot product of [x] and [y] divided by
    the product of the square roots of the two sums of squares, widened
    to double, and 0.0 when that product compares equal to zero.  The
    three sums are computed exactly as [f32_dot_product_neon] computes
    its sum: the numerator is the value the dot-product kernel widens. *)
Theorem cosine_distance_value (x y : list float32) (size : Z) :
  0 <= size -> size + 4 < 2 ^ 64 ->
  size <= Z.of_nat (length x) -> size <= Z.of_nat (length y) ->
  SimdCosineNeon.f32_cosine_distance_neon x y size
    = Done (let denom := F32.mul (F32.sqrt (dot_single (operands x x size)))
                                 (F32.sqrt (dot_single (operands y y size))) in
            if SFeqb denom F32.zero then F64.zero
            else f32_to_f64 (F32.div (dot_single (operands x y size)) denom))
  /\ SimdCosineNeon.f32_dot_product_neon x y size
    = Done (f32_to_f64 (dot_single (operands x y size))).
Proof.
  intros. split; [by apply cosine_closed_form|].
  change (SimdCosineNeon.f32_dot_product_neon x y size)
    with (CosineNeon.f32_dot_product_neon x y size).
  by apply dot_kernel_closed_form.
Qed.

Lemma cosine_distance_value_witness :
  (0 <= 2 /\ 2 + 4 < 2 ^ 64
   /\ 2 <= Z.of_nat (length [F32.one; F32.zero])
   /\ 2 <= Z.of_nat (length [F32.one; F32.one])) /\
  SimdCosineNeon.f32_cosine_distance_neon [F32.one; F32.zero] [F32.one; F32.one] 2
    = Done (let denom :=
              F32.mul (F32.sqrt (dot_single (operands [F32.one; F32.zero]
                                               [F32.one; F32.zero] 2)))
                      (F32.sqrt (dot_single (operands [F32.one; F32.one]
                                               [F32.one; F32.one] 2))) in
            if SFeqb denom F32.zero then F64.zero
            else f32_to_f64 (F32.div (dot_single (operands [F32.one; F32.zero]
                                                    [F32.one; F32.one] 2)) denom))
  /\ SimdCosineNeon.f32_dot_product_neon [F32.one; F32.zero] [F32.one; F32.one] 2
    = Done (f32_to_f64 (dot_single (operands [F32.one; F32.zero] [F32.one; F32.one] 2))).
Proof.
  split; [simpl; lia|].
  apply (cosine_distance_value [F32.one; F32.zero] [F32.one; F32.one] 2); simpl; lia.
Defined.

(** X2: the cosine distance is symmetric in its two arrays, on every
    input, including those on which it leaves the arrays. *)
Theorem cosine_distance_symmetric (x y : list float32) (size : Z) :
  SimdCosineNeon.f32_cosine_distance_neon x y size
  = SimdCosineNeon.f32_cosine_distance_neon y x size.
Proof. apply cosine_symmetric. Qed.

(** X3: so is the dot product. *)
Theorem dot_product_symmetric (x y : list float32) (size : Z) :
  CosineNeon.f32_dot_product_neon x y size
  = CosineNeon.f32_dot_product_neon y x size.
Proof. apply dot_symmetric. Qed.

(** X4: [f32_dot_product_neon] reads the first [size] elements of both
    arrays and nothing else: it returns a result exactly when both arrays
    hold at least [size] elements. *)
Theorem dot_product_footprint (x y : list float32) (size : Z) :
  0 <= size -> size + 4 < 2 ^ 64 ->
  (exists r, CosineNeon.f32_dot_product_neon x y size = Done r)
  <-> size <= Z.of_nat (length x) /\ size <= Z.of_nat (length y).
Proof.
  intros H0 Hb. split.
  - intros [r Hr]. by apply (dot_done_bounds x y size r).
  - intros [Hx Hy]. eexists. by apply dot_kernel_closed_form.
Qed.

Lemma dot_product_footprint_witness :
  (0 <= 2 /\ 2 + 4 < 2 ^ 64) /\
  ((exists r, CosineNeon.f32_dot_product_neon [F32.one; F32.zero]
                [F32.one; F32.one; F32.one] 2 = Done r)
   <-> 2 <= Z.of_nat (length [F32.one; F32.zero])
       /\ 2 <= Z.of_nat (length [F32.one; F32.one; F32.one])).
Proof.
  split; [lia|].
  apply (dot_product_footprint [F32.one; F32.zero] [F32.one; F32.one; F32.one] 2); lia.
Defined.

(** X5: a NaN among the first [size] elements of either array makes the
    dot product NaN. *)
Theorem dot_product_nan_operand (x y : list float32) (size : Z) (j : nat) :
  0 <= size -> size + 4 < 2 ^ 64 ->
  size <= Z.of_nat (length x) -> size <= Z.of_nat (length y) ->
  Z.of_nat j < size -> x !! j = Some S754_nan \/ y !! j = Some S754_nan ->
  CosineNeon.f32_dot_product_neon x y size = Done S754_nan.
Proof. apply dot_nan_operand. Qed.

Lemma dot_product_nan_operand_witness :
  (0 <= 2 /\ 2 + 4 < 2 ^ 64
   /\ 2 <= Z.of_nat (length [F32.one; S754_nan])
   /\ 2 <= Z.of_nat (length [F32.one; F32.one])
   /\ Z.of_nat 1 < 2
   /\ ([F32.one; S754_nan] !! 1%nat = Some S754_nan
       \/ [F32.one; F32.one] !! 1%nat = Some S754_nan)) /\
  CosineNeon.f32_dot_product_neon [F32.one; S754_nan] [F32.one; F32.one] 2
  = Done S754_nan.
Proof.
  split; [simpl; intuition lia|].
  apply (dot_product_nan_operand [F32.one; S754_nan] [F32.one; F32.one] 2 1);
    simpl; first [lia | by left].
Defined.

(** X6: on an array of at least [d] elements [norm_neon] multiplies each
    of the first [d] elements by one factor, [inv_norm] of the
    single-precision sum of their squares, and leaves the elements behind
    them as they are. *)
Theorem norm_neon_scales_prefix (table : float32 -> float32) (v : list float32) (d : Z) :
  0 <= d -> d + 4 < 2 ^ 32 -> d <= Z.of_nat (length v) ->
  CosineNeon.norm_neon table v d
  = Done (((fun x => F32.mul x (inv_norm table (dot_single (operands v v d))))
             <$> take (Z.to_nat d) v) ++ drop (Z.to_nat d) v).
Proof. apply norm_neon_closed_form. Qed.

Lemma norm_neon_scales_prefix_witness :
  (0 <= 1 /\ 1 + 4 < 2 ^ 32 /\ 1 <= Z.of_nat (length [F32.one; F32.one])) /\
  CosineNeon.norm_neon (fun _ => F32.one) [F32.one; F32.one] 1
  = Done (((fun x => F32.mul x (inv_norm (fun _ => F32.one)
                                  (dot_single (operands [F32.one; F32.one]
                                                 [F32.one; F32.one] 1))))
             <$> take (Z.to_nat 1) [F32.one; F32.one])
          ++ drop (Z.to_nat 1) [F32.one; F32.one]).
Proof.
  split; [simpl; lia|].
  apply (norm_neon_scales_prefix (fun _ => F32.one) [F32.one; F32.one] 1); simpl; lia.
Defined.

(** X7: [norm_neon] returns exactly when the array holds at least [d]
    elements, and the array it returns has the length of the one it was
    given. *)
Theorem norm_neon_footprint (table : float32 -> float32) (v : list float32) (d : Z) :
  0 <= d -> d + 4 < 2 ^ 32 ->
  ((exists v', CosineNeon.norm_neon table v d = Done v') <-> d <= Z.of_nat (length v))
  /\ forall v', CosineNeon.norm_neon table v d = Done v' -> length v' = length v.
Proof.
  intros H0 Hb. split; [split|].
  - intros [v' Hv']. by apply (norm_neon_done table v d v').
  - intros Hlen. destruct (norm_neon_total table v d H0 Hb Hlen) as (v' & Hv' & _). eauto.
  - intros v' Hv'. by apply (norm_neon_done table v d v').
Qed.

Lemma norm_neon_footprint_witness :
  (0 <= 2 /\ 2 + 4 < 2 ^ 32) /\
  ((exists v', CosineNeon.norm_neon (fun _ => F32.one) [F32.one] 2 = Done v')
   <-> 2 <= Z.of_nat (length [F32.one]))
  /\ forall v', CosineNeon.norm_neon (fun _ => F32.one) [F32.one] 2 = Done v' ->
                length v' = length [F32.one].
Proof.
  split; [lia|].
  apply (norm_neon_footprint (fun _ => F32.one) [F32.one] 2); lia.
Defined.

(** X8: whenever the sum of squares comes out as zero, for a zero vector
    or for elements so small that their squares underflow, [norm_neon]
    overwrites each of the first [d] elements with NaN. *)
Theorem norm_neon_zero_sum_gives_nan (table : float32 -> float32)
    (v : list float32) (d : Z) :
  0 <= d -> d + 4 < 2 ^ 32 -> d <= Z.of_nat (length v) ->
  SFeqb (dot_single (operands v v d)) F32.zero = true ->
  CosineNeon.norm_neon table v d
  = Done (replicate (Z.to_nat d) S754_nan ++ drop (Z.to_nat d) v).
Proof. apply norm_neon_zero_sum. Qed.

Lemma norm_neon_zero_sum_gives_nan_witness :
  (0 <= 2 /\ 2 + 4 < 2 ^ 32 /\ 2 <= Z.of_nat (length [two_pow_m100; F32.zero; F32.one])
   /\ SFeqb (dot_single (operands [two_pow_m100; F32.zero; F32.one]
                           [two_pow_m100; F32.zero; F32.one] 2)) F32.zero = true) /\
  CosineNeon.norm_neon (fun _ => F32.one) [two_pow_m100; F32.zero; F32.one] 2
  = Done (replicate (Z.to_nat 2) S754_nan
          ++ drop (Z.to_nat 2) [two_pow_m100; F32.zero; F32.one]).
Proof.
  split; [split; [lia|split; [lia|split; [simpl; lia|reflexivity]]]|].
  apply (norm_neon_zero_sum_gives_nan (fun _ => F32.one)
           [two_pow_m100; F32.zero; F32.one] 2); [lia|lia|simpl; lia|reflexivity].
Defined.

(** X9: the NEON branch of [norm_simd] in [src/C/cosine_simd.c] and
    [norm_neon] in [src/C/cosine_neon.c] give the same outcome on every
    array and every dimension. *)
Theorem norm_simd_neon_is_norm_neon (table : float32 -> float32)
    (v : list float32) (d : Z) :
  CosineSimdNeon.norm_simd table v d = CosineNeon.norm_neon table v d.
Proof. reflexivity. Qed.

(** X10: the scalar fallback of [norm_simd] writes nothing when the sum
    of squares compares equal to zero; otherwise it multiplies each of
    the first [d] elements by [1 / sqrt(sum)] and leaves the elements
    behind them as they are. *)
Theorem norm_simd_scalar_value (v : list float32) (d : Z) :
  0 <= d -> d + 4 < 2 ^ 32 -> d <= Z.of_nat (length v) ->
  CosineSimdScalar.norm_simd v d
  = Done (let sum := mac_tail F32.zero (operands v v d) in
          if SFeqb sum F32.zero then v
          else ((fun x => F32.mul x (F32.div F32.one (F32.sqrt sum)))
                  <$> take (Z.to_nat d) v) ++ drop (Z.to_nat d) v).
Proof. apply norm_simd_scalar_closed_form. Qed.

Lemma norm_simd_scalar_value_witness :
  (0 <= 1 /\ 1 + 4 < 2 ^ 32 /\ 1 <= Z.of_nat (length [F32.one; F32.one])) /\
  CosineSimdScalar.norm_simd [F32.one; F32.one] 1
  = Done (let sum := mac_tail F32.zero (operands [F32.one; F32.one]
                                          [F32.one; F32.one] 1) in
          if SFeqb sum F32.zero then [F32.one; F32.one]
          else ((fun x => F32.mul x (F32.div F32.one (F32.sqrt sum)))
                  <$> take (Z.to_nat 1) [F32.one; F32.one])
               ++ drop (Z.to_nat 1) [F32.one; F32.one]).
Proof.
  split; [simpl; lia|].
  apply (norm_simd_scalar_value [F32.one; F32.one] 1); simpl; lia.
Defined.

(** X11: the scalar fallback of [f32_dot_product_simd] widens each
    operand to double and adds the products one by one, in order, in
    double precision, starting from 0.0. *)
Theorem dot_scalar_value (x y : list float32) (size : Z) :
  0 <= size -> size + 4 < 2 ^ 64 ->
  size <= Z.of_nat (length x) -> size <= Z.of_nat (length y) ->
  CosineSimdScalar.f32_dot_product_simd x y size
  = Done (foldl (fun s p => F64.add s (F64.mul (f32_to_f64 p.1) (f32_to_f64 p.2)))
                F64.zero (operands x y size)).
Proof. apply dot_scalar_closed_form. Qed.

Lemma dot_scalar_value_witness :
  (0 <= 2 /\ 2 + 4 < 2 ^ 64
   /\ 2 <= Z.of_nat (length [F32.one; two_pow_m30])
   /\ 2 <= Z.of_nat (length [F32.one; F32.one])) /\
  CosineSimdScalar.f32_dot_product_simd [F32.one; two_pow_m30] [F32.one; F32.one] 2
  = Done (foldl (fun s p => F64.add s (F64.mul (f32_to_f64 p.1) (f32_to_f64 p.2)))
                F64.zero (operands [F32.one; two_pow_m30] [F32.one; F32.one] 2)).
Proof.
  split; [simpl; lia|].
  apply (dot_scalar_value [F32.one; two_pow_m30] [F32.one; F32.one] 2); simpl; lia.
Defined.





(** X14: when the sum of squares is exactly 1 and the estimate of
    [1 / sqrt 1] is as accurate as [rsqrtps] is stated to be, the AVX2
    branch of [norm_simd] multiplies each of the first [d] elements, not
    by 1, but by one factor between 1.386 and 1.3875. *)
Theorem norm_avx2_stretches_unit_vectors (table : float32 -> float32)
    (v : list float32) (d : Z) :
  0 <= d -> d + 8 < 2 ^ 32 -> d <= Z.of_nat (length v) ->
  near_one (table F32.one) ->
  dot_single_avx2 (operands v v d) = F32.one ->
  exists c, SFleb stretch_lo c = true /\ SFleb c stretch_hi = true /\
    CosineSimdAvx2.norm_simd table v d
    = Done (((fun x => F32.mul x c) <$> take (Z.to_nat d) v) ++ drop (Z.to_nat d) v).
Proof.
  intros H0 Hb Hlen Hnear Hsum. destruct (avx_stretch table Hnear) as [Hlo Hhi].
  exists (avx_inv_norm table F32.one). split; [exact Hlo|]. split; [exact Hhi|].
  rewrite norm_avx2_closed_form by assumption.
  cbv zeta. rewrite Hsum. reflexivity.
Qed.

Lemma norm_avx2_stretches_unit_vectors_witness :
  (0 <= 2 /\ 2 + 8 < 2 ^ 32 /\ 2 <= Z.of_nat (length [F32.zero; F32.one])
   /\ near_one ((fun _ : float32 => F32.one) F32.one)
   /\ dot_single_avx2 (operands [F32.zero; F32.one] [F32.zero; F32.one] 2) = F32.one) /\
  exists c, SFleb stretch_lo c = true /\ SFleb c stretch_hi = true /\
    CosineSimdAvx2.norm_simd (fun _ => F32.one) [F32.zero; F32.one] 2
    = Done (((fun x => F32.mul x c) <$> take (Z.to_nat 2) [F32.zero; F32.one])
            ++ drop (Z.to_nat 2) [F32.zero; F32.one]).
Proof.
  assert (Hn : near_one ((fun _ : float32 => F32.one) F32.one)).
  { exists 0. right. split; [lia|reflexivity]. }
  split; [split; [lia|split; [lia|split; [simpl; lia|split; [exact Hn|reflexivity]]]]|].
  apply (norm_avx2_stretches_unit_vectors (fun _ => F32.one) [F32.zero; F32.one] 2);
    [lia | lia | simpl; lia | exact Hn | reflexivity].
Defined.

(** X15: the AVX-512 branch of [norm_simd] does the same. *)
Theorem norm_avx512_stretches_unit_vectors (table : float32 -> float32)
    (v : list float32) (d : Z) :
  0 <= d -> d + 16 < 2 ^ 32 -> d <= Z.of_nat (length v) ->
  near_one (table F32.one) ->
  dot_single_avx512 (operands v v d) = F32.one ->
  exists c, SFleb stretch_lo c = true /\ SFleb c stretch_hi = true /\
    CosineSimdAvx512.norm_simd table v d
    = Done (((fun x => F32.mul x c) <$> take (Z.to_nat d) v) ++ drop (Z.to_nat d) v).
Proof.
  intros H0 Hb Hlen Hnear Hsum. destruct (avx_stretch table Hnear) as [Hlo Hhi].
  exists (avx_inv_norm table F32.one). split; [exact Hlo|]. split; [exact Hhi|].
  rewrite norm_avx512_closed_form by assumption.
  cbv zeta. rewrite Hsum. reflexivity.
Qed.

Lemma norm_avx512_stretches_unit_vectors_witness :
  (0 <= 2 /\ 2 + 16 < 2 ^ 32 /\ 2 <= Z.of_nat (length [F32.zero; F32.one])
   /\ near_one ((fun _ : float32 => F32.one) F32.one)
   /\ dot_single_avx512 (operands [F32.zero; F32.one] [F32.zero; F32.one] 2) = F32.one) /\
  exists c, SFleb stretch_lo c = true /\ SFleb c stretch_hi = true /\
    CosineSimdAvx512.norm_simd (fun _ => F32.one) [F32.zero; F32.one] 2
    = Done (((fun x => F32.mul x c) <$> take (Z.to_nat 2) [F32.zero; F32.one])
            ++ drop (Z.to_nat 2) [F32.zero; F32.one]).
Proof.
  assert (Hn : near_one ((fun _ : float32 => F32.one) F32.one)).
  { exists 0. right. split; [lia|reflexivity]. }
  split; [split; [lia|split; [lia|split; [simpl; lia|split; [exact Hn|reflexivity]]]]|].
  apply (norm_avx512_stretches_unit_vectors (fun _ => F32.one) [F32.zero; F32.one] 2);
    [lia | lia | simpl; lia | exact Hn | reflexivity].
Defined.

(** X16: when the sum of squares is exactly 1 and the estimate of
    [1 / sqrt 1] is 511/512, [norm_neon] multiplies each of the first [d]
    elements by 16769073 / 2^24, a little under 0.99951. *)
Theorem norm_neon_unit_sum (table : float32 -> float32) (v : list float32) (d : Z) :
  0 <= d -> d + 4 < 2 ^ 32 -> d <= Z.of_nat (length v) ->
  table F32.one = estimate_of_one ->
  dot_single (operands v v d) = F32.one ->
  CosineNeon.norm_neon table v d
  = Done (((fun x => F32.mul x (S754_finite false 16769073 (-24)))
             <$> take (Z.to_nat d) v) ++ drop (Z.to_nat d) v).
Proof.
  intros H0 Hb Hlen Ht Hsum.
  rewrite norm_neon_closed_form by assumption.
  rewrite Hsum, (neon_unit_factor table Ht). reflexivity.
Qed.

Lemma norm_neon_unit_sum_witness :
  (0 <= 2 /\ 2 + 4 < 2 ^ 32 /\ 2 <= Z.of_nat (length [F32.zero; F32.one])
   /\ (fun _ : float32 => estimate_of_one) F32.one = estimate_of_one
   /\ dot_single (operands [F32.zero; F32.one] [F32.zero; F32.one] 2) = F32.one) /\
  CosineNeon.norm_neon (fun _ => estimate_of_one) [F32.zero; F32.one] 2
  = Done (((fun x => F32.mul x (S754_finite false 16769073 (-24)))
             <$> take (Z.to_nat 2) [F32.zero; F32.one])
          ++ drop (Z.to_nat 2) [F32.zero; F32.one]).
Proof.
  split; [split; [lia|split; [lia|split; [simpl; lia|split; reflexivity]]]|].
  apply (norm_neon_unit_sum (fun _ => estimate_of_one) [F32.zero; F32.one] 2);
    [lia | lia | simpl; lia | reflexivity | reflexivity].
Defined.

(** ** Loading *)

Ltac check_sources :=
  repeat (apply Forall_cons; split); try apply Forall_nil; try exact I;
  try (split; unfold len; simpl; lia).

Ltac check_binary32 :=
  repeat (apply Forall_cons; split); try apply Forall_nil; try exact I;
  try (split; [split; [vm_compute; discriminate | reflexivity] | reflexivity]).

(** X17: on the file of a list of records whose numbers fit their 32-bit
    fields, followed by any bytes, [ci_load] stays inside the buffer; the
    arena it returns is the file with each embedding multiplied by the
    factor [norm_neon] computes for it and every other byte, the trailing
    ones included, as it was; [N] is the number of records and the table
    holds the offsets of the fields of each record. *)
Theorem load_normalises (table : float32 -> float32) (rs : list Source)
    (tail : list byte) :
  Z.of_nat (length rs) < 2 ^ 32 -> Forall wf_source rs ->
  Forall (fun r => Forall is_binary32 (s_emb r)) rs ->
  ci_load table (Some (encode_file rs ++ tail))
  = Done (Some {| arena := encode_file (normalise_source table <$> rs) ++ tail;
                  N := Z.of_nat (length rs); chunks := layout 4 rs |}).
Proof. apply ci_load_exact. Qed.

Lemma load_normalises_witness :
  (Z.of_nat (length demo_records) < 2 ^ 32 /\ Forall wf_source demo_records
   /\ Forall (fun r => Forall is_binary32 (s_emb r)) demo_records) /\
  ci_load (fun _ => F32.one) (Some (encode_file demo_records ++ [Byte.xff]))
  = Done (Some {| arena := encode_file (normalise_source (fun _ => F32.one)
                                          <$> demo_records) ++ [Byte.xff];
                  N := Z.of_nat (length demo_records);
                  chunks := layout 4 demo_records |}).
Proof.
  assert (Hwf : Forall wf_source demo_records) by check_sources.
  assert (Hbin : Forall (fun r => Forall is_binary32 (s_emb r)) demo_records)
    by check_binary32.
  split; [split; [simpl; lia|split; assumption]|].
  apply (load_normalises (fun _ => F32.one) demo_records [Byte.xff]);
    [simpl; lia | exact Hwf | exact Hbin].
Defined.

(** X18: after such a file was loaded, the getters give back each
    record: the pointers they return designate, in the arena, the bytes
    of the identifier, parent, file, extension and text of the record,
    and the two line numbers are those of the record. *)
Theorem load_getters_round_trip (table : float32 -> float32) (rs : list Source) :
  Z.of_nat (length rs) < 2 ^ 32 -> Forall wf_source rs ->
  exists ci, ci_load table (Some (encode_file rs)) = Done (Some ci) /\
    N ci = Z.of_nat (length rs) /\
    forall (i : nat) r, rs !! i = Some r ->
      exists p_id p_parent p_file p_ext p_text,
        ci_get_id ci (Z.of_nat i) = Done p_id /\
        bytes_at (arena ci) p_id (len (s_id r)) = s_id r /\
        ci_get_parent ci (Z.of_nat i) = Done p_parent /\
        bytes_at (arena ci) p_parent (len (s_parent r)) = s_parent r /\
        ci_get_file ci (Z.of_nat i) = Done p_file /\
        bytes_at (arena ci) p_file (len (s_file r)) = s_file r /\
        ci_get_ext ci (Z.of_nat i) = Done p_ext /\
        bytes_at (arena ci) p_ext (len (s_ext r)) = s_ext r /\
        ci_get_text ci (Z.of_nat i) = Done p_text /\
        bytes_at (arena ci) p_text (len (s_text r)) = s_text r /\
        ci_get_start ci (Z.of_nat i) = Done (s_start r) /\
        ci_get_end ci (Z.of_nat i) = Done (s_end r).
Proof. apply load_reproduces_fields. Qed.

Lemma load_getters_round_trip_witness :
  (Z.of_nat (length demo_records) < 2 ^ 32 /\ Forall wf_source demo_records) /\
  exists ci, ci_load (fun _ => F32.one) (Some (encode_file demo_records))
             = Done (Some ci) /\
    N ci = Z.of_nat (length demo_records) /\
    forall (i : nat) r, demo_records !! i = Some r ->
      exists p_id p_parent p_file p_ext p_text,
        ci_get_id ci (Z.of_nat i) = Done p_id /\
        bytes_at (arena ci) p_id (len (s_id r)) = s_id r /\
        ci_get_parent ci (Z.of_nat i) = Done p_parent /\
        bytes_at (arena ci) p_parent (len (s_parent r)) = s_parent r /\
        ci_get_file ci (Z.of_nat i) = Done p_file /\
        bytes_at (arena ci) p_file (len (s_file r)) = s_file r /\
        ci_get_ext ci (Z.of_nat i) = Done p_ext /\
        bytes_at (arena ci) p_ext (len (s_ext r)) = s_ext r /\
        ci_get_text ci (Z.of_nat i) = Done p_text /\
        bytes_at (arena ci) p_text (len (s_text r)) = s_text r /\
        ci_get_start ci (Z.of_nat i) = Done (s_start r) /\
        ci_get_end ci (Z.of_nat i) = Done (s_end r).
Proof.
  assert (Hwf : Forall wf_source demo_records) by check_sources.
  split; [split; [simpl; lia|exact Hwf]|].
  apply (load_getters_round_trip (fun _ => F32.one) demo_records);
    [simpl; lia | exact Hwf].
Defined.

(** X19: whatever the file holds, when [ci_load] returns an index without
    having left the buffer, the arena has the size of the file, [N] is the
    first word of the file, the table has [N] entries, and the records
    they describe follow one another from offset 4 on, every field and
    every embedding inside the arena. *)
Theorem load_any_file_in_bounds (table : float32 -> float32) (file : list byte)
    (ci : ChunkIndex) :
  ci_load table (Some file) = Done (Some ci) ->
  length (arena ci) = length file /\ read_u32 file 0 = Done (N ci) /\
  Z.of_nat (length (chunks ci)) = N ci /\ N ci < 2 ^ 32 /\
  consecutive (Z.of_nat (length file)) 4 (chunks ci).
Proof. apply ci_load_done. Qed.

Lemma load_any_file_in_bounds_witness :
  ci_load (fun _ => F32.one) (Some (encode_file demo_records)) = Done (Some demo_index) /\
  length (arena demo_index) = length (encode_file demo_records) /\
  read_u32 (encode_file demo_records) 0 = Done (N demo_index) /\
  Z.of_nat (length (chunks demo_index)) = N demo_index /\ N demo_index < 2 ^ 32 /\
  consecutive (Z.of_nat (length (encode_file demo_records))) 4 (chunks demo_index).
Proof.
  split; [reflexivity|].
  apply (load_any_file_in_bounds (fun _ => F32.one) (encode_file demo_records) demo_index).
  reflexivity.
Defined.

(** X20: [ci_load] reads the record count before it looks at the size of
    the file: on a file of fewer than four bytes, the empty file
    included, it reads outside the buffer. *)
Theorem load_short_file_reads_out_of_bounds (table : float32 -> float32)
    (file : list byte) :
  (length file < 4)%nat -> ci_load table (Some file) = OutOfBounds.
Proof.
  intros Hlen. unfold ci_load. rewrite read_u32_short by lia. reflexivity.
Qed.

Lemma load_short_file_reads_out_of_bounds_witness :
  (length [Byte.x01; Byte.x00] < 4)%nat /\
  ci_load (fun _ => F32.one) (Some [Byte.x01; Byte.x00]) = OutOfBounds.
Proof.
  split; [simpl; lia|].
  apply (load_short_file_reads_out_of_bounds (fun _ => F32.one) [Byte.x01; Byte.x00]).
  simpl. lia.
Defined.

(** X21: the getters check nothing.  On an index that [ci_load] returned,
    each of them returns the field of record [i] when [0 <= i < N] and
    reads outside the table for every other [i]. *)
Theorem getters_in_range (table : float32 -> float32) (file : list byte)
    (ci : ChunkIndex) (i : Z) :
  ci_load table (Some file) = Done (Some ci) ->
  (0 <= i < N ci ->
   exists c, chunks ci !! Z.to_nat i = Some c /\
     ci_get_id ci i = Done (id c) /\ ci_get_parent ci i = Done (parent c) /\
     ci_get_file ci i = Done (Chunks.file c) /\ ci_get_ext ci i = Done (ext c) /\
     ci_get_start ci i = Done (start_ln c) /\ ci_get_end ci i = Done (end_ln c) /\
     ci_get_text ci i = Done (text c)) /\
  (~ 0 <= i < N ci ->
   ci_get_id ci i = OutOfBounds /\ ci_get_parent ci i = OutOfBounds /\
   ci_get_file ci i = OutOfBounds /\ ci_get_ext ci i = OutOfBounds /\
   ci_get_start ci i = OutOfBounds /\ ci_get_end ci i = OutOfBounds /\
   ci_get_text ci i = OutOfBounds).
Proof.
  intros Hload.
  destruct (ci_load_done table file ci Hload) as (_ & _ & HN & _).
  destruct (chunk_at_range ci i HN) as [Hin Hout].
  unfold ci_get_id, ci_get_parent, ci_get_file, ci_get_ext, ci_get_start,
    ci_get_end, ci_get_text.
  split; intros Hi.
  - destruct (Hin Hi) as (c & Hc & ->). exists c. cbn [fmap outcome_fmap]. auto 10.
  - rewrite (Hout Hi). cbn [fmap outcome_fmap]. auto 10.
Qed.

Lemma getters_in_range_witness :
  ci_load (fun _ => F32.one) (Some (encode_file demo_records)) = Done (Some demo_index) /\
  (0 <= 3 < N demo_index ->
   exists c, chunks demo_index !! Z.to_nat 3 = Some c /\
     ci_get_id demo_index 3 = Done (id c) /\ ci_get_parent demo_index 3 = Done (parent c) /\
     ci_get_file demo_index 3 = Done (Chunks.file c) /\
     ci_get_ext demo_index 3 = Done (ext c) /\
     ci_get_start demo_index 3 = Done (start_ln c) /\
     ci_get_end demo_index 3 = Done (end_ln c) /\
     ci_get_text demo_index 3 = Done (text c)) /\
  (~ 0 <= 3 < N demo_index ->
   ci_get_id demo_index 3 = OutOfBounds /\ ci_get_parent demo_index 3 = OutOfBounds /\
   ci_get_file demo_index 3 = OutOfBounds /\ ci_get_ext demo_index 3 = OutOfBounds /\
   ci_get_start demo_index 3 = OutOfBounds /\ ci_get_end demo_index 3 = OutOfBounds /\
   ci_get_text demo_index 3 = OutOfBounds).
Proof.
  split; [reflexivity|].
  apply (getters_in_range (fun _ => F32.one) (encode_file demo_records) demo_index 3).
  reflexivity.
Defined.

(** X22: an index that [ci_load] returned, whatever the file was, meets
    what [ci_search] requires for every query of [dim] floats, and the
    search on it returns with at most [K] hits. *)
Theorem load_then_search (table : float32 -> float32) (file : list byte)
    (ci : ChunkIndex) (q : list float32) (dim K : Z) (past_end : Pair) :
  ci_load table (Some file) = Done (Some ci) ->
  0 <= dim < 2 ^ 32 -> dim <= Z.of_nat (length q) -> 0 <= K < 2 ^ 32 ->
  wf_search ci q dim /\
  exists r, ci_search ci q dim K past_end = Done r /\ 0 <= count r <= K.
Proof.
  intros Hload Hdim Hq HK.
  pose proof (loaded_wf_search table file ci q dim Hload Hdim Hq) as Hwf.
  split; [exact Hwf|].
  destruct (ci_search_result ci q dim K past_end HK Hwf) as (r & Hrun & Hc & _).
  exists r. split; [exact Hrun|]. lia.
Qed.

Lemma load_then_search_witness :
  (ci_load (fun _ => F32.one) (Some (encode_file demo_records)) = Done (Some demo_index)
   /\ 0 <= 4 < 2 ^ 32 /\ 4 <= Z.of_nat (length demo_query) /\ 0 <= 2 < 2 ^ 32) /\
  wf_search demo_index demo_query 4 /\
  exists r, ci_search demo_index demo_query 4 2 zero_pair = Done r /\ 0 <= count r <= 2.
Proof.
  split; [split; [reflexivity|simpl; lia]|].
  apply (load_then_search (fun _ => F32.one) (encode_file demo_records) demo_index
           demo_query 4 2 zero_pair); [reflexivity | lia | simpl; lia | lia].
Defined.

(** ** Search *)

(** X23: with [K > 0] a well-formed call of [ci_search] stays inside the
    heap block, and every index it returns is below [N]. *)
Theorem search_stays_in_heap (ci : ChunkIndex) (q : list float32) (dim K : Z)
    (past_end : Pair) :
  0 < K < 2 ^ 32 -> wf_search ci q dim ->
  exists r, ci_search ci q dim K past_end = Done r /\ heap_oob r = false /\
    Forall (fun i => 0 <= i < N ci) (out_i r).
Proof.
  intros HK Hwf.
  destruct (ci_search_result ci q dim K past_end ltac:(lia) Hwf)
    as (r & Hrun & _ & _ & _ & Hel & Hoob & _).
  exists r. split; [exact Hrun|]. split; [apply Hoob; lia|].
  eapply Forall_impl; [exact Hel|]. intros i (Hi & c & Hc' & _).
  apply lookup_lt_Some in Hc'. rewrite (wf_N _ _ _ Hwf). lia.
Qed.

Lemma search_stays_in_heap_witness :
  (0 < 2 < 2 ^ 32 /\ wf_search demo_index demo_query 4) /\
  exists r, ci_search demo_index demo_query 4 2 zero_pair = Done r /\
    heap_oob r = false /\ Forall (fun i => 0 <= i < N demo_index) (out_i r).
Proof.
  split; [split; [lia | check_wf_search]|].
  apply (search_stays_in_heap demo_index demo_query 4 2 zero_pair);
    [lia | check_wf_search].
Defined.

(** X24: no record is returned twice, and the score returned with a
    record is the dot product the scan computed for that record. *)
Theorem search_scores_exact (ci : ChunkIndex) (q : list float32) (dim K : Z)
    (past_end : Pair) :
  0 <= K < 2 ^ 32 -> wf_search ci q dim ->
  exists r, ci_search ci q dim K past_end = Done r /\
    NoDup (out_i r) /\
    Forall2 (fun i s => score_at ci q dim i = Done s) (out_i r) (out_s r).
Proof. apply ci_search_scored. Qed.

Lemma search_scores_exact_witness :
  (0 <= 2 < 2 ^ 32 /\ wf_search five_index five_query 2) /\
  exists r, ci_search five_index five_query 2 2 zero_pair = Done r /\
    NoDup (out_i r) /\
    Forall2 (fun i s => score_at five_index five_query 2 i = Done s) (out_i r) (out_s r).
Proof.
  split; [split; [lia | check_wf_search]|].
  apply (search_scores_exact five_index five_query 2 2 zero_pair);
    [lia | check_wf_search].
Defined.

(** X25: when fewer than [K] records have the dimension of the query,
    the hits are all of them, in the order of the corpus and not in the
    order of their scores. *)
Theorem search_underfull_in_corpus_order (ci : ChunkIndex) (q : list float32)
    (dim K : Z) (past_end : Pair) :
  0 <= K < 2 ^ 32 -> wf_search ci q dim ->
  Z.of_nat (length (eligible_indices ci dim)) < K ->
  exists r, ci_search ci q dim K past_end = Done r /\
    out_i r = eligible_indices ci dim.
Proof. apply ci_search_underfull. Qed.

Lemma search_underfull_in_corpus_order_witness :
  (0 <= 6 < 2 ^ 32 /\ wf_search five_index five_query 2
   /\ Z.of_nat (length (eligible_indices five_index 2)) < 6) /\
  exists r, ci_search five_index five_query 2 6 zero_pair = Done r /\
    out_i r = eligible_indices five_index 2.
Proof.
  split; [split; [lia | split; [check_wf_search | vm_compute; reflexivity]]|].
  apply (search_underfull_in_corpus_order five_index five_query 2 6 zero_pair);
    [lia | check_wf_search | vm_compute; reflexivity].
Defined.

(** X26: when the first record of the query's dimension scores NaN, it
    stays at the root of the heap and nothing is compared above it: the
    hits are the first [K] records of that dimension, whatever the scores
    of the others. *)
Theorem search_nan_first_freezes (ci : ChunkIndex) (q : list float32) (dim K : Z)
    (past_end : Pair) (i0 : Z) (rest : list Z) :
  0 < K < 2 ^ 32 -> wf_search ci q dim ->
  eligible_indices ci dim = i0 :: rest -> score_at ci q dim i0 = Done S754_nan ->
  exists r, ci_search ci q dim K past_end = Done r /\
    out_i r = take (Z.to_nat K) (eligible_indices ci dim).
Proof. apply ci_search_nan_first. Qed.

Lemma search_nan_first_freezes_witness :
  (0 < 1 < 2 ^ 32 /\ wf_search nan_index five_query 2
   /\ eligible_indices nan_index 2 = 0 :: [1; 2]
   /\ score_at nan_index five_query 2 0 = Done S754_nan) /\
  exists r, ci_search nan_index five_query 2 1 zero_pair = Done r /\
    out_i r = take (Z.to_nat 1) (eligible_indices nan_index 2).
Proof.
  split; [split; [lia | split; [check_wf_search | split; reflexivity]]|].
  apply (search_nan_first_freezes nan_index five_query 2 1 zero_pair 0 [1; 2]);
    [lia | check_wf_search | reflexivity | reflexivity].
Defined.

(** X27: on an array of at least [K] entries [sift_down] ends, stays
    inside the array and only reorders the entries. *)
Theorem sift_down_permutes (h : list Pair) (K : Z) :
  K <= Z.of_nat (length h) -> exists h', sift_down h K = Done h' /\ h' ≡ₚ h.
Proof. apply sift_down_perm. Qed.

Lemma sift_down_permutes_witness :
  3 <= Z.of_nat (length [pair_of d_one 0; pair_of d_zero 1; pair_of d_neg_one 2]) /\
  exists h', sift_down [pair_of d_one 0; pair_of d_zero 1; pair_of d_neg_one 2] 3 = Done h'
             /\ h' ≡ₚ [pair_of d_one 0; pair_of d_zero 1; pair_of d_neg_one 2].
Proof.
  split; [simpl; lia|].
  apply (sift_down_permutes [pair_of d_one 0; pair_of d_zero 1; pair_of d_neg_one 2] 3).
  simpl. lia.
Defined.

(** X28: when no score is NaN and the first [K] entries are a min-heap
    but for the root, [sift_down] makes them a min-heap. *)
Theorem sift_down_restores_heap (h : list Pair) (K : Z) :
  K <= Z.of_nat (length h) -> nan_free h -> heap_below_root h K ->
  exists h', sift_down h K = Done h' /\ h' ≡ₚ h /\ is_min_heap h' K.
Proof. apply sift_down_heap. Qed.

Lemma sift_down_restores_heap_witness :
  (3 <= Z.of_nat (length [pair_of d_one 0; pair_of d_zero 1; pair_of d_neg_one 2])
   /\ nan_free [pair_of d_one 0; pair_of d_zero 1; pair_of d_neg_one 2]
   /\ heap_below_root [pair_of d_one 0; pair_of d_zero 1; pair_of d_neg_one 2] 3) /\
  exists h', sift_down [pair_of d_one 0; pair_of d_zero 1; pair_of d_neg_one 2] 3 = Done h'
             /\ h' ≡ₚ [pair_of d_one 0; pair_of d_zero 1; pair_of d_neg_one 2]
             /\ is_min_heap h' 3.
Proof.
  assert (Hn : nan_free [pair_of d_one 0; pair_of d_zero 1; pair_of d_neg_one 2])
    by (repeat constructor; discriminate).
  assert (Hb : heap_below_root [pair_of d_one 0; pair_of d_zero 1; pair_of d_neg_one 2] 3)
    by (intros i Hi c pi pc Hc HcK; lia).
  split; [split; [simpl; lia|split; assumption]|].
  apply (sift_down_restores_heap [pair_of d_one 0; pair_of d_zero 1; pair_of d_neg_one 2] 3);
    [simpl; lia | exact Hn | exact Hb].
Defined.


